(** * GrpcRequestHandler: request registry, insert admission, insert
      ingestion and DSL compilation

    A shallow embedding of
    [core/src/server/grpc_impl/GrpcRequestHandler.cpp] and the properties
    of its request-context registry, its insert admission gate, its
    columnar ingestion and its boolean-query compiler.

    Conventions.
    - C++ integers are [Z]; where a fixed width matters the wrap-around is
      written with [int64_wrap] / [uint64_wrap].
    - [std::unordered_map] and [std::set] are stdpp's [gmap] and [gset];
      a [std::shared_ptr] that may be [nullptr] is an [option].
    - Mutation through references is explicit state passing: a function
      returns the new value of every object it may write.
    - Collaborators whose code is not in this file (the tracer, the engine
      request handler, [query::QueryUtil], the JSON text parser, the random
      engine) are section variables or class instances. *)

From stdpp Require Import gmap strings list fin_maps pretty.
From Stdlib Require Import ZArith QArith Lia Ascii.
From Stdlib Require Import Strings.Byte.

#[local] Set Warnings "-register-all".
#[local] Open Scope Z_scope.

(* ===================================================================== *)
(** * Part I: the embedding                                               *)
(* ===================================================================== *)

(** ** Fixed-width integers *)

Definition int64_wrap (z : Z) : Z := (z + 2 ^ 63) mod 2 ^ 64 - 2 ^ 63.
Definition uint64_wrap (z : Z) : Z := z mod 2 ^ 64.

(** A decimal digit, as [std::to_string] prints them. *)
Definition is_digit (c : ascii) : Prop :=
  c ∈ ["0"; "1"; "2"; "3"; "4"; "5"; "6"; "7"; "8"; "9"]%char.

(** ** Status and error codes ([utils/Status.h], [utils/Error.h]) *)

(** The server error codes this file names.  Their numeric values live in
    [utils/Error.h]; only their identity is used here. *)
Inductive ErrorCode : Set :=
  | SERVER_SUCCESS
  | SERVER_UNEXPECTED_ERROR
  | SERVER_UNSUPPORTED_ERROR
  | SERVER_NULL_POINTER
  | SERVER_INVALID_ARGUMENT
  | SERVER_FILE_NOT_FOUND
  | SERVER_NOT_IMPLEMENT
  | SERVER_CANNOT_CREATE_FOLDER
  | SERVER_CANNOT_CREATE_FILE
  | SERVER_CANNOT_DELETE_FOLDER
  | SERVER_CANNOT_DELETE_FILE
  | SERVER_COLLECTION_NOT_EXIST
  | SERVER_INVALID_COLLECTION_NAME
  | SERVER_INVALID_COLLECTION_DIMENSION
  | SERVER_INVALID_VECTOR_DIMENSION
  | SERVER_INVALID_FIELD_NAME
  | SERVER_INVALID_FIELD_NUM
  | SERVER_INVALID_INDEX_TYPE
  | SERVER_INVALID_ROWRECORD
  | SERVER_INVALID_ROWRECORD_ARRAY
  | SERVER_INVALID_TOPK
  | SERVER_INVALID_NPROBE
  | SERVER_INVALID_INDEX_NLIST
  | SERVER_INVALID_INDEX_METRIC_TYPE
  | SERVER_INVALID_SEGMENT_ROW_COUNT
  | SERVER_ILLEGAL_VECTOR_ID
  | SERVER_ILLEGAL_SEARCH_RESULT
  | SERVER_CACHE_FULL
  | DB_META_TRANSACTION_FAILED
  | SERVER_BUILD_INDEX_ERROR
  | SERVER_OUT_OF_MEMORY
  | SERVER_INVALID_DSL_PARAMETER
  | SERVER_INVALID_BINARY_QUERY.

#[global] Instance ErrorCode_eq_dec : EqDecision ErrorCode.
Proof. solve_decision. Defined.

Record Status : Set := mkStatus { code : ErrorCode; message : string }.

#[global] Instance Status_eq_dec : EqDecision Status.
Proof. solve_decision. Defined.

Definition Status_OK : Status := mkStatus SERVER_SUCCESS "".
Definition ok (s : Status) : bool := bool_decide (code s = SERVER_SUCCESS).

(** The wire error codes of [milvus.grpc.ErrorCode] that [ErrorMap] uses. *)
Module grpc.
Inductive ErrorCode : Set :=
  | SUCCESS
  | UNEXPECTED_ERROR
  | ILLEGAL_ARGUMENT
  | FILE_NOT_FOUND
  | CANNOT_CREATE_FOLDER
  | CANNOT_CREATE_FILE
  | CANNOT_DELETE_FOLDER
  | CANNOT_DELETE_FILE
  | COLLECTION_NOT_EXISTS
  | ILLEGAL_COLLECTION_NAME
  | ILLEGAL_DIMENSION
  | ILLEGAL_INDEX_TYPE
  | ILLEGAL_ROWRECORD
  | ILLEGAL_TOPK
  | ILLEGAL_NLIST
  | ILLEGAL_METRIC_TYPE
  | ILLEGAL_VECTOR_ID
  | ILLEGAL_SEARCH_RESULT
  | CACHE_FAILED
  | META_FAILED
  | BUILD_INDEX_ERROR
  | OUT_OF_MEMORY.
End grpc.

(** [ErrorMap]: the static table, with [UNEXPECTED_ERROR] for every code
    that is not a key of it. *)
Definition ErrorMap (c : ErrorCode) : grpc.ErrorCode :=
  match c with
  | SERVER_UNEXPECTED_ERROR => grpc.UNEXPECTED_ERROR
  | SERVER_UNSUPPORTED_ERROR => grpc.UNEXPECTED_ERROR
  | SERVER_NULL_POINTER => grpc.UNEXPECTED_ERROR
  | SERVER_INVALID_ARGUMENT => grpc.ILLEGAL_ARGUMENT
  | SERVER_FILE_NOT_FOUND => grpc.FILE_NOT_FOUND
  | SERVER_NOT_IMPLEMENT => grpc.UNEXPECTED_ERROR
  | SERVER_CANNOT_CREATE_FOLDER => grpc.CANNOT_CREATE_FOLDER
  | SERVER_CANNOT_CREATE_FILE => grpc.CANNOT_CREATE_FILE
  | SERVER_CANNOT_DELETE_FOLDER => grpc.CANNOT_DELETE_FOLDER
  | SERVER_CANNOT_DELETE_FILE => grpc.CANNOT_DELETE_FILE
  | SERVER_COLLECTION_NOT_EXIST => grpc.COLLECTION_NOT_EXISTS
  | SERVER_INVALID_COLLECTION_NAME => grpc.ILLEGAL_COLLECTION_NAME
  | SERVER_INVALID_COLLECTION_DIMENSION => grpc.ILLEGAL_DIMENSION
  | SERVER_INVALID_VECTOR_DIMENSION => grpc.ILLEGAL_DIMENSION
  | SERVER_INVALID_FIELD_NAME => grpc.ILLEGAL_ARGUMENT
  | SERVER_INVALID_FIELD_NUM => grpc.ILLEGAL_ARGUMENT
  | SERVER_INVALID_INDEX_TYPE => grpc.ILLEGAL_INDEX_TYPE
  | SERVER_INVALID_ROWRECORD => grpc.ILLEGAL_ROWRECORD
  | SERVER_INVALID_ROWRECORD_ARRAY => grpc.ILLEGAL_ROWRECORD
  | SERVER_INVALID_TOPK => grpc.ILLEGAL_TOPK
  | SERVER_INVALID_NPROBE => grpc.ILLEGAL_ARGUMENT
  | SERVER_INVALID_INDEX_NLIST => grpc.ILLEGAL_NLIST
  | SERVER_INVALID_INDEX_METRIC_TYPE => grpc.ILLEGAL_METRIC_TYPE
  | SERVER_INVALID_SEGMENT_ROW_COUNT => grpc.ILLEGAL_ARGUMENT
  | SERVER_ILLEGAL_VECTOR_ID => grpc.ILLEGAL_VECTOR_ID
  | SERVER_ILLEGAL_SEARCH_RESULT => grpc.ILLEGAL_SEARCH_RESULT
  | SERVER_CACHE_FULL => grpc.CACHE_FAILED
  | DB_META_TRANSACTION_FAILED => grpc.META_FAILED
  | SERVER_BUILD_INDEX_ERROR => grpc.BUILD_INDEX_ERROR
  | SERVER_OUT_OF_MEMORY => grpc.OUT_OF_MEMORY
  | _ => grpc.UNEXPECTED_ERROR
  end.

(** Modelled from the spec: the error taxonomy of the specification's
    error-handling section, which is not a function of the source.
    "InvalidArgument (malformed filter expression, bad top-k, duplicate
    field name, field count exceeding the maximum, negative id, wrong
    vector-parameter-block count), NotFound (unknown collection/partition),
    Internal (... failed post-conversion structural check)".  Each class
    holds the codes the source raises for the listed causes. *)
Inductive ErrorClass : Set := InvalidArgument | NotFound | Internal | Unclassified.

Definition error_class (c : ErrorCode) : ErrorClass :=
  match c with
  | SERVER_INVALID_ARGUMENT        (* malformed filter expression *)
  | SERVER_INVALID_DSL_PARAMETER   (* malformed filter, vector-block count *)
  | SERVER_INVALID_TOPK            (* bad top-k *)
  | SERVER_INVALID_FIELD_NAME      (* duplicate field name *)
  | SERVER_INVALID_FIELD_NUM       (* field count exceeding the maximum *)
  | SERVER_INVALID_ROWRECORD_ARRAY (* negative id, row-count mismatch *)
      => InvalidArgument
  | SERVER_COLLECTION_NOT_EXIST => NotFound
  | SERVER_INVALID_BINARY_QUERY    (* failed post-conversion check *)
  | SERVER_UNEXPECTED_ERROR => Internal
  | _ => Unclassified
  end.

(** Modelled from the spec: [SET_RESPONSE(slot, status, context)] is a macro
    of [GrpcRequestHandler.h]; "every response embeds a status (error kind +
    message)".  A status slot of a response message is [None] until the
    macro writes it, and then holds the [Status] it was given. *)
Definition SET_RESPONSE (status : Status) : option Status := Some status.

(* ===================================================================== *)
(** ** Request context registry                                           *)
(* ===================================================================== *)

(** The tracing collaborator ([opentracing::Tracer] and
    [tracing::TracerUtil]). *)
Class Tracer := {
  SpanContext : Type;
  GetTraceContextHeaderName : string;
  (** [tracer_->Extract(carrier)]: a span context, or an error message. *)
  Extract : gmap string string → string + SpanContext;
}.

Module Registry.

(** gRPC metadata is a multimap; [find] is modelled as the first entry
    with the key, [AddInitialMetadata] as insertion at the end. *)
Definition metadata := list (string * string).

Fixpoint metadata_find (key : string) (md : metadata) : option string :=
  match md with
  | [] => None
  | (k, v) :: md' => if decide (k = key) then Some v else metadata_find key md'
  end.

Record ServerContext := mkServerContext {
  client_metadata : metadata;
  server_metadata : metadata;   (* the initial metadata to be sent *)
}.

Definition AddInitialMetadata (key value : string) (sc : ServerContext) : ServerContext :=
  {| client_metadata := client_metadata sc;
     server_metadata := server_metadata sc ++ [(key, value)] |}.

Definition REQ_ID : string := "request_id".

Section WithTracer.
Context {T : Tracer}.

(** [tracer_->StartSpan(method, {ChildOf(parent)})]. *)
Record Span := mkSpan { span_operation : string; span_parent : SpanContext }.

(** [server::Context]: request id, trace context, connection context. *)
Record Context := mkContext {
  ReqID : string;
  trace_context : option Span;
  connection_context : option ServerContext;
}.

Definition SetTraceContext (span : Span) (c : Context) : Context :=
  {| ReqID := ReqID c; trace_context := Some span;
     connection_context := connection_context c |}.

Definition SetConnectionContext (sc : ServerContext) (c : Context) : Context :=
  {| ReqID := ReqID c; trace_context := trace_context c;
     connection_context := Some sc |}.

(** The handler's registry state: [context_map_] (a value [None] is a
    [nullptr] context) and the file-level counter [_sequential_id]. *)
Record handler := mkHandler {
  context_map_ : gmap string (option Context);
  _sequential_id : Z;
}.

(** [get_sequential_id]: post-increment of the atomic counter. *)
Definition get_sequential_id (h : handler) : Z * handler :=
  (_sequential_id h,
   {| context_map_ := context_map_ h;
      _sequential_id := int64_wrap (_sequential_id h + 1) |}).

(** [set_request_id] on a non-null server context. *)
Definition set_request_id (sc : ServerContext) (request_id : string) : ServerContext :=
  AddInitialMetadata REQ_ID request_id sc.

(** [get_request_id] on a non-null server context. *)
Definition get_request_id (sc : ServerContext) : string :=
  match metadata_find REQ_ID (server_metadata sc) with
  | None => "INVALID_ID"
  | Some v => v
  end.

(** The probe of [OnPostRecvInitialMetaData]:
    [do { try = id + "_" + to_string(suffix); exist = find(try) != end;
          suffix++; } while (exist);]
    run for at most [fuel] iterations.  The result is the final
    [try_request_id]. *)
Fixpoint find_unused_suffix (fuel : nat) (m : gmap string (option Context))
    (request_id : string) (suffix : Z) : option string :=
  match fuel with
  | O => None
  | S fuel' =>
      let try_request_id := request_id +:+ "_" +:+ pretty suffix in
      if decide (is_Some (m !! try_request_id))
      then find_unused_suffix fuel' m request_id (suffix + 1)
      else Some try_request_id
  end.

(** [SetContext]. *)
Definition SetContext (sc : ServerContext) (context : Context) (h : handler) : handler :=
  let request_id := get_request_id sc in
  {| context_map_ := <[request_id := Some context]> (context_map_ h);
     _sequential_id := _sequential_id h |}.

(** [GetContext]: the looked-up context (with its connection context
    set when it is not null) and the registry after the call. *)
Definition GetContext (sc : ServerContext) (h : handler) : option Context * handler :=
  let request_id := get_request_id sc in
  match context_map_ h !! request_id with
  | None => (None, h)
  | Some None => (None, h)
  | Some (Some c) =>
      let c' := SetConnectionContext sc c in
      (Some c',
       {| context_map_ := <[request_id := Some c']> (context_map_ h);
          _sequential_id := _sequential_id h |})
  end.

(** [OnPreSendMessage]: finish the span and erase the entry.  A
    [nullptr] entry would be dereferenced: [None]. *)
Definition OnPreSendMessage (sc : ServerContext) (h : handler) : option handler :=
  let request_id := get_request_id sc in
  match context_map_ h !! request_id with
  | None => Some h
  | Some None => None
  | Some (Some _) =>
      Some {| context_map_ := delete request_id (context_map_ h);
              _sequential_id := _sequential_id h |}
  end.

(** The carrier handed to the tracer: the trace-context header of the
    received initial metadata, when present. *)
Definition trace_carrier (recv_initial_metadata : metadata) : gmap string string :=
  match metadata_find GetTraceContextHeaderName recv_initial_metadata with
  | Some v => <[GetTraceContextHeaderName := v]> ∅
  | None => ∅
  end.

(** [OnPostRecvInitialMetaData].  [method] and [sc] come from the
    [ServerRpcInfo], [recv_initial_metadata] from the interceptor batch.
    The probe gets one more iteration than the map has entries (enough,
    see [find_unused_suffix_total]); [None] would be a probe cut short. *)
Definition OnPostRecvInitialMetaData (method : string) (sc : ServerContext)
    (recv_initial_metadata : metadata) (h : handler) : option (handler * ServerContext) :=
  let text_map := trace_carrier recv_initial_metadata in
  match Extract text_map with
  | inl _ => Some (h, sc)
  | inr span_context =>
      let span := mkSpan method span_context in
      let registered :=
        match metadata_find "request_id" (client_metadata sc) with
        | Some request_id =>
            match context_map_ h !! request_id with
            | None =>
                Some (request_id,
                      {| context_map_ := <[request_id := None]> (context_map_ h);
                         _sequential_id := _sequential_id h |}, sc)
            | Some _ =>
                match find_unused_suffix (S (size (context_map_ h)))
                        (context_map_ h) request_id 1 with
                | Some try_request_id =>
                    Some (request_id,
                          {| context_map_ := <[try_request_id := None]> (context_map_ h);
                             _sequential_id := _sequential_id h |}, sc)
                | None => None
                end
            end
        | None =>
            let '(id, h') := get_sequential_id h in
            let request_id := pretty id in
            Some (request_id, h', set_request_id sc request_id)
        end in
      match registered with
      | None => None
      | Some (request_id, h', sc') =>
          let context := SetTraceContext span (mkContext request_id None None) in
          Some (SetContext sc' context h', sc')
      end
  end.

End WithTracer.

Arguments Span {_}.
Arguments Context {_}.
Arguments handler {_}.

(** A tracer that extracts an empty span context from every carrier, as
    the no-op tracer of a server without tracing does. *)
Definition NoopTracer : Tracer :=
  {| SpanContext := unit;
     GetTraceContextHeaderName := "milvus-trace-context";
     Extract := λ _, inr () |}.

End Registry.

(* ===================================================================== *)
(** ** Random identifiers                                                 *)
(* ===================================================================== *)

Module RandomId.
Section WithEngine.
(** The random engine [random_num_generator_]: a state and one draw. *)
Variable engine : Type.
Variable draw : engine → Z * engine.

(** [random_num_generator_()], an unsigned 64-bit result. *)
Definition random_num_generator_ (g : engine) : Z * engine :=
  let '(v, g') := draw g in (uint64_wrap v, g').

(** [while (value == 0) value = random_num_generator_();] *)
Fixpoint redraw (fuel : nat) (value : Z) (g : engine) : option (Z * engine) :=
  if decide (value = 0) then
    match fuel with
    | O => None
    | S fuel' => let '(v, g') := random_num_generator_ g in redraw fuel' v g'
    end
  else Some (value, g).

(** [random_id]; [None] when [fuel] re-draws did not suffice. *)
Definition random_id (fuel : nat) (g : engine) : option (Z * engine) :=
  let '(value, g') := random_num_generator_ g in redraw fuel value g'.

(** The [n]-th value the engine produces from state [g]. *)
Fixpoint nth_draw (n : nat) (g : engine) : Z :=
  let '(v, g') := random_num_generator_ g in
  match n with O => v | S n' => nth_draw n' g' end.
End WithEngine.

(** An engine for examples: it produces 0, 1, 2, ... *)
Definition counting_draw (g : Z) : Z * Z := (g, g + 1).
End RandomId.

(* ===================================================================== *)
(** ** Insert admission gate                                              *)
(* ===================================================================== *)

Module Admission.

(** The two counters of the handler: the configured total
    [max_concurrent_insert_request_size_] (constant) and the remaining
    budget [max_concurrent_insert_request_size], both [int64_t]. *)
Record gate : Set := mkGate {
  max_concurrent_insert_request_size_ : Z;
  max_concurrent_insert_request_size : Z;
}.

(** The constructor copies the configured value into both. *)
Definition init (B : Z) : gate := mkGate B B.

(** The predicate of [insert_event_cv_.wait]:
    [max_concurrent_insert_request_size - request_size > 0]. *)
Definition wait_predicate (g : gate) (request_size : Z) : bool :=
  bool_decide (0 < int64_wrap (max_concurrent_insert_request_size g - request_size)).

(** [WaitToInsert], as one atomic step under the mutex: [None] while the
    predicate is false (the caller keeps waiting), otherwise the gate after
    [max_concurrent_insert_request_size -= request_size]. *)
Definition WaitToInsert (request_size : Z) (g : gate) : option gate :=
  if wait_predicate g request_size
  then Some (mkGate (max_concurrent_insert_request_size_ g)
               (int64_wrap (max_concurrent_insert_request_size g - request_size)))
  else None.

(** [FinishInsert]: [max_concurrent_insert_request_size += request_size]
    under the mutex (the [notify_all] that follows wakes the waiters, which
    re-evaluate the predicate). *)
Definition FinishInsert (request_size : Z) (g : gate) : gate :=
  mkGate (max_concurrent_insert_request_size_ g)
    (int64_wrap (max_concurrent_insert_request_size g + request_size)).

(** One call of [Insert] runs [WaitToInsert(request_size)], then
    [OnInsert], then [FinishInsert(request_size)] with the same size. *)
Inductive phase : Set := Waiting | InFlight | Finished.

Record insert_call : Set := mkCall { request_size : Z; call_phase : phase }.

#[global] Instance phase_eq_dec : EqDecision phase.
Proof. solve_decision. Defined.

(** The gate together with the calls that have reached [Insert]. *)
Record system : Set := mkSystem { the_gate : gate; calls : list insert_call }.

Definition init_system (B : Z) : system := mkSystem (init B) [].

Inductive label : Set :=
  | Arrive (size : Z)   (* a new call enters [Insert] *)
  | Pass (i : nat)     (* call [i] leaves [WaitToInsert] *)
  | Finish (i : nat).   (* call [i] runs [FinishInsert] *)

(** The interleavings: any call may take its next step.  A request size is
    [request->ByteSizeLong()], a non-negative [int64_t]. *)
Inductive step : label → system → system → Prop :=
  | step_arrive g cs size :
      0 ≤ size < 2 ^ 63 →
      step (Arrive size) (mkSystem g cs) (mkSystem g (cs ++ [mkCall size Waiting]))
  | step_pass g g' cs i size :
      cs !! i = Some (mkCall size Waiting) →
      WaitToInsert size g = Some g' →
      step (Pass i) (mkSystem g cs) (mkSystem g' (<[i := mkCall size InFlight]> cs))
  | step_finish g cs i size :
      cs !! i = Some (mkCall size InFlight) →
      step (Finish i) (mkSystem g cs)
        (mkSystem (FinishInsert size g) (<[i := mkCall size Finished]> cs)).

Definition step_any (s s' : system) : Prop := ∃ l, step l s s'.

Definition reachable (B : Z) (s : system) : Prop := rtc step_any (init_system B) s.

(** What a call holds of the budget: its size while admitted and not yet
    released. *)
Definition held (c : insert_call) : Z :=
  if decide (call_phase c = InFlight) then request_size c else 0.

(** The sum of the admitted-but-not-yet-released request sizes. *)
Fixpoint in_flight_size (cs : list insert_call) : Z :=
  match cs with
  | [] => 0
  | c :: cs' => held c + in_flight_size cs'
  end.

(** The invariant of the gate: the remaining budget and the admitted sizes
    add up to the configured total, and nothing is negative. *)
Definition gate_invariant (B : Z) (s : system) : Prop :=
  max_concurrent_insert_request_size_ (the_gate s) = B ∧
  max_concurrent_insert_request_size (the_gate s) + in_flight_size (calls s) = B ∧
  0 ≤ max_concurrent_insert_request_size (the_gate s) ∧
  Forall (λ c, 0 ≤ request_size c < 2 ^ 63) (calls s).

(** Budget 10: a call of size 4 is admitted, a call of size 10 waits. *)
Definition two_calls : system :=
  mkSystem (mkGate 10 6) [mkCall 4 InFlight; mkCall 10 Waiting].

End Admission.

(* ===================================================================== *)
(** ** Insert ingestion                                                   *)
(* ===================================================================== *)

Module Codec.

(** Floats are only moved, never computed with: a [float] or [double] is
    its bit pattern. *)
Definition float32 : Set := Z.
Definition float64 : Set := Z.

(** *** Wire messages ([milvus.grpc]) *)

Record VectorRowRecord : Set := mkVectorRowRecord {
  float_data : list float32;
  binary_data : list byte;
}.

Record AttrRecord : Set := mkAttrRecord {
  int32_value : list Z;
  int64_value : list Z;
  float_value : list float32;
  double_value : list float64;
}.

Record FieldValue : Set := mkFieldValue {
  field_name : string;
  attr_record : AttrRecord;
  vector_record : list VectorRowRecord;   (* [vector_record().records()] *)
}.

Record grpc_InsertParam : Set := mk_grpc_InsertParam {
  collection_name : string;
  fields : list FieldValue;
  entity_id_array : list Z;
  partition_tag : string;
}.

(** The response [EntityIds]; its status slot is [None] until written. *)
Record EntityIds : Set := mkEntityIds {
  response_status : option Status;
  response_entity_id_array : list Z;
}.

(** *** The engine's insert parameter *)

(** A [const char*] into a wire buffer, modelled by the typed array it
    points to. *)
Inductive data_addr : Set :=
  | addr_int32 (data : list Z)
  | addr_int64 (data : list Z)
  | addr_float (data : list float32)
  | addr_double (data : list float64)
  | addr_char (data : list byte).

Record InsertParam := mkInsertParam {
  fields_data_ : gmap string (list (data_addr * Z));
  row_count_ : Z;
  id_returned_ : list Z;
}.

Definition empty_InsertParam : InsertParam := mkInsertParam ∅ 0 [].

(** [RecordDataAddr<T>]: [bytes = num * sizeof(T)], and the pair is
    appended to [fields_data_[field_name]] (created empty when absent).
    [num] is a 32-bit element count, so the product does not overflow. *)
Definition RecordDataAddr (sizeof_T : Z) (field_name : string) (num : Z)
    (data : data_addr) (insert_param : InsertParam) : InsertParam :=
  let bytes := num * sizeof_T in
  let data_segment := (data, bytes) in
  mkInsertParam
    (<[field_name := default [] (fields_data_ insert_param !! field_name) ++ [data_segment]]>
       (fields_data_ insert_param))
    (row_count_ insert_param) (id_returned_ insert_param).

Definition sizeof_int32_t : Z := 4.
Definition sizeof_int64_t : Z := 8.
Definition sizeof_float : Z := 4.
Definition sizeof_double : Z := 8.
Definition sizeof_char : Z := 1.

(** [RepeatedField::size()], [std::string::size()]. *)
Definition size_of {A} (l : list A) : Z := Z.of_nat (length l).

(** The two totals computed at the head of [RecordVectorDataAddr] (and of
    [CopyRowRecords]). *)
Fixpoint float_data_size (grpc_records : list VectorRowRecord) : Z :=
  match grpc_records with
  | [] => 0
  | record :: rest => size_of (float_data record) + float_data_size rest
  end.

Fixpoint binary_data_size (grpc_records : list VectorRowRecord) : Z :=
  match grpc_records with
  | [] => 0
  | record :: rest => size_of (binary_data record) + binary_data_size rest
  end.

(** The loop [for (auto& record : grpc_records) RecordDataAddr<float>(...)]. *)
Fixpoint record_float_spans (field_name : string) (grpc_records : list VectorRowRecord)
    (insert_param : InsertParam) : InsertParam :=
  match grpc_records with
  | [] => insert_param
  | record :: rest =>
      record_float_spans field_name rest
        (RecordDataAddr sizeof_float field_name (size_of (float_data record))
           (addr_float (float_data record)) insert_param)
  end.

(** The loop [for (auto& record : grpc_records) RecordDataAddr<char>(...)]. *)
Fixpoint record_binary_spans (field_name : string) (grpc_records : list VectorRowRecord)
    (insert_param : InsertParam) : InsertParam :=
  match grpc_records with
  | [] => insert_param
  | record :: rest =>
      record_binary_spans field_name rest
        (RecordDataAddr sizeof_char field_name (size_of (binary_data record))
           (addr_char (binary_data record)) insert_param)
  end.

(** [RecordVectorDataAddr]. *)
Definition RecordVectorDataAddr (field_name : string)
    (grpc_records : list VectorRowRecord) (insert_param : InsertParam) : InsertParam :=
  if decide (0 < float_data_size grpc_records) then
    record_float_spans field_name grpc_records insert_param
  else if decide (0 < binary_data_size grpc_records) then
    record_binary_spans field_name grpc_records insert_param
  else insert_param.

(** The spans of a vector field, one per row record. *)
Definition float_span (record : VectorRowRecord) : data_addr * Z :=
  (addr_float (float_data record), size_of (float_data record) * sizeof_float).
Definition binary_span (record : VectorRowRecord) : data_addr * Z :=
  (addr_char (binary_data record), size_of (binary_data record) * sizeof_char).

(** *** [OnInsert] *)

(** The lambda [valid_row_count(base, test)]: the new value of [base], and
    the status it writes to the response when it returns [false]. *)
Definition valid_row_count (entity_id_array_size : Z) (base test : Z)
    : Z * option Status :=
  if decide (base < 0) then
    let base := test in
    if decide (0 < entity_id_array_size ∧ base ≠ entity_id_array_size)
    then (base, Some (mkStatus SERVER_INVALID_ROWRECORD_ARRAY "ID size not matches entity size"))
    else (base, None)
  else if decide (base ≠ test)
    then (base, Some (mkStatus SERVER_INVALID_ROWRECORD_ARRAY "Field row count inconsist"))
    else (base, None).

(** One iteration of the loop over the fields: the failure status that
    ends [OnInsert], or the new [row_num] and insert parameter. *)
Definition record_field (entity_id_array_size : Z) (field : FieldValue)
    (row_num : Z) (insert_param : InsertParam) : Status + (Z * InsertParam) :=
  let grpc_int32_size := size_of (int32_value (attr_record field)) in
  let grpc_int64_size := size_of (int64_value (attr_record field)) in
  let grpc_float_size := size_of (float_value (attr_record field)) in
  let grpc_double_size := size_of (double_value (attr_record field)) in
  if decide (0 < grpc_int32_size) then
    match valid_row_count entity_id_array_size row_num grpc_int32_size with
    | (_, Some st) => inl st
    | (row_num, None) =>
        inr (row_num, RecordDataAddr sizeof_int32_t (field_name field) grpc_int32_size
                        (addr_int32 (int32_value (attr_record field))) insert_param)
    end
  else if decide (0 < grpc_int64_size) then
    match valid_row_count entity_id_array_size row_num grpc_int64_size with
    | (_, Some st) => inl st
    | (row_num, None) =>
        inr (row_num, RecordDataAddr sizeof_int64_t (field_name field) grpc_int64_size
                        (addr_int64 (int64_value (attr_record field))) insert_param)
    end
  else if decide (0 < grpc_float_size) then
    match valid_row_count entity_id_array_size row_num grpc_float_size with
    | (_, Some st) => inl st
    | (row_num, None) =>
        inr (row_num, RecordDataAddr sizeof_float (field_name field) grpc_float_size
                        (addr_float (float_value (attr_record field))) insert_param)
    end
  else if decide (0 < grpc_double_size) then
    match valid_row_count entity_id_array_size row_num grpc_double_size with
    | (_, Some st) => inl st
    | (row_num, None) =>
        inr (row_num, RecordDataAddr sizeof_double (field_name field) grpc_double_size
                        (addr_double (double_value (attr_record field))) insert_param)
    end
  else
    match valid_row_count entity_id_array_size row_num (size_of (vector_record field)) with
    | (_, Some st) => inl st
    | (row_num, None) =>
        inr (row_num, RecordVectorDataAddr (field_name field) (vector_record field)
                        insert_param)
    end.

(** [for (int i = 0; i < field_size; i++) ...]. *)
Fixpoint record_fields (entity_id_array_size : Z) (fields : list FieldValue)
    (row_num : Z) (insert_param : InsertParam) : Status + (Z * InsertParam) :=
  match fields with
  | [] => inr (row_num, insert_param)
  | field :: rest =>
      match record_field entity_id_array_size field row_num insert_param with
      | inl st => inl st
      | inr (row_num, insert_param) =>
          record_fields entity_id_array_size rest row_num insert_param
      end
  end.

(** The element count of a field that [OnInsert] hands to
    [valid_row_count]: the first non-empty attribute array in the order
    int32, int64, float, double, and else the number of vector rows. *)
Definition element_count (field : FieldValue) : Z :=
  if decide (0 < size_of (int32_value (attr_record field))) then size_of (int32_value (attr_record field))
  else if decide (0 < size_of (int64_value (attr_record field))) then size_of (int64_value (attr_record field))
  else if decide (0 < size_of (float_value (attr_record field))) then size_of (float_value (attr_record field))
  else if decide (0 < size_of (double_value (attr_record field))) then size_of (double_value (attr_record field))
  else size_of (vector_record field).

Section WithEngine.
(** The connection context handed to the engine, [engine::FIELD_UID], and
    [req_handler_.Insert], which returns its status and the insert
    parameter as it leaves it (with [id_returned_] filled in). *)
Variable ConnectionContext : Type.
Variable FIELD_UID : string.
Variable req_handler_Insert :
  ConnectionContext → string → string → InsertParam → Status * InsertParam.

(** [OnInsert]: the response, and the insert parameters with which the
    engine's [Insert] was invoked (none, or one). *)
Definition OnInsert (context : ConnectionContext) (request : grpc_InsertParam)
    (response : EntityIds) : EntityIds * list InsertParam :=
  let ids := entity_id_array request in
  if decide (Exists (λ id, id < 0) ids) then
    let status := mkStatus SERVER_INVALID_ROWRECORD_ARRAY "id can not be negative number" in
    (mkEntityIds (SET_RESPONSE status) (response_entity_id_array response), [])
  else
    match record_fields (size_of ids) (fields request) (-1) empty_InsertParam with
    | inl status =>
        (mkEntityIds (SET_RESPONSE status) (response_entity_id_array response), [])
    | inr (row_num, insert_param) =>
        let insert_param :=
          mkInsertParam (fields_data_ insert_param) row_num (id_returned_ insert_param) in
        let insert_param :=
          if decide (0 < size_of ids)
          then RecordDataAddr sizeof_int64_t FIELD_UID (size_of ids) (addr_int64 ids) insert_param
          else insert_param in
        let '(status, returned) :=
          req_handler_Insert context (collection_name request)
            (partition_tag request) insert_param in
        if ok status then
          let entity_id_array :=
            match id_returned_ returned with
            | [] => response_entity_id_array response
            | _ => id_returned_ returned
            end in
          (mkEntityIds (SET_RESPONSE status) entity_id_array, [insert_param])
        else
          (mkEntityIds (SET_RESPONSE status) (response_entity_id_array response), [insert_param])
    end.
End WithEngine.

(** An engine for examples: it accepts every batch and returns the ids
    [0 .. row_count_ - 1]. *)
Definition accepting_Insert (_ : unit) (_ _ : string) (p : InsertParam)
    : Status * InsertParam :=
  (Status_OK,
   mkInsertParam (fields_data_ p) (row_count_ p)
     (Z.of_nat <$> seq 0 (Z.to_nat (row_count_ p)))).

End Codec.

(* ===================================================================== *)
(** ** Control flow of the C++ functions                                  *)
(* ===================================================================== *)

(** What a call of a C++ function that returns a [Status] does: it returns,
    it throws a [std::exception] with a [what()] message, or it runs into
    undefined behaviour. *)
Inductive outcome : Type :=
  | Returned (st : Status)
  | Thrown (what : string)
  | UndefinedBehaviour.

(** What evaluating an expression of the JSON library does: it yields a
    value, it throws, or its behaviour is undefined. *)
Inductive result (A : Type) : Type :=
  | Val (a : A)
  | Exc (what : string)
  | Undef.
Arguments Val {A} a.
Arguments Exc {A} what.
Arguments Undef {A}.

(** What a statement does: control goes on to the next statement with a
    value, the enclosing function returns a status, an exception is thrown,
    or the behaviour is undefined. *)
Inductive flow (A : Type) : Type :=
  | Next (a : A)
  | Return (st : Status)
  | Throw (what : string)
  | Undefined.
Arguments Next {A} a.
Arguments Return {A} st.
Arguments Throw {A} what.
Arguments Undefined {A}.

(** Statements over the objects [S] they may write.  The objects keep what
    was written to them when the statement returns early or throws. *)
Definition M (S A : Type) : Type := S → flow A * S.

Definition ret {S A} (a : A) : M S A := λ s, (Next a, s).

Definition bind {S A B} (m : M S A) (k : A → M S B) : M S B :=
  λ s, match m s with
       | (Next a, s') => k a s'
       | (Return st, s') => (Return st, s')
       | (Throw what, s') => (Throw what, s')
       | (Undefined, s') => (Undefined, s')
       end.

#[global] Instance M_ret S : MRet (M S) := λ A a, ret a.
#[global] Instance M_bind S : MBind (M S) := λ A B k m, bind m k.

(** An expression of the JSON library in statement position. *)
Definition eval {S A} (r : result A) : M S A :=
  λ s, match r with
       | Val a => (Next a, s)
       | Exc what => (Throw what, s)
       | Undef => (Undefined, s)
       end.
(** [return status;] *)
Definition return_ {S A} (st : Status) : M S A := λ s, (Return st, s).
Definition modify {S} (f : S → S) : M S unit := λ s, (Next (), f s).
Definition when {S} (b : bool) (m : M S unit) : M S unit := if b then m else ret ().

(** A function body that ends in [return st;]. *)
Definition function_body {S} (body : M S Status) (s : S) : outcome * S :=
  match body s with
  | (Next st, s') | (Return st, s') => (Returned st, s')
  | (Throw what, s') => (Thrown what, s')
  | (Undefined, s') => (UndefinedBehaviour, s')
  end.

(** [try { body } catch (std::exception& e) { handler(e.what()) }]; the
    exceptions of the JSON library derive from [std::exception]. *)
Definition try_catch {S A} (body : M S A) (handler : string → M S A) : M S A :=
  λ s, match body s with
       | (Throw what, s') => handler what s'
       | r => r
       end.

(** Modelled from the spec: [STATUS_CHECK(call)] is a macro of
    [utils/Status.h]; "failure aborts compilation atomically".  It returns
    the status of the call from the enclosing function when that status is
    not OK. *)
Definition STATUS_CHECK {S} (call : S → outcome * S) : M S unit :=
  λ s, match call s with
       | (Returned st, s') => if ok st then (Next (), s') else (Return st, s')
       | (Thrown what, s') => (Throw what, s')
       | (UndefinedBehaviour, s') => (Undefined, s')
       end.

(* ===================================================================== *)
(** ** JSON values ([nlohmann::json], as [milvus::json])                  *)
(* ===================================================================== *)

Module Json.

(** A JSON value.  An object lists its members in iteration order (the
    library keeps them in a [std::map], sorted by key). *)
Inductive json : Type :=
  | Jnull
  | Jboolean (b : bool)
  | Jnumber_integer (n : Z)
  | Jnumber_float (q : Q)
  | Jstring (s : string)
  | Jarray (elements : list json)
  | Jobject (members : list (string * json)).

Definition type_name (j : json) : string :=
  match j with
  | Jnull => "null"
  | Jboolean _ => "boolean"
  | Jnumber_integer _ | Jnumber_float _ => "number"
  | Jstring _ => "string"
  | Jarray _ => "array"
  | Jobject _ => "object"
  end.

(** [j.empty()]: null is empty, other primitives are not. *)
Definition empty (j : json) : bool :=
  match j with
  | Jnull | Jarray [] | Jobject [] => true
  | _ => false
  end.

Definition is_object (j : json) : bool :=
  match j with Jobject _ => true | _ => false end.

Fixpoint find_member (key : string) (members : list (string * json)) : option json :=
  match members with
  | [] => None
  | (k, v) :: rest => if decide (k = key) then Some v else find_member key rest
  end.

(** [j.contains(key)]. *)
Definition contains (j : json) (key : string) : bool :=
  match j with
  | Jobject members => bool_decide (is_Some (find_member key members))
  | _ => false
  end.

Definition type_error_305 (j : json) : string :=
  "[json.exception.type_error.305] cannot use operator[] with a string argument with "
  +:+ type_name j.

(** [j[key]] on a [const] value: the member; a missing key is undefined
    behaviour, a non-object throws. *)
Definition at_const (j : json) (key : string) : result json :=
  match j with
  | Jobject members =>
      match find_member key members with
      | Some v => Val v
      | None => Undef
      end
  | _ => Exc (type_error_305 j)
  end.

(** [j[key]] on a non-[const] value: the member, or the null that is
    inserted for a missing key (a null [j] first becomes an object); any
    other non-object throws.  The insertion itself is never observed by
    the code below, so only the referenced value is modelled. *)
Definition at_ (j : json) (key : string) : result json :=
  match j with
  | Jnull => Val Jnull
  | Jobject members => Val (default Jnull (find_member key members))
  | _ => Exc (type_error_305 j)
  end.

(** Conversion to [int64_t]: numbers only; a float is truncated, which is
    undefined when the result does not fit. *)
Definition get_int64 (j : json) : result Z :=
  match j with
  | Jnumber_integer n => Val (int64_wrap n)
  | Jnumber_float q =>
      let t := Z.quot (Qnum q) (Zpos (Qden q)) in
      if decide (- 2 ^ 63 ≤ t < 2 ^ 63) then Val t else Undef
  | _ => Exc ("[json.exception.type_error.302] type must be number, but is "
                +:+ type_name j)
  end.

(** Conversion to [std::string]. *)
Definition get_string (j : json) : result string :=
  match j with
  | Jstring s => Val s
  | _ => Exc ("[json.exception.type_error.302] type must be string, but is "
                +:+ type_name j)
  end.

Definition invalid_iterator_207 : string :=
  "[json.exception.invalid_iterator.207] cannot use key() for non-object iterators".
Definition invalid_iterator_214 : string :=
  "[json.exception.invalid_iterator.214] cannot get value".

(** [j.begin() != j.end()]. *)
Definition begin_not_end (j : json) : bool := negb (empty j).

(** [j.begin().key()]: the first key of an object; on an empty object the
    iterator is [end()] and dereferencing it is undefined; on anything else
    [key()] throws. *)
Definition begin_key (j : json) : result string :=
  match j with
  | Jobject [] => Undef
  | Jobject ((k, _) :: _) => Val k
  | _ => Exc invalid_iterator_207
  end.

(** [j.begin().value()]. *)
Definition begin_value (j : json) : result json :=
  match j with
  | Jobject [] | Jarray [] => Undef
  | Jobject ((_, v) :: _) => Val v
  | Jarray (v :: _) => Val v
  | Jnull => Exc invalid_iterator_214
  | _ => Val j
  end.

End Json.

(* ===================================================================== *)
(** ** Query compiler                                                     *)
(* ===================================================================== *)

Module Compiler.
Import Json.
Export Codec(VectorRowRecord, mkVectorRowRecord, float_data, binary_data,
             float_data_size, binary_data_size, float32).

(** *** Query structures ([query/GeneralQuery.h], [query/BooleanQuery.h]) *)

Inductive Occur : Set := INVALID | MUST | MUST_NOT | SHOULD.

(** A leaf holds a term query or a range query (of either the code keeps
    the raw [json_obj]) or a vector placeholder. *)
Record LeafQuery : Type := mkLeafQuery {
  term_query : option json;
  range_query : option json;
  vector_placeholder : string;
}.

Definition new_LeafQuery : LeafQuery := mkLeafQuery None None "".

Inductive BooleanQuery : Type := mkBooleanQuery {
  occur : Occur;
  boolean_queries : list BooleanQuery;
  leaf_queries : list LeafQuery;
}.

Definition new_BooleanQuery : BooleanQuery := mkBooleanQuery INVALID [] [].

Definition SetOccur (o : Occur) (q : BooleanQuery) : BooleanQuery :=
  mkBooleanQuery o (boolean_queries q) (leaf_queries q).
Definition AddBooleanQuery (child q : BooleanQuery) : BooleanQuery :=
  mkBooleanQuery (occur q) (boolean_queries q ++ [child]) (leaf_queries q).
Definition AddLeafQuery (leaf : LeafQuery) (q : BooleanQuery) : BooleanQuery :=
  mkBooleanQuery (occur q) (boolean_queries q) (leaf_queries q ++ [leaf]).

Record VectorRecord : Set := mkVectorRecord {
  vector_count : Z;
  query_float_data : list float32;
  query_binary_data : list byte;
}.

(** [query::VectorQuery]; the projections carry the prefix [vq_]. *)
Record VectorQuery : Type := mkVectorQuery {
  vq_field_name : string;
  vq_topk : Z;
  vq_metric_type : string;
  vq_extra_params : json;
  vq_query_vector : VectorRecord;
}.

Definition new_VectorQuery : VectorQuery :=
  mkVectorQuery "" 0 "" Jnull (mkVectorRecord 0 [] []).

Section WithTree.
(** The binary query tree of [query::GeneralQuery] is built and checked by
    [query::QueryUtil]; here it is only stored. *)
Variable BinaryQuery : Type.

Record Query : Type := mkQuery {
  collection_id : string;
  index_fields : gset string;
  vectors : gmap string VectorQuery;
  metric_types : gmap string string;
  partitions : list string;
  root : option BinaryQuery;
}.

Definition new_Query : Query := mkQuery "" ∅ ∅ ∅ [] None.

(** [std::unordered_map::insert]: an existing key keeps its value. *)
Definition map_insert_new {V} (k : string) (v : V) (m : gmap string V) : gmap string V :=
  match m !! k with
  | Some _ => m
  | None => <[k := v]> m
  end.

Definition insert_index_field (name : string) (q : Query) : Query :=
  mkQuery (collection_id q) ({[name]} ∪ index_fields q) (vectors q) (metric_types q)
    (partitions q) (root q).
Definition insert_metric_type (name mt : string) (q : Query) : Query :=
  mkQuery (collection_id q) (index_fields q) (vectors q)
    (map_insert_new name mt (metric_types q)) (partitions q) (root q).
Definition insert_vector (placeholder : string) (vq : VectorQuery) (q : Query) : Query :=
  mkQuery (collection_id q) (index_fields q)
    (map_insert_new placeholder vq (vectors q)) (metric_types q) (partitions q) (root q).

(** *** [CopyRowRecords] (with an empty id array): the arrays are created
    with their total sizes, zero-filled, and then the float data is copied
    when there is any, else the binary data. *)
Definition CopyRowRecords (grpc_records : list VectorRowRecord) : VectorRecord :=
  let float_array := if decide (0 < float_data_size grpc_records)
                     then concat (float_data <$> grpc_records)
                     else replicate (Z.to_nat (float_data_size grpc_records)) 0 in
  let binary_array := if decide (0 < float_data_size grpc_records)
                      then replicate (Z.to_nat (binary_data_size grpc_records)) x00
                      else if decide (0 < binary_data_size grpc_records)
                      then concat (binary_data <$> grpc_records)
                      else replicate (Z.to_nat (binary_data_size grpc_records)) x00 in
  mkVectorRecord (Z.of_nat (length grpc_records)) float_array binary_array.

(** *** The collaborators of the compiler *)

(** What [json::parse] does with a text. *)
Inductive parsed : Type :=
  | Parsed (j : json)
  | ParseError (what : string).

Definition parse_flow (p : parsed) : result json :=
  match p with
  | Parsed j => Val j
  | ParseError what => Exc what
  end.

(** A block with a local variable of type [T], initialised to [init]. *)
Definition with_local {S T A} (init : T) (m : M (S * T) A) : M S A :=
  λ s, let '(r, (s', _)) := m (s, init) in (r, s').

(** A macro that may return a status from the enclosing function. *)
Definition check {S} (c : option Status) : M S unit :=
  match c with
  | Some st => return_ st
  | None => ret ()
  end.

Section WithCollaborators.
(** [json::parse]; the macros [JSON_NULL_CHECK] and [JSON_OBJECT_CHECK] of
    [utils/Json.h] ([Some st]: the macro returns [st] from the enclosing
    function); [server::ValidateSearchTopk]. *)
Variable json_parse : string → parsed.
Variable JSON_NULL_CHECK : json → option Status.
Variable JSON_OBJECT_CHECK : json → option Status.
Variable ValidateSearchTopk : Z → Status.

(** *** [ProcessLeafQueryJson]: writes the boolean query and [field_name] *)
Definition ProcessLeafQueryJson (query_json : json)
    : BooleanQuery * string → outcome * (BooleanQuery * string) :=
  function_body (
    (if contains query_json "term" then
       json_obj ← eval (at_const query_json "term");
       check (JSON_NULL_CHECK json_obj);;
       check (JSON_OBJECT_CHECK json_obj);;
       key ← eval (begin_key json_obj);
       modify (λ '(query, _),
         (AddLeafQuery (mkLeafQuery (Some json_obj) None "") query, key))
     else if contains query_json "range" then
       json_obj ← eval (at_const query_json "range");
       check (JSON_NULL_CHECK json_obj);;
       check (JSON_OBJECT_CHECK json_obj);;
       key ← eval (begin_key json_obj);
       modify (λ '(query, _),
         (AddLeafQuery (mkLeafQuery None (Some json_obj) "") query, key))
     else if contains query_json "vector" then
       vector_json ← eval (at_const query_json "vector");
       check (JSON_NULL_CHECK vector_json);;
       placeholder ← eval (get_string vector_json);
       modify (λ '(query, field_name),
         (AddLeafQuery (mkLeafQuery None None placeholder) query, field_name))
     else
       return_ (mkStatus SERVER_INVALID_ARGUMENT "Leaf query get wrong key"));;
    ret Status_OK).

(** *** [ProcessBooleanQueryJson]: writes the boolean query and the query *)

Section Clauses.
(** The recursive call. *)
Variable ProcessBooleanQueryJson :
  json → BooleanQuery * Query → outcome * (BooleanQuery * Query).

(** The body of [for (auto& json : must_json)] (the same for
    [should_json] and for the array of [must_not]). *)
Definition process_clause (json : json) : M (BooleanQuery * Query) unit :=
  if contains json "must" || contains json "should" || contains json "must_not" then
    with_local new_BooleanQuery (
      STATUS_CHECK (λ '((boolean_query, query_ptr), must_query),
        let '(o, (must_query, query_ptr)) :=
          ProcessBooleanQueryJson json (must_query, query_ptr) in
        (o, ((boolean_query, query_ptr), must_query)));;
      modify (λ '((boolean_query, query_ptr), must_query),
        ((AddBooleanQuery must_query boolean_query, query_ptr), must_query)))
  else
    with_local "" (
      STATUS_CHECK (λ '((boolean_query, query_ptr), field_name),
        let '(o, (boolean_query, field_name)) :=
          ProcessLeafQueryJson json (boolean_query, field_name) in
        (o, ((boolean_query, query_ptr), field_name)));;
      modify (λ '((boolean_query, query_ptr), field_name),
        ((boolean_query,
          if decide (field_name = "") then query_ptr
          else insert_index_field field_name query_ptr), field_name))).

Fixpoint process_clauses (clauses : list json) : M (BooleanQuery * Query) unit :=
  match clauses with
  | [] => ret ()
  | json :: rest => process_clause json;; process_clauses rest
  end.

(** One of the branches [el.key() == "must"], ["should"], ["must_not"]:
    they differ in the occur they set and in the message. *)
Definition process_occur (o : Occur) (not_an_array : string) (value : json)
    : M (BooleanQuery * Query) unit :=
  modify (λ '(boolean_query, query_ptr), (SetOccur o boolean_query, query_ptr));;
  match value with
  | Jarray clauses => process_clauses clauses
  | _ => return_ (mkStatus SERVER_INVALID_DSL_PARAMETER not_an_array)
  end.

(** The body of [for (auto& el : query_json.items())]. *)
Definition process_item (el : string * json) : M (BooleanQuery * Query) unit :=
  let '(key, value) := el in
  if decide (key = "must") then
    process_occur MUST "Must json string is not an array" value
  else if decide (key = "should") then
    process_occur SHOULD "Should json string is not an array" value
  else if decide (key = "must_not") then
    process_occur MUST_NOT "Must_not json string is not an array" value
  else
    return_ (mkStatus SERVER_INVALID_DSL_PARAMETER
               "BoolQuery json string does not include bool query").

Fixpoint process_items (els : list (string * json)) : M (BooleanQuery * Query) unit :=
  match els with
  | [] => ret ()
  | el :: rest => process_item el;; process_items rest
  end.
End Clauses.

(** The items of a non-empty array have the keys ["0"], ["1"], ..., and a
    primitive has one item with the key [""]: for a value that is not an
    object the first iteration takes the last branch. *)
Fixpoint ProcessBooleanQueryJson (query_json : json)
    : BooleanQuery * Query → outcome * (BooleanQuery * Query) :=
  function_body (
    if empty query_json then
      return_ (mkStatus SERVER_INVALID_ARGUMENT "BoolQuery is null")
    else
      match query_json with
      | Jobject members =>
          process_items ProcessBooleanQueryJson members;;
          ret Status_OK
      | _ =>
          return_ (mkStatus SERVER_INVALID_DSL_PARAMETER
                     "BoolQuery json string does not include bool query")
      end).

(** *** [DeserializeDslToBoolQuery] *)

(** [milvus.grpc.VectorParam]. *)
Record VectorParam : Set := mkVectorParam {
  json_ : string;
  row_record : list VectorRowRecord;
}.

(** The body of [for (const auto& vector_param : vector_params)]; the
    local variable is [vector_query]. *)
Definition process_vector_param (vector_param : VectorParam)
    : M (BooleanQuery * Query) unit :=
  vector_json ← eval (parse_flow (json_parse (json_ vector_param)));
  placeholder ← eval (begin_key vector_json);
  it_value ← eval (begin_value vector_json);
  with_local new_VectorQuery (
    (if begin_not_end it_value then
       field_name ← eval (begin_key it_value);
       modify (λ '(s, vq), (s, mkVectorQuery field_name (vq_topk vq) (vq_metric_type vq)
                                  (vq_extra_params vq) (vq_query_vector vq)));;
       param_json ← eval (begin_value it_value);
       topk_json ← eval (at_ param_json "topk");
       topk ← eval (get_int64 topk_json);
       STATUS_CHECK (λ s, (Returned (ValidateSearchTopk topk), s));;
       modify (λ '(s, vq), (s, mkVectorQuery (vq_field_name vq) topk (vq_metric_type vq)
                                  (vq_extra_params vq) (vq_query_vector vq)));;
       (if contains param_json "metric_type" then
          metric_type_json ← eval (at_ param_json "metric_type");
          metric_type ← eval (get_string metric_type_json);
          modify (λ '((boolean_query, query_ptr), vq),
            ((boolean_query, insert_metric_type field_name metric_type query_ptr),
             mkVectorQuery (vq_field_name vq) (vq_topk vq) metric_type
               (vq_extra_params vq) (vq_query_vector vq)))
        else ret ());;
       params ← eval (at_ param_json "params");
       when (negb (empty params))
         (modify (λ '(s, vq), (s, mkVectorQuery (vq_field_name vq) (vq_topk vq)
                                    (vq_metric_type vq) params (vq_query_vector vq))));;
       modify (λ '((boolean_query, query_ptr), vq),
         ((boolean_query, insert_index_field field_name query_ptr), vq))
     else ret ());;
    modify (λ '((boolean_query, query_ptr), vq),
      let vq := mkVectorQuery (vq_field_name vq) (vq_topk vq) (vq_metric_type vq)
                  (vq_extra_params vq) (CopyRowRecords (row_record vector_param)) in
      ((boolean_query, insert_vector placeholder vq query_ptr), vq))).

Fixpoint process_vector_params (vector_params : list VectorParam)
    : M (BooleanQuery * Query) unit :=
  match vector_params with
  | [] => ret ()
  | vector_param :: rest =>
      process_vector_param vector_param;; process_vector_params rest
  end.

(** The [try] block. *)
Definition DeserializeDslToBoolQuery_try (vector_params : list VectorParam)
    (dsl_string : string) : M (BooleanQuery * Query) Status :=
  dsl_json ← eval (parse_flow (json_parse dsl_string));
  when (empty dsl_json)
    (return_ (mkStatus SERVER_INVALID_ARGUMENT "Query dsl is null"));;
  when (bool_decide (length vector_params ≠ 1%nat))
    (return_ (mkStatus SERVER_INVALID_DSL_PARAMETER
                "There should only be one vector query"));;
  process_vector_params vector_params;;
  (if contains dsl_json "bool" then
     boolean_query_json ← eval (at_ dsl_json "bool");
     check (JSON_NULL_CHECK boolean_query_json);;
     STATUS_CHECK (ProcessBooleanQueryJson boolean_query_json)
   else
     return_ (mkStatus SERVER_INVALID_DSL_PARAMETER "DSL does not include bool query"));;
  ret Status_OK.

(** [DeserializeDslToBoolQuery]: the [try] block, and the handler
    [catch (std::exception& e) { return Status(SERVER_INVALID_DSL_PARAMETER,
    e.what()); }]. *)
Definition DeserializeDslToBoolQuery (vector_params : list VectorParam)
    (dsl_string : string)
    : BooleanQuery * Query → outcome * (BooleanQuery * Query) :=
  function_body (
    try_catch (DeserializeDslToBoolQuery_try vector_params dsl_string)
      (λ what, return_ (mkStatus SERVER_INVALID_DSL_PARAMETER what))).

End WithCollaborators.
End WithTree.

Arguments Query : clear implicits.
Arguments new_Query {BinaryQuery}.

(** *** Collaborators for the examples *)

(** The two macros, read by their names: the first refuses an empty value,
    the second a value that is not an object. *)
Definition example_JSON_NULL_CHECK (j : json) : option Status :=
  if empty j then Some (mkStatus SERVER_INVALID_ARGUMENT "Json is null") else None.
Definition example_JSON_OBJECT_CHECK (j : json) : option Status :=
  if is_object j then None
  else Some (mkStatus SERVER_INVALID_ARGUMENT "Json is not a json object").

Definition example_ValidateSearchTopk (k : Z) : Status :=
  if decide (0 < k ≤ 16384) then Status_OK
  else mkStatus SERVER_INVALID_TOPK "Invalid topk".

(** Four texts (written with ['] for the double quote) and their values;
    a parser for the examples knows these and rejects every other text. *)
Definition term_dsl : string :=
  "{'bool':{'must':[{'term':{'age':{'values':[1,2,3]}}}]}}".
Definition search_dsl : string :=
  "{'bool':{'must':[{'term':{'age':{'values':[1,2,3]}}},{'vector':'placeholder_1'}]}}".
Definition no_bool_dsl : string := "{'must':[]}".
Definition vector_param_json : string :=
  "{'placeholder_1':{'vec':{'topk':10,'metric_type':'L2','params':{'nprobe':8}}}}".

Definition age_term : json :=
  Jobject [("term", Jobject [("age", Jobject [("values",
     Jarray [Jnumber_integer 1; Jnumber_integer 2; Jnumber_integer 3])])])].

Definition parse_error_101 : string :=
  "[json.exception.parse_error.101] parse error at line 1, column 1".

Definition example_json_parse (text : string) : parsed :=
  if decide (text = term_dsl) then
    Parsed (Jobject [("bool", Jobject [("must", Jarray [age_term])])])
  else if decide (text = search_dsl) then
    Parsed (Jobject [("bool", Jobject [("must",
      Jarray [age_term; Jobject [("vector", Jstring "placeholder_1")]])])])
  else if decide (text = no_bool_dsl) then
    Parsed (Jobject [("must", Jarray [])])
  else if decide (text = vector_param_json) then
    Parsed (Jobject [("placeholder_1", Jobject [("vec", Jobject
      [("metric_type", Jstring "L2");
       ("params", Jobject [("nprobe", Jnumber_integer 8)]);
       ("topk", Jnumber_integer 10)])])])
  else ParseError parse_error_101.

(** One query vector of two floats. *)
Definition example_vector_param : VectorParam :=
  mkVectorParam vector_param_json [mkVectorRowRecord [0; 0] []].

End Compiler.

(* ===================================================================== *)
(** ** The search handler                                                 *)
(* ===================================================================== *)

Module SearchHandler.
Import Json Compiler.

Definition EXTRA_PARAM_KEY : string := "params".

(** The status [Search] builds when [ValidateBinaryQuery] fails. *)
Definition wrong_binary_query : Status :=
  mkStatus SERVER_INVALID_BINARY_QUERY "Generate wrong binary query tree".

(** [milvus.grpc.SearchParam]. *)
Record SearchParam : Set := mkSearchParam {
  collection_name : string;
  partition_tag_array : list string;
  vector_param : list VectorParam;
  dsl : string;
  extra_params : list (string * string);   (* [KeyValuePair]s *)
}.

Section WithEngine.
(** The engine's result types, which this handler only passes on. *)
Variable BinaryQuery DataChunk FieldElementMappings FieldValues : Type.

(** [milvus.grpc.Entities] and [milvus.grpc.QueryResult]: each has a status
    slot of its own. *)
Record Entities : Type := mkEntities {
  entities_status : option Status;
  ids : list Z;
  valid_row : list bool;
  entities_fields : FieldValues;
}.

Record QueryResult : Type := mkQueryResult {
  status : option Status;
  entities : Entities;
  row_num : Z;
  distances : list float32;
}.

(** [engine::QueryResult]. *)
Record engine_QueryResult : Type := mk_engine_QueryResult {
  row_num_ : Z;
  result_ids_ : list Z;
  result_distances_ : list float32;
  data_chunk_ : DataChunk;
}.

(** The collaborators: the parser and the macros of the compiler, the
    engine request handler ([GetCollectionInfo], [Search], which returns its
    status with the field mappings and the result it fills in),
    [query::QueryUtil], and the egress codec [CopyDataChunkToEntity] of
    this file, which none of the properties below looks into. *)
Variable ConnectionContext : Type.
Variable json_parse : string → parsed.
Variable JSON_NULL_CHECK : json → option Status.
Variable JSON_OBJECT_CHECK : json → option Status.
Variable ValidateSearchTopk : Z → Status.
Variable GetCollectionInfo : ConnectionContext → string → Status.
Variable ValidateBooleanQuery : BooleanQuery → Status.
Variable GenBinaryQuery : BooleanQuery → BinaryQuery.
Variable ValidateBinaryQuery : BinaryQuery → bool.
Variable req_handler_Search :
  ConnectionContext → Query BinaryQuery → json →
  Status * FieldElementMappings * engine_QueryResult.
Variable CopyDataChunkToEntity :
  DataChunk → FieldElementMappings → Z → Entities → Entities.

(** [SET_RESPONSE(response->mutable_status(), status, context)]. *)
Definition set_status (st : Status) (response : QueryResult) : QueryResult :=
  mkQueryResult (SET_RESPONSE st) (entities response) (row_num response)
    (distances response).

(** [SET_RESPONSE(grpc_entity->mutable_status(), status, context)], where
    [grpc_entity = response->mutable_entities()]. *)
Definition set_entities_status (st : Status) (response : QueryResult) : QueryResult :=
  let e := entities response in
  mkQueryResult (status response)
    (mkEntities (SET_RESPONSE st) (ids e) (valid_row e) (entities_fields e))
    (row_num response) (distances response).

(** The loop over [extra_params]: the last pair with the key ["params"] is
    parsed. *)
Fixpoint parse_extra_params (extra : list (string * string)) (json_params : json)
    : result json :=
  match extra with
  | [] => Val json_params
  | (key, value) :: rest =>
      if decide (key = EXTRA_PARAM_KEY) then
        match json_parse value with
        | Parsed j => parse_extra_params rest j
        | ParseError what => Exc what
        end
      else parse_extra_params rest json_params
  end.

(** The loop over [result_ids_]: the number of ids other than -1, and the
    valid-row flags. *)
Fixpoint count_valid (result_ids : list Z) : Z * list bool :=
  match result_ids with
  | [] => (0, [])
  | result_id :: rest =>
      let '(n, flags) := count_valid rest in
      if decide (result_id = -1) then (n, false :: flags) else (n + 1, true :: flags)
  end.

(** [Search]: what the call does (it returns [::grpc::Status::OK] with the
    response filled in, or an exception leaves it), and the queries with
    which the engine's [Search] was invoked. *)
Definition Search (context : ConnectionContext) (request : SearchParam)
    (response : QueryResult)
    : flow QueryResult * list (Query BinaryQuery * json) :=
  let status := GetCollectionInfo context (collection_name request) in
  if negb (ok status) then (Next (set_status status response), []) else
  let boolean_query := new_BooleanQuery in
  let query_ptr :=
    mkQuery BinaryQuery (collection_name request) ∅ ∅ ∅ [] None in
  match DeserializeDslToBoolQuery BinaryQuery json_parse JSON_NULL_CHECK JSON_OBJECT_CHECK
          ValidateSearchTopk (vector_param request) (dsl request)
          (boolean_query, query_ptr) with
  | (UndefinedBehaviour, _) => (Undefined, [])
  | (Thrown what, _) => (Throw what, [])
  | (Returned status, (boolean_query, query_ptr)) =>
      if negb (ok status) then (Next (set_status status response), []) else
      let status := ValidateBooleanQuery boolean_query in
      if negb (ok status) then (Next (set_status status response), []) else
      let bin := GenBinaryQuery boolean_query in
      let query_ptr :=
        mkQuery BinaryQuery (collection_id _ query_ptr) (index_fields _ query_ptr)
          (vectors _ query_ptr) (metric_types _ query_ptr) (partitions _ query_ptr)
          (Some bin) in
      if negb (ValidateBinaryQuery bin) then
        let status := wrong_binary_query in
        (Next (set_entities_status status response), [])
      else
        let query_ptr :=
          mkQuery BinaryQuery (collection_id _ query_ptr) (index_fields _ query_ptr)
            (vectors _ query_ptr) (metric_types _ query_ptr)
            (partition_tag_array request) (root _ query_ptr) in
        match parse_extra_params (extra_params request) Jnull with
        | Val json_params =>
            let '(status, field_mappings, result) :=
              req_handler_Search context query_ptr json_params in
            let invoked := [(query_ptr, json_params)] in
            if negb (ok status) then (Next (set_status status response), invoked) else
            let '(id_size, flags) := count_valid (result_ids_ result) in
            let e := entities response in
            let grpc_entity :=
              CopyDataChunkToEntity (data_chunk_ result) field_mappings id_size
                (mkEntities (entities_status e) (ids e) (valid_row e ++ flags)
                   (entities_fields e)) in
            let grpc_entity :=
              mkEntities (entities_status grpc_entity) (result_ids_ result)
                (valid_row grpc_entity) (entities_fields grpc_entity) in
            (Next (mkQueryResult (SET_RESPONSE status) grpc_entity (row_num_ result)
                     (result_distances_ result)), invoked)
        | Exc what => (Throw what, [])
        | Undef => (Undefined, [])
        end
  end.
End WithEngine.

(** *** Collaborators for the examples: an engine that knows every
    collection and finds nothing, a boolean-query check that accepts, and a
    conversion whose result fails the check of the binary tree. *)
Definition example_GetCollectionInfo (_ : unit) (_ : string) : Status := Status_OK.
Definition example_ValidateBooleanQuery (_ : BooleanQuery) : Status := Status_OK.
Definition example_GenBinaryQuery (q : BooleanQuery) : BooleanQuery := q.
Definition example_ValidateBinaryQuery (_ : BooleanQuery) : bool := false.
Definition example_req_handler_Search (_ : unit) (_ : Query BooleanQuery) (_ : json)
    : Status * unit * engine_QueryResult unit :=
  (Status_OK, (), mk_engine_QueryResult unit 0 [] [] ()).
Definition example_CopyDataChunkToEntity (_ _ : unit) (_ : Z) (e : Entities unit)
    : Entities unit := e.

Definition example_request : SearchParam :=
  mkSearchParam "collection" [] [example_vector_param] search_dsl [].

Definition new_QueryResult : QueryResult unit :=
  mkQueryResult unit None (mkEntities unit None [] [] ()) 0 [].

End SearchHandler.

(* ===================================================================== *)
(** ** Result egress: column bytes to wire rows                           *)
(* ===================================================================== *)

Module Egress.
Import Codec.

(** The field types [CopyDataChunkToEntity] tells apart; any other
    enumerator of [engine::DataType] is [other_DataType] with its number. *)
Inductive DataType : Set :=
  | INT32 | INT64 | FLOAT | DOUBLE | VECTOR_BINARY | VECTOR_FLOAT
  | other_DataType (enumerator : Z).

#[global] Instance DataType_eq_dec : EqDecision DataType.
Proof. solve_decision. Defined.

(** *** Bytes and fixed-width values (little-endian, as [memcpy] on the
    host lays them out) *)

Definition byte_to_Z (b : byte) : Z := Z.of_N (Byte.to_N b).
Definition byte_of_Z (z : Z) : byte := default x00 (Byte.of_N (Z.to_N z)).

(** The unsigned value of a byte sequence. *)
Fixpoint le_decode (bs : list byte) : Z :=
  match bs with
  | [] => 0
  | b :: rest => byte_to_Z b + 256 * le_decode rest
  end.

(** The [n] low bytes of [z] (two's complement for a negative [z]). *)
Fixpoint le_encode (n : nat) (z : Z) : list byte :=
  match n with
  | O => []
  | S n' => byte_of_Z (z mod 256) :: le_encode n' (z / 256)
  end.

(** An unsigned [8 * n]-bit pattern read as a signed integer. *)
Definition to_signed (n : nat) (u : Z) : Z :=
  if decide (u < 2 ^ (8 * Z.of_nat n - 1)) then u else u - 2 ^ (8 * Z.of_nat n).

(** [memcpy(dst, data + offset, len)]: the bytes copied. *)
Definition bytes_at (data : list byte) (offset len : nat) : list byte :=
  take len (drop offset data).

(** [single_size = (id_size != 0) ? data.size() / id_size : 0], the
    division being unsigned. *)
Definition single_size_of (data : list byte) (id_size : Z) : Z :=
  if decide (id_size ≠ 0) then size_of data / uint64_wrap id_size else 0.

(** The indices of [for (int i = 0; i < id_size; i++)]. *)
Definition row_indices (id_size : Z) : list nat := seq 0 (Z.to_nat id_size).

(** The loops of the attribute types: each iteration copies [single_size]
    bytes into one variable of [width] bytes and appends its value.  With
    another [single_size] the copy overruns the variable or leaves it partly
    unset. *)
Definition copy_scalars (width : nat) (value : list byte → Z) (data : list byte)
    (id_size : Z) : result (list Z) :=
  if decide (0 < id_size) then
    if decide (single_size_of data id_size = Z.of_nat width) then
      Val ((λ i, value (bytes_at data (i * width) width)) <$> row_indices id_size)
    else Undef
  else Val [].

(** The loop of [VECTOR_BINARY]: one row record per id. *)
Definition copy_binary_rows (data : list byte) (id_size : Z) : list VectorRowRecord :=
  let single_size := Z.to_nat (single_size_of data id_size) in
  (λ i, mkVectorRowRecord [] (bytes_at data (i * single_size) single_size))
    <$> row_indices id_size.

(** The floats of one row of [vector_size] floats. *)
Definition row_floats (row : list byte) (vector_size : nat) : list float32 :=
  (λ j, le_decode (bytes_at row (j * 4) 4)) <$> seq 0 vector_size.

(** The loop of [VECTOR_FLOAT]: [vector_size = single_size / sizeof(float)],
    and each iteration copies [single_size] bytes into a buffer of
    [vector_size] floats, which it overruns when [single_size] is not a
    multiple of four. *)
Definition copy_float_rows (data : list byte) (id_size : Z)
    : result (list VectorRowRecord) :=
  let single_size := Z.to_nat (single_size_of data id_size) in
  let vector_size := (single_size / 4)%nat in
  if decide (0 < id_size) then
    if decide (single_size_of data id_size mod 4 = 0) then
      Val ((λ i, mkVectorRowRecord
                   (row_floats (bytes_at data (i * single_size) single_size) vector_size) [])
             <$> row_indices id_size)
    else Undef
  else Val [].

Definition empty_AttrRecord : AttrRecord := mkAttrRecord [] [] [] [].

(** A [milvus.grpc.FieldValue] of the response. *)
Record EntityField : Set := mkEntityField {
  ef_field_name : string;
  ef_type : DataType;
  ef_attr_record : AttrRecord;
  ef_vector_record : list VectorRowRecord;
}.

(** The loops count with an [int i] up to the 64-bit [id_size]: [i++]
    overflows when [id_size] is above [INT_MAX]. *)
Definition INT_MAX : Z := 2 ^ 31 - 1.

Definition counted_by_int {A} (id_size : Z) (r : result A) : result A :=
  if decide (id_size ≤ INT_MAX) then r else Undef.

(** The dispatch on the type of a field that has data. *)
Definition copy_field (name : string) (type : DataType) (data : list byte) (id_size : Z)
    : result EntityField :=
  match type with
  | VECTOR_BINARY =>
      counted_by_int id_size
        (Val (mkEntityField name type empty_AttrRecord (copy_binary_rows data id_size)))
  | VECTOR_FLOAT =>
      counted_by_int id_size
        match copy_float_rows data id_size with
        | Val rows => Val (mkEntityField name type empty_AttrRecord rows)
        | Exc what => Exc what
        | Undef => Undef
        end
  | INT32 =>
      counted_by_int id_size
        match copy_scalars 4 (λ bs, to_signed 4 (le_decode bs)) data id_size with
        | Val vs => Val (mkEntityField name type (mkAttrRecord vs [] [] []) [])
        | Exc what => Exc what
        | Undef => Undef
        end
  | INT64 =>
      counted_by_int id_size
        match copy_scalars 8 (λ bs, to_signed 8 (le_decode bs)) data id_size with
        | Val vs => Val (mkEntityField name type (mkAttrRecord [] vs [] []) [])
        | Exc what => Exc what
        | Undef => Undef
        end
  | DOUBLE =>
      counted_by_int id_size
        match copy_scalars 8 le_decode data id_size with
        | Val vs => Val (mkEntityField name type (mkAttrRecord [] [] [] vs) [])
        | Exc what => Exc what
        | Undef => Undef
        end
  | FLOAT =>
      counted_by_int id_size
        match copy_scalars 4 le_decode data id_size with
        | Val vs => Val (mkEntityField name type (mkAttrRecord [] [] vs []) [])
        | Exc what => Exc what
        | Undef => Undef
        end
  | other_DataType _ => Val (mkEntityField name type empty_AttrRecord [])
  end.

(** The loop over [field_mappings], given as the names and types of the
    fields in iteration order; the fields of the response grow at the end.
    [chunk] is [fixed_fields_] of the [engine::DataChunk]: it maps a field
    name to its column bytes ([None]: a null [BinaryDataPtr]).  The lookup
    [fixed_fields_[name]] adds a null entry for a missing name, which the
    loop skips like a missing one. *)
Fixpoint copy_fields (chunk : gmap string (option (list byte)))
    (field_mappings : list (string * DataType)) (id_size : Z)
    (fields : list EntityField) : result (list EntityField) :=
  match field_mappings with
  | [] => Val fields
  | (name, type) :: rest =>
      match chunk !! name with
      | Some (Some (b :: data)) =>
          match copy_field name type (b :: data) id_size with
          | Val field => copy_fields chunk rest id_size (fields ++ [field])
          | Exc what => Exc what
          | Undef => Undef
          end
      | _ => copy_fields chunk rest id_size fields
      end
  end.

(** [CopyDataChunkToEntity]; [None] is a null [data_chunk]. *)
Definition CopyDataChunkToEntity (data_chunk : option (gmap string (option (list byte))))
    (field_mappings : list (string * DataType)) (id_size : Z)
    (fields : list EntityField) : result (list EntityField) :=
  match data_chunk with
  | None => Val fields
  | Some chunk => copy_fields chunk field_mappings id_size fields
  end.

(** The width of a scalar type and the array of an attribute record that
    holds its values. *)
Definition scalar_width (type : DataType) : option nat :=
  match type with
  | INT32 | FLOAT => Some 4%nat
  | INT64 | DOUBLE => Some 8%nat
  | _ => None
  end.

Definition scalar_values (type : DataType) (attr : AttrRecord) : list Z :=
  match type with
  | INT32 => int32_value attr
  | INT64 => int64_value attr
  | FLOAT => float_value attr
  | DOUBLE => double_value attr
  | _ => []
  end.

(** The values of a scalar type: signed integers, and the bit patterns of
    floats and doubles. *)
Definition scalar_in_range (type : DataType) (v : Z) : Prop :=
  match type with
  | INT32 => - 2 ^ 31 ≤ v < 2 ^ 31
  | INT64 => - 2 ^ 63 ≤ v < 2 ^ 63
  | FLOAT => 0 ≤ v < 2 ^ 32
  | DOUBLE => 0 ≤ v < 2 ^ 64
  | _ => False
  end.

(** Whether the chunk has a non-null, non-empty column for a field. *)
Definition has_data (chunk : gmap string (option (list byte))) (name : string) : bool :=
  match chunk !! name with
  | Some (Some (_ :: _)) => true
  | _ => false
  end.

(** The bytes of a row of floats. *)
Definition float_row_bytes (record : VectorRowRecord) : list byte :=
  concat (le_encode 4 <$> float_data record).

End Egress.

(* ===================================================================== *)
(** ** The calls that hold a part of the insert budget                    *)
(* ===================================================================== *)

Module Drain.
Import Admission.

(** The number of calls between [WaitToInsert] and [FinishInsert]. *)
Fixpoint in_flight_count (cs : list insert_call) : nat :=
  match cs with
  | [] => 0
  | c :: cs' => (if decide (call_phase c = InFlight) then 1 else 0) + in_flight_count cs'
  end.

(** Budget 10: a call of size 4 is admitted, a call of size 7 waits. *)
Definition one_waiting : system :=
  mkSystem (mkGate 10 6) [mkCall 4 InFlight; mkCall 7 Waiting].

End Drain.

(* ===================================================================== *)
(** ** What the filter compiler may change of a query                     *)
(* ===================================================================== *)

Module QueryFrame.
Import Compiler.

(** The query [q'] is [q] but for index fields that were added. *)
Definition index_fields_added {BinaryQuery} (q q' : Query BinaryQuery) : Prop :=
  collection_id _ q' = collection_id _ q ∧
  vectors _ q' = vectors _ q ∧
  metric_types _ q' = metric_types _ q ∧
  partitions _ q' = partitions _ q ∧
  root _ q' = root _ q ∧
  index_fields _ q ⊆ index_fields _ q'.

End QueryFrame.

(* ===================================================================== *)
(** ** An engine that finds entities, for the examples                    *)
(* ===================================================================== *)

Module SearchExamples.
Import Json Compiler SearchHandler.

(** A check of the binary tree that accepts, and an engine that finds the
    entities 3 and 5, with one empty slot between them. *)
Definition accepting_ValidateBinaryQuery (_ : BooleanQuery) : bool := true.
Definition finding_req_handler_Search (_ : unit) (_ : Query BooleanQuery) (_ : json)
    : Status * unit * engine_QueryResult unit :=
  (Status_OK, (), mk_engine_QueryResult unit 1 [3; -1; 5] [1; 0; 2] ()).

(** A request whose extra parameters do not parse. *)
Definition bad_params_request : SearchParam :=
  mkSearchParam "collection" [] [example_vector_param] search_dsl [("params", "{")].

End SearchExamples.

(* ===================================================================== *)
(** ** Collection mappings                                                *)
(* ===================================================================== *)

Module Collection.
Import Json Compiler.

Definition MAXIMUM_FIELD_NUM : Z := 64.

(** [milvus.grpc.FieldParam] and [milvus.grpc.Mapping]; a field type is
    the number of its enumerator, which the casts between the wire enum and
    the engine's keep. *)
Record FieldParam : Set := mkFieldParam {
  name : string;
  type : Z;
  index_params : list (string * string);
  field_extra_params : list (string * string);
}.

Record Mapping : Set := mkMapping {
  collection_name : string;
  fields : list FieldParam;
  extra_params : list (string * string);
}.

(** [FieldSchema] as this file uses it: the type, and two JSON values. *)
Record FieldSchema : Type := mkFieldSchema {
  field_type_ : Z;
  field_params_ : json;
  index_params_ : json;
}.

(** [j[key] = value] on the members of an object, which the library keeps
    sorted by key. *)
Fixpoint set_member (key : string) (value : json) (members : list (string * json))
    : list (string * json) :=
  match members with
  | [] => [(key, value)]
  | (k, v) :: rest =>
      if decide (k = key) then (key, value) :: rest
      else if String.ltb key k then (key, value) :: (k, v) :: rest
      else (k, v) :: set_member key value rest
  end.

(** The loop [index_params_[key] = value] from a null [index_params_]: the
    first assignment makes it an object. *)
Fixpoint set_index_params (params : list (string * string)) (index_params_ : json)
    : json :=
  match params with
  | [] => index_params_
  | (key, value) :: rest =>
      set_index_params rest
        match index_params_ with
        | Jobject members => Jobject (set_member key (Jstring value) members)
        | _ => Jobject [(key, Jstring value)]
        end
  end.

Section WithEngine.
Variable ConnectionContext : Type.
Variable json_parse : string → parsed.
Variable req_handler_CreateCollection :
  ConnectionContext → string → gmap string FieldSchema → json → Status.

(** "Currently only one extra_param": the first, when its value is not
    empty. *)
Definition parse_field_params (field : FieldParam) : result json :=
  match field_extra_params field with
  | [] => Val Jnull
  | (_, value) :: _ =>
      if decide (value = "") then Val Jnull else parse_flow (json_parse value)
  end.

Definition duplicate_field_name : Status :=
  mkStatus SERVER_INVALID_FIELD_NAME "Collection mapping has duplicate field name".
Definition too_many_fields : Status :=
  mkStatus SERVER_INVALID_FIELD_NUM "Maximum field's number should be limited to 64".

(** The loop over the fields of the request: the status that ends
    [CreateCollection], or the schemas by field name. *)
Fixpoint add_fields (request_fields : list FieldParam) (fields : gmap string FieldSchema)
    : result (Status + gmap string FieldSchema) :=
  match request_fields with
  | [] => Val (inr fields)
  | field :: rest =>
      if decide (is_Some (fields !! name field)) then Val (inl duplicate_field_name)
      else
        match parse_field_params field with
        | Val field_params =>
            let field_schema :=
              mkFieldSchema (type field) field_params
                (set_index_params (index_params field) Jnull) in
            add_fields rest (<[name field := field_schema]> fields)
        | Exc what => Exc what
        | Undef => Undef
        end
  end.

(** [CreateCollection]: the status written to the response (or the
    exception that leaves the call), and the arguments with which the
    engine's [CreateCollection] was invoked. *)
Definition CreateCollection (context : ConnectionContext) (request : Mapping)
    : flow (option Status) * list (string * gmap string FieldSchema * json) :=
  if decide (MAXIMUM_FIELD_NUM < Codec.size_of (fields request)) then
    (Next (SET_RESPONSE too_many_fields), [])
  else
    match add_fields (fields request) ∅ with
    | Val (inl status) => (Next (SET_RESPONSE status), [])
    | Val (inr fields) =>
        match SearchHandler.parse_extra_params json_parse (extra_params request) Jnull with
        | Val json_params =>
            let status :=
              req_handler_CreateCollection context (collection_name request) fields
                json_params in
            (Next (SET_RESPONSE status),
             [(collection_name request, fields, json_params)])
        | Exc what => (Throw what, [])
        | Undef => (Undefined, [])
        end
    | Exc what => (Throw what, [])
    | Undef => (Undefined, [])
    end.
End WithEngine.

(** An engine that creates every collection, and a mapping of an id field
    and a vector field. *)
Definition creating_CreateCollection (_ : unit) (_ : string)
    (_ : gmap string FieldSchema) (_ : json) : Status := Status_OK.

Definition example_mapping : Mapping :=
  mkMapping "collection"
    [mkFieldParam "age" 4 [] [];
     mkFieldParam "vec" 101 [("index_type", "IVF_FLAT"); ("metric_type", "L2")] []] [].

Definition duplicate_mapping : Mapping :=
  mkMapping "collection" [mkFieldParam "age" 4 [] []; mkFieldParam "age" 5 [] []] [].

End Collection.

(* ===================================================================== *)
(** ** Entities by id                                                     *)
(* ===================================================================== *)

Module EntityHandler.
Import Codec Egress.

(** [milvus.grpc.EntityIdentity] and [milvus.grpc.Entities]. *)
Record EntityIdentity : Set := mkEntityIdentity {
  collection_name : string;
  id_array : list Z;
  field_names : list string;
}.

Record Entities : Set := mkEntities {
  status : option Status;
  ids : list Z;
  valid_row : list bool;
  fields : list EntityField;
}.

(** What the engine's [GetEntityByID] leaves in its arguments. *)
Record engine_reply : Type := mk_engine_reply {
  reply_status : Status;
  vector_ids : list Z;
  reply_valid_row : list bool;
  field_mappings : list (string * DataType);
  data_chunk : option (gmap string (option (list byte)));
}.

Section WithEngine.
Variable ConnectionContext : Type.
Variable req_handler_GetEntityByID :
  ConnectionContext → string → list Z → list string → engine_reply.

(** The loop [if (it) valid_size++]. *)
Fixpoint valid_size (valid_row : list bool) : Z :=
  match valid_row with
  | [] => 0
  | it :: rest => (if it then 1 else 0) + valid_size rest
  end.

(** [GetEntityByID]: the response after the call. *)
Definition GetEntityByID (context : ConnectionContext) (request : EntityIdentity)
    (response : Entities) : result Entities :=
  let reply :=
    req_handler_GetEntityByID context (collection_name request) (id_array request)
      (field_names request) in
  match CopyDataChunkToEntity (data_chunk reply) (field_mappings reply)
          (valid_size (reply_valid_row reply)) (fields response) with
  | Val fields =>
      Val (mkEntities (SET_RESPONSE (reply_status reply))
             (ids response ++ vector_ids reply)
             (valid_row response ++ reply_valid_row reply) fields)
  | Exc what => Exc what
  | Undef => Undef
  end.
End WithEngine.

(** An engine that knows the ages of the entities 1 and 3. *)
Definition example_GetEntityByID (_ : unit) (_ : string) (ids : list Z)
    (_ : list string) : engine_reply :=
  mk_engine_reply Status_OK ids ((λ id, bool_decide (id = 1 ∨ id = 3)) <$> ids)
    [("age", INT32)]
    (Some {["age" := Some [x14; x00; x00; x00; x28; x00; x00; x00]]}).

End EntityHandler.

(* ===================================================================== *)
(** ** The description of a collection                                    *)
(* ===================================================================== *)

Module Describe.
Import Json Compiler.
Export Collection(FieldParam, mkFieldParam, name, type, index_params, field_extra_params,
                  FieldSchema, mkFieldSchema, field_type_, field_params_, index_params_).

(** The response, a [milvus.grpc.Mapping] with its status slot. *)
Record Mapping : Set := mkMapping {
  status : option Status;
  collection_name : string;
  fields : list FieldParam;
  extra_params : list (string * string);
}.

(** [milvus::server::CollectionSchema] as this file reads it; [fields_]
    lists the entries of the map in the order the loop meets them. *)
Record CollectionSchema : Type := mkCollectionSchema {
  fields_ : list (string * FieldSchema);
  extra_params_ : json;
}.

(** [j.items()]: the members of an object, the elements of an array under
    their indices, nothing for null, and a primitive under the empty key. *)
Fixpoint indexed (i : nat) (elements : list json) : list (string * json) :=
  match elements with
  | [] => []
  | element :: rest => (pretty i, element) :: indexed (S i) rest
  end.

Definition items (j : json) : list (string * json) :=
  match j with
  | Jnull => []
  | Jobject members => members
  | Jarray elements => indexed 0 elements
  | _ => [("", j)]
  end.

Definition set_status (st : Status) (response : Mapping) : Mapping :=
  mkMapping (SET_RESPONSE st) (collection_name response) (fields response)
    (extra_params response).
Definition set_collection_name (name : string) (response : Mapping) : Mapping :=
  mkMapping (status response) name (fields response) (extra_params response).
Definition add_fields (field : FieldParam) (response : Mapping) : Mapping :=
  mkMapping (status response) (collection_name response) (fields response ++ [field])
    (extra_params response).
Definition add_extra_params (kv : string * string) (response : Mapping) : Mapping :=
  mkMapping (status response) (collection_name response) (fields response)
    (extra_params response ++ [kv]).

(** A write through the pointer that [add_fields] has returned: to the
    last field of the response. *)
Definition update_field (f : FieldParam → FieldParam) (response : Mapping) : Mapping :=
  mkMapping (status response) (collection_name response)
    match reverse (fields response) with
    | [] => []
    | field :: before => reverse before ++ [f field]
    end
    (extra_params response).

(** A write through the pointer that [add_extra_params] or
    [add_index_params] has returned: the value of the last pair. *)
Definition set_value (value : string) (kvs : list (string * string))
    : list (string * string) :=
  match reverse kvs with
  | [] => []
  | (key, _) :: before => reverse before ++ [(key, value)]
  end.

Definition parsing_json_string_wrong : Status :=
  mkStatus SERVER_UNEXPECTED_ERROR "Parsing json string wrong".

Section WithEngine.
(** The engine's [GetCollectionInfo] with the schema it fills in,
    [engine::FIELD_UID], and [json::dump], which returns the text or throws
    (on a string that is not UTF-8). *)
Variable ConnectionContext : Type.
Variable FIELD_UID : string.
Variable GetCollectionInfo : ConnectionContext → string → Status * CollectionSchema.
Variable dump : json → result string.

(** The body of the loop over [index_params_.items()]. *)
Definition describe_index_param (item : string * json) : M Mapping unit :=
  modify (update_field (λ field,
    mkFieldParam (name field) (type field) (index_params field ++ [(item.1, "")])
      (field_extra_params field)));;
  value ← eval (if is_object item.2 then dump item.2 else get_string item.2);
  modify (update_field (λ field,
    mkFieldParam (name field) (type field) (set_value value (index_params field))
      (field_extra_params field))).

Fixpoint describe_index_params (items : list (string * json)) : M Mapping unit :=
  match items with
  | [] => ret ()
  | item :: rest => describe_index_param item;; describe_index_params rest
  end.

(** The body of the loop over [collection_schema.fields_]. *)
Definition describe_field (field_kv : string * FieldSchema) : M Mapping unit :=
  if decide (field_kv.1 = FIELD_UID) then ret () else
  modify (add_fields (mkFieldParam field_kv.1 (field_type_ field_kv.2) []
                        [(SearchHandler.EXTRA_PARAM_KEY, "")]));;
  value ← eval (dump (field_params_ field_kv.2));
  modify (update_field (λ field,
    mkFieldParam (name field) (type field) (index_params field)
      (set_value value (field_extra_params field))));;
  describe_index_params (items (index_params_ field_kv.2)).

Fixpoint describe_fields (fields_ : list (string * FieldSchema)) : M Mapping unit :=
  match fields_ with
  | [] => ret ()
  | field_kv :: rest => describe_field field_kv;; describe_fields rest
  end.

(** The [try] block; [return_ Status_OK] stands for the
    [return ::grpc::Status::OK] in it. *)
Definition DescribeCollection_try (context : ConnectionContext) (request : string)
    : M Mapping unit :=
  let '(st, collection_schema) := GetCollectionInfo context request in
  when (negb (ok st)) (modify (set_status st);; return_ Status_OK);;
  modify (set_collection_name request);;
  describe_fields (fields_ collection_schema);;
  modify (add_extra_params (SearchHandler.EXTRA_PARAM_KEY, ""));;
  value ← eval (dump (extra_params_ collection_schema));
  modify (λ response,
    mkMapping (status response) (collection_name response) (fields response)
      (set_value value (extra_params response)));;
  modify (set_status st).

(** [DescribeCollection] for the collection name of the request: the
    response after the call, which always returns [::grpc::Status::OK], or
    the exception that leaves it. *)
Definition DescribeCollection (context : ConnectionContext) (request : string)
    (response : Mapping) : result Mapping :=
  match try_catch (DescribeCollection_try context request)
          (λ _, modify (set_status parsing_json_string_wrong)) response with
  | (Next _, response) | (Return _, response) => Val response
  | (Throw what, _) => Exc what
  | (Undefined, _) => Undef
  end.
End WithEngine.

(** A text for the JSON values of the examples: strings and null only. *)
Definition example_dump (j : json) : result string :=
  match j with
  | Jnull => Val "null"
  | Jstring s => Val ("'" +:+ s +:+ "'")
  | _ => Exc "[json.exception.type_error.316] invalid UTF-8 byte"
  end.

(** A schema with the id field, a scalar field, and a vector field one of
    whose index parameters is a number. *)
Definition example_schema : CollectionSchema :=
  mkCollectionSchema
    [("_id", mkFieldSchema 5 Jnull Jnull);
     ("age", mkFieldSchema 4 Jnull Jnull);
     ("vec", mkFieldSchema 101 Jnull
               (Jobject [("index_type", Jstring "IVF_FLAT"); ("nlist", Jnumber_integer 1024)]))]
    Jnull.

Definition example_described (_ : unit) (_ : string) : Status * CollectionSchema :=
  (Status_OK, example_schema).

Definition new_Mapping : Mapping := mkMapping None "" [] [].

(** The value that a list of assignments [index_params_[key] = value]
    leaves under a key: that of the last one. *)
Fixpoint last_assigned (key : string) (params : list (string * string)) : option string :=
  match params with
  | [] => None
  | (k, v) :: rest =>
      match last_assigned key rest with
      | Some v' => Some v'
      | None => if decide (k = key) then Some v else None
      end
  end.

(** The members of an object of strings. *)
Definition string_members (stored : list (string * string)) : list (string * json) :=
  (λ kv, (kv.1, Jstring kv.2)) <$> stored.

End Describe.

(* ===================================================================== *)
(** ** A vector-parameter block without a member                          *)
(* ===================================================================== *)

Module EmptyBlock.
Import Json Compiler.

(** The parser of the examples, which also knows the text of the empty
    object. *)
Definition block_json_parse (text : string) : parsed :=
  if decide (text = "{}") then Parsed (Jobject []) else example_json_parse text.

(** A block whose text is the empty object, with no row record. *)
Definition empty_block : VectorParam := mkVectorParam "{}" [].

End EmptyBlock.

(* ===================================================================== *)
(** * Part II: properties                                                 *)
(* ===================================================================== *)

(** ** Request context registry *)

Module RegistryFacts.
Import Registry.

(** *** Decimal rendering: the head of a positive number is a digit *)

Lemma pretty_N_char_digit x : is_digit (pretty_N_char x).
Proof.
  unfold is_digit, pretty_N_char.
  repeat case_match; repeat (first [ apply list_elem_of_here | apply list_elem_of_further ]).
Qed.

Lemma pretty_N_go_head x : ∀ s,
  (0 < x)%N → ∃ c rest, pretty_N_go x s = String c rest ∧ is_digit c.
Proof.
  induction (N.lt_wf_0 x) as [x _ IH]; intros s Hx.
  rewrite pretty_N_go_step by done.
  destruct (decide (x `div` 10 = 0)%N) as [->|Hne].
  - rewrite pretty_N_go_0. eauto using pretty_N_char_digit.
  - apply IH; [apply N.div_lt; lia | by apply N.neq_0_lt_0].
Qed.

Lemma pretty_Z_pos_head (n : Z) :
  1 ≤ n → ∃ c rest, pretty n = String c rest ∧ is_digit c.
Proof.
  destruct n as [|p|p]; [lia| |lia]. intros _.
  unfold pretty, pretty_Z, pretty, pretty_positive, pretty, pretty_N.
  rewrite decide_False by done. apply pretty_N_go_head. lia.
Qed.

(** Peel the characters of an unknown prefix [rid] off an equation
    [rid +:+ rest = literal]. *)
Ltac peel_prefix rid H :=
  destruct rid as [|? rid]; simpl in H;
  [ | first [ discriminate H | injection H as ? H; subst; peel_prefix rid H ] ].

Lemma not_digit_I : ¬ is_digit "I".
Proof.
  unfold is_digit. intros Hc.
  repeat (apply elem_of_cons in Hc as [Hc|Hc]; [discriminate Hc|]).
  by apply elem_of_nil in Hc.
Qed.

Lemma suffixed_ne_INVALID_ID (request_id : string) (n : Z) :
  1 ≤ n → request_id +:+ "_" +:+ pretty n ≠ "INVALID_ID".
Proof.
  intros Hn Heq. destruct (pretty_Z_pos_head n Hn) as (c & rest & Hp & Hc).
  rewrite Hp in Heq. clear Hp.
  peel_prefix request_id Heq; try discriminate Heq.
  injection Heq as ? ?; subst. by apply not_digit_I in Hc.
Qed.

Lemma suffixed_ne_self (request_id : string) (n : Z) :
  request_id ≠ request_id +:+ "_" +:+ pretty n.
Proof.
  induction request_id as [|a request_id IH]; simpl; [discriminate|].
  intros [= Heq]. by apply IH.
Qed.

Lemma suffixed_inj (request_id : string) (j k : Z) :
  request_id +:+ "_" +:+ pretty j = request_id +:+ "_" +:+ pretty k → j = k.
Proof.
  intros Heq. apply (inj (String.app request_id)) in Heq.
  apply (inj (String.app "_")) in Heq. by apply (inj pretty) in Heq.
Qed.
Section WithTracer.
Context {T : Tracer}.
Implicit Types (m : gmap string (option Context)) (h : handler).

(** What the probe returns is the first unused suffixed id at or after
    the starting suffix. *)
Lemma find_unused_suffix_spec fuel : ∀ m request_id suffix try_request_id,
  find_unused_suffix fuel m request_id suffix = Some try_request_id →
  ∃ n, suffix ≤ n < suffix + Z.of_nat fuel ∧
       try_request_id = request_id +:+ "_" +:+ pretty n ∧
       m !! try_request_id = None ∧
       ∀ k, suffix ≤ k < n → is_Some (m !! (request_id +:+ "_" +:+ pretty k)).
Proof.
  induction fuel as [|fuel IH]; intros m request_id suffix t Hfind;
    simpl in Hfind; [discriminate|].
  case_decide as Hused.
  - destruct (IH _ _ _ _ Hfind) as (n & Hn & -> & Hfree & Hbelow).
    exists n. repeat split; [lia | lia | done |].
    intros k Hk. destruct (decide (k = suffix)) as [->|]; [done|].
    apply Hbelow. lia.
  - injection Hfind as <-. exists suffix. repeat split; [lia | lia | |].
    + by apply eq_None_not_Some.
    + intros k Hk. lia.
Qed.

(** The probe ends within [size m + 1] iterations: the suffixed ids are
    pairwise distinct, so the map cannot hold all of them. *)
Lemma find_unused_suffix_total_aux fuel : ∀ m m0 request_id suffix,
  (size m < fuel)%nat →
  (∀ k, suffix ≤ k →
        is_Some (m0 !! (request_id +:+ "_" +:+ pretty k)) →
        is_Some (m !! (request_id +:+ "_" +:+ pretty k))) →
  is_Some (find_unused_suffix fuel m0 request_id suffix).
Proof.
  induction fuel as [|fuel IH]; intros m m0 request_id suffix Hsize Hsub; [lia|].
  simpl. case_decide as Hused; [|eauto].
  assert (is_Some (m !! (request_id +:+ "_" +:+ pretty suffix))) as Hin
    by (apply Hsub; [lia | done]).
  apply (IH (delete (request_id +:+ "_" +:+ pretty suffix) m)).
  - rewrite map_size_delete_Some by done.
    pose proof (map_size_ne_0_lookup_2 m _ Hin). lia.
  - intros k Hk Hk0. rewrite lookup_delete_ne; [apply Hsub; [lia | done]|].
    intros Heq%suffixed_inj. lia.
Qed.

Lemma find_unused_suffix_total m request_id suffix :
  is_Some (find_unused_suffix (S (size m)) m request_id suffix).
Proof. apply (find_unused_suffix_total_aux _ m); [lia | auto]. Qed.

(** The registration never returns a cut-short probe. *)
Lemma OnPostRecvInitialMetaData_returns method sc recv h :
  is_Some (OnPostRecvInitialMetaData method sc recv h).
Proof.
  unfold OnPostRecvInitialMetaData.
  destruct (Extract _); [eauto|].
  destruct (metadata_find "request_id" _) as [request_id|]; [|eauto].
  destruct (context_map_ h !! request_id); [|eauto].
  destruct (find_unused_suffix_total (context_map_ h) request_id 1) as [t ->].
  eauto.
Qed.

(** C1 (registration of a duplicate client-chosen request id).
    When the client supplies a request id that the registry already
    holds, [OnPostRecvInitialMetaData] reserves, without overwriting any
    entry, the id extended with the smallest unused suffix [_n], n >= 1.
    The context of the call is however not stored under that suffixed
    id: the reserved slot keeps its null context, the context is stored
    and later retrieved under what [get_request_id] reads from the
    server metadata (["INVALID_ID"] when, as on a fresh call, no
    request id was added to it), and the context carries the unsuffixed
    id. *)
Theorem OnPostRecvInitialMetaData_duplicate_request_id
    method sc recv h request_id span_context :
  Extract (trace_carrier recv) = inr span_context →
  metadata_find "request_id" (client_metadata sc) = Some request_id →
  is_Some (context_map_ h !! request_id) →
  metadata_find REQ_ID (server_metadata sc) = None →
  ∃ n : Z,
    let suffixed := request_id +:+ "_" +:+ pretty n in
    let context := mkContext request_id (Some (mkSpan method span_context)) None in
    let h' := mkHandler (<["INVALID_ID" := Some context]>
                           (<[suffixed := None]> (context_map_ h)))
                        (_sequential_id h) in
    1 ≤ n ≤ Z.of_nat (size (context_map_ h)) + 1 ∧
    context_map_ h !! suffixed = None ∧
    (∀ k, 1 ≤ k < n →
          is_Some (context_map_ h !! (request_id +:+ "_" +:+ pretty k))) ∧
    OnPostRecvInitialMetaData method sc recv h = Some (h', sc) ∧
    context_map_ h' !! suffixed = Some None ∧
    get_request_id sc = "INVALID_ID" ∧
    get_request_id sc ≠ suffixed ∧
    ReqID context ≠ suffixed ∧
    (GetContext sc h').1 = Some (SetConnectionContext sc context).
Proof.
  intros HExtract Hclient Hdup Hserver.
  destruct (find_unused_suffix_total (context_map_ h) request_id 1) as [t Ht].
  destruct (find_unused_suffix_spec _ _ _ _ _ Ht) as (n & Hn & -> & Hfree & Hbelow).
  assert (get_request_id sc = "INVALID_ID") as Hkey
    by (unfold get_request_id; by rewrite Hserver).
  assert (request_id +:+ "_" +:+ pretty n ≠ "INVALID_ID") as Hne
    by (apply suffixed_ne_INVALID_ID; lia).
  exists n. cbv zeta. repeat split.
  - lia.
  - lia.
  - done.
  - intros k Hk. apply Hbelow. lia.
  - unfold OnPostRecvInitialMetaData. rewrite HExtract, Hclient.
    destruct Hdup as [c ->]. rewrite Ht. unfold SetContext. simpl.
    by rewrite Hkey.
  - simpl. rewrite lookup_insert_ne by done. by rewrite lookup_insert_eq.
  - done.
  - by rewrite Hkey.
  - simpl. apply suffixed_ne_self.
  - unfold GetContext. rewrite Hkey. simpl. by rewrite lookup_insert_eq.
Qed.
End WithTracer.

(** The theorem at a registry that holds ["abc"], for a call whose client
    metadata carries [request_id = "abc"]. *)
Lemma duplicate_request_id_witness :
  let method := "/milvus.grpc.MilvusService/Search" in
  let sc := mkServerContext [("request_id", "abc")] [] in
  let h := mkHandler (T := NoopTracer) {["abc" := Some (mkContext "abc" None None)]} 7 in
  ∃ n : Z,
    let suffixed := "abc" +:+ "_" +:+ pretty n in
    let context := mkContext "abc" (Some (mkSpan (T := NoopTracer) method ())) None in
    let h' := mkHandler (<["INVALID_ID" := Some context]>
                           (<[suffixed := None]> (context_map_ h)))
                        (_sequential_id h) in
    1 ≤ n ≤ Z.of_nat (size (context_map_ h)) + 1 ∧
    context_map_ h !! suffixed = None ∧
    (∀ k, 1 ≤ k < n → is_Some (context_map_ h !! ("abc" +:+ "_" +:+ pretty k))) ∧
    OnPostRecvInitialMetaData method sc [] h = Some (h', sc) ∧
    context_map_ h' !! suffixed = Some None ∧
    get_request_id sc = "INVALID_ID" ∧
    get_request_id sc ≠ suffixed ∧
    ReqID context ≠ suffixed ∧
    (GetContext sc h').1 = Some (SetConnectionContext sc context).
Proof.
  intros method sc h.
  apply (OnPostRecvInitialMetaData_duplicate_request_id (T := NoopTracer)
           method sc [] h "abc" ()).
  - reflexivity.
  - reflexivity.
  - eexists. reflexivity.
  - reflexivity.
Defined.

(** The same call, evaluated: ["abc_1"] is reserved with a null context,
    and the context named ["abc"] lands under ["INVALID_ID"]. *)
Example duplicate_request_id_evaluated :
  let method := "/milvus.grpc.MilvusService/Search" in
  let sc := mkServerContext [("request_id", "abc")] [] in
  let first := mkContext (T := NoopTracer) "abc" None None in
  OnPostRecvInitialMetaData (T := NoopTracer) method sc []
    (mkHandler {["abc" := Some first]} 7)
  = Some (mkHandler (T := NoopTracer)
            (<["INVALID_ID" := Some (mkContext "abc" (Some (mkSpan (T := NoopTracer) method ())) None)]>
               (<["abc_1" := None]> {["abc" := Some first]})) 7,
          sc).
Proof. vm_compute. reflexivity. Qed.

(** A fresh client-chosen id is registered as it is. *)
Example fresh_request_id_evaluated :
  let method := "/milvus.grpc.MilvusService/Search" in
  let sc := mkServerContext [("request_id", "abc")] [] in
  OnPostRecvInitialMetaData (T := NoopTracer) method sc [] (mkHandler ∅ 7)
  = Some (mkHandler (T := NoopTracer)
            (<["INVALID_ID" := Some (mkContext "abc" (Some (mkSpan (T := NoopTracer) method ())) None)]>
               (<["abc" := None]> ∅)) 7,
          sc).
Proof. vm_compute. reflexivity. Qed.

(** When the call of the duplicate id ends, [OnPreSendMessage] erases the
    entry of the context; the reserved entry ["abc_1"] stays in the map. *)
Example reserved_entry_is_left :
  let method := "/milvus.grpc.MilvusService/Search" in
  let sc := mkServerContext [("request_id", "abc")] [] in
  let first := mkContext (T := NoopTracer) "abc" None None in
  (OnPostRecvInitialMetaData (T := NoopTracer) method sc []
     (mkHandler {["abc" := Some first]} 7)) ≫= (λ '(h, sc'), OnPreSendMessage sc' h)
  = Some (mkHandler (T := NoopTracer) (<["abc_1" := None]> {["abc" := Some first]}) 7).
Proof. vm_compute. reflexivity. Qed.

(** Without a client-chosen id the sequential id is written to the server
    metadata, and the context is stored under it. *)
Example generated_request_id_evaluated :
  let method := "/milvus.grpc.MilvusService/Search" in
  let sc := mkServerContext [] [] in
  OnPostRecvInitialMetaData (T := NoopTracer) method sc [] (mkHandler ∅ 7)
  = Some (mkHandler (T := NoopTracer)
            {["7" := Some (mkContext "7" (Some (mkSpan (T := NoopTracer) method ())) None)]} 8,
          mkServerContext [] [("request_id", "7")]).
Proof. vm_compute. reflexivity. Qed.
End RegistryFacts.

(** ** Random identifiers *)

Module RandomIdFacts.
Import RandomId.

Section WithEngine.
Variable engine : Type.
Variable draw : engine → Z * engine.

Lemma random_num_generator__range g :
  0 ≤ (random_num_generator_ engine draw g).1 < 2 ^ 64.
Proof.
  unfold random_num_generator_. destruct (draw g) as [v g']. simpl.
  unfold uint64_wrap. apply Z.mod_pos_bound. lia.
Qed.

Lemma redraw_nonzero fuel : ∀ value g v g',
  redraw engine draw fuel value g = Some (v, g') →
  0 ≤ value < 2 ^ 64 → v ≠ 0 ∧ 0 ≤ v < 2 ^ 64.
Proof.
  induction fuel as [|fuel IH]; intros value g v g' Hr Hrange; simpl in Hr.
  - case_decide; [discriminate|]. by injection Hr as <- <-.
  - case_decide; [|by injection Hr as <- <-].
    pose proof (random_num_generator__range g) as Hg.
    destruct (random_num_generator_ engine draw g) as [v1 g1].
    simpl in Hg. exact (IH v1 g1 v g' Hr Hg).
Qed.

(** Whatever [random_id] returns is a non-zero unsigned 64-bit value. *)
Lemma random_id_result fuel g v g' :
  random_id engine draw fuel g = Some (v, g') → v ≠ 0 ∧ 0 ≤ v < 2 ^ 64.
Proof.
  unfold random_id. pose proof (random_num_generator__range g) as Hg.
  destruct (random_num_generator_ engine draw g) as [v0 g0].
  simpl in Hg. intros Hr. exact (redraw_nonzero _ _ _ _ _ Hr Hg).
Qed.

(** Once the engine produces a non-zero value, the loop ends. *)
Lemma random_id_returns n : ∀ g fuel,
  nth_draw engine draw n g ≠ 0 → (n ≤ fuel)%nat →
  is_Some (random_id engine draw fuel g).
Proof.
  induction n as [|n IH]; intros g fuel Hnz Hfuel; unfold random_id;
    simpl in Hnz; destruct (random_num_generator_ engine draw g) as [v0 g0] eqn:Hd.
  - destruct fuel; simpl; rewrite decide_False by done; eauto.
  - destruct fuel as [|fuel]; [lia|]. simpl.
    case_decide; [|eauto]. apply IH; [done | lia].
Qed.

(** C10 ([random_id] never returns 0).  As soon as the engine produces a
    non-zero value, say at its [n]-th draw, [random_id] returns (the
    loop needs at most [n] re-draws), and what it returns is a non-zero
    unsigned 64-bit value. *)
Theorem random_id_nonzero g n fuel :
  nth_draw engine draw n g ≠ 0 → (n ≤ fuel)%nat →
  ∃ v g', random_id engine draw fuel g = Some (v, g') ∧ v ≠ 0 ∧ 0 ≤ v < 2 ^ 64.
Proof.
  intros Hnz Hfuel.
  destruct (random_id_returns n g fuel Hnz Hfuel) as [[v g'] Hr].
  exists v, g'. split; [done|]. by apply (random_id_result fuel g v g').
Qed.
End WithEngine.

(** An engine whose first value is 0 and whose second is 1: one re-draw. *)
Lemma random_id_nonzero_witness :
  ∃ v g', random_id Z counting_draw 1 0 = Some (v, g') ∧ v ≠ 0 ∧ 0 ≤ v < 2 ^ 64.
Proof.
  apply (random_id_nonzero Z counting_draw 0 1%nat 1%nat).
  - vm_compute. discriminate.
  - lia.
Defined.

Example random_id_redraws : random_id Z counting_draw 1 0 = Some (1, 2).
Proof. reflexivity. Qed.
End RandomIdFacts.

(** ** Insert admission gate *)

Module AdmissionFacts.
Import Admission.

Lemma int64_wrap_id z : - 2 ^ 63 ≤ z < 2 ^ 63 → int64_wrap z = z.
Proof. intros Hz. unfold int64_wrap. rewrite Z.mod_small; lia. Qed.

Lemma in_flight_size_app cs cs' :
  in_flight_size (cs ++ cs') = in_flight_size cs + in_flight_size cs'.
Proof. induction cs as [|c cs IH]; simpl; lia. Qed.

Lemma in_flight_size_insert cs : ∀ i c c',
  cs !! i = Some c →
  in_flight_size (<[i := c']> cs) = in_flight_size cs - held c + held c'.
Proof.
  induction cs as [|c0 cs IH]; intros [|i] c c' Hi; simpl in *; try discriminate.
  - injection Hi as ->. lia.
  - rewrite (IH i c c' Hi). lia.
Qed.

Lemma in_flight_size_nonneg cs :
  Forall (λ c, 0 ≤ request_size c < 2 ^ 63) cs → 0 ≤ in_flight_size cs.
Proof.
  induction 1 as [|c cs Hc Hall IH]; simpl; [lia|].
  unfold held. case_decide; lia.
Qed.

Lemma in_flight_size_lookup cs i c :
  Forall (λ c, 0 ≤ request_size c < 2 ^ 63) cs → cs !! i = Some c →
  held c ≤ in_flight_size cs.
Proof.
  intros Hall. revert i. induction Hall as [|c0 cs Hc Hall IH];
    intros [|i] Hi; simpl in *; try discriminate.
  - injection Hi as ->. pose proof (in_flight_size_nonneg cs Hall). lia.
  - specialize (IH i Hi). unfold held at 2. case_decide; lia.
Qed.

Lemma gate_invariant_init B : 0 ≤ B → gate_invariant B (init_system B).
Proof. intros HB. unfold gate_invariant; simpl. repeat split; [lia | lia | done]. Qed.

Lemma Forall_size_lookup (cs : list insert_call) i c :
  Forall (λ c, 0 ≤ request_size c < 2 ^ 63) cs → cs !! i = Some c →
  0 ≤ request_size c < 2 ^ 63.
Proof. intros Hall Hi. exact (proj1 (Forall_lookup _ cs) Hall i c Hi). Qed.

Lemma gate_invariant_step B l s s' :
  0 ≤ B < 2 ^ 63 → gate_invariant B s → step l s s' → gate_invariant B s'.
Proof.
  intros HB (Htot & Hsum & Hpos & Hall) Hstep.
  destruct Hstep as [g cs size Hsize | g g' cs i size Hi Hwait | g cs i size Hi];
    unfold gate_invariant in *; simpl in *.
  - rewrite in_flight_size_app. change (in_flight_size [mkCall size Waiting]) with 0.
    repeat split; [done | lia | done |].
    apply Forall_app. split; [done|]. apply Forall_singleton. simpl. lia.
  - pose proof (Forall_size_lookup _ _ _ Hall Hi) as Hsz. simpl in Hsz.
    unfold WaitToInsert, wait_predicate in Hwait.
    pose proof (in_flight_size_nonneg _ Hall) as Hadm.
    case_bool_decide as Hgt; [|discriminate]. injection Hwait as <-. simpl.
    rewrite int64_wrap_id in Hgt by lia. rewrite int64_wrap_id by lia.
    rewrite (in_flight_size_insert _ _ _ _ Hi).
    change (held (mkCall size Waiting)) with 0.
    change (held (mkCall size InFlight)) with size.
    repeat split; [done | lia | lia |].
    apply Forall_insert; [done | simpl; lia].
  - pose proof (Forall_size_lookup _ _ _ Hall Hi) as Hsz. simpl in Hsz.
    pose proof (in_flight_size_lookup _ _ _ Hall Hi) as Hheld.
    change (held (mkCall size InFlight)) with size in Hheld.
    rewrite int64_wrap_id by lia.
    rewrite (in_flight_size_insert _ _ _ _ Hi).
    change (held (mkCall size InFlight)) with size.
    change (held (mkCall size Finished)) with 0.
    repeat split; [done | lia | lia |].
    apply Forall_insert; [done | simpl; lia].
Qed.

Lemma reachable_invariant B s :
  0 ≤ B < 2 ^ 63 → reachable B s → gate_invariant B s.
Proof.
  intros HB Hreach.
  apply (rtc_ind_r (R := step_any) (gate_invariant B) (init_system B)); [| |exact Hreach].
  - apply gate_invariant_init. lia.
  - intros s1 s2 _ [l Hstep] IH. by eapply gate_invariant_step.
Qed.

Lemma reachable_step B l s s' : reachable B s → step l s s' → reachable B s'.
Proof. intros Hreach Hstep. eapply rtc_r; [exact Hreach | by exists l]. Qed.

Lemma reachable_trans B s s' : reachable B s → rtc step_any s s' → reachable B s'.
Proof. unfold reachable. intros Hreach Hsteps. by etrans. Qed.

(** In a reachable state the wait predicate fails for every size that is at
    least the configured budget. *)
Lemma wait_predicate_oversized B s size :
  0 ≤ B < 2 ^ 63 → reachable B s → B ≤ size < 2 ^ 63 →
  wait_predicate (the_gate s) size = false.
Proof.
  intros HB Hreach Hsize.
  destruct (reachable_invariant B s HB Hreach) as (_ & Hsum & Hpos & Hall).
  pose proof (in_flight_size_nonneg _ Hall) as Hadm.
  unfold wait_predicate. apply bool_decide_eq_false.
  rewrite int64_wrap_id by lia. lia.
Qed.

(** C5 (a request as large as the budget is never admitted).  From a
    budget [B], in every state reachable by any interleaving of [Insert]
    calls, the wait predicate [budget - size > 0] is false for every request
    size [size >= B], so [WaitToInsert] does not return for it; and a call
    of such a size that is waiting stays waiting in every later state. *)
Theorem WaitToInsert_blocks_oversized B s size :
  0 ≤ B < 2 ^ 63 → reachable B s → B ≤ size < 2 ^ 63 →
  wait_predicate (the_gate s) size = false ∧
  WaitToInsert size (the_gate s) = None ∧
  ∀ i s', calls s !! i = Some (mkCall size Waiting) → rtc step_any s s' →
          calls s' !! i = Some (mkCall size Waiting).
Proof.
  intros HB Hreach Hsize.
  pose proof (wait_predicate_oversized B s size HB Hreach Hsize) as Hpred.
  split; [done|]. split; [unfold WaitToInsert; by rewrite Hpred|].
  intros i s' Hi Hsteps. revert s' Hsteps.
  apply (rtc_ind_r (R := step_any) (λ s', calls s' !! i = Some (mkCall size Waiting)) s); [done|].
  intros s1 s2 Hsteps [l Hstep] IH.
  assert (reachable B s1) as Hreach1 by by eapply reachable_trans.
  pose proof (wait_predicate_oversized B s1 size HB Hreach1 Hsize) as Hpred1.
  destruct Hstep as [g cs sz Hsz | g g' cs j sz Hj Hwait | g cs j sz Hj]; simpl in *.
  - apply lookup_app_l_Some, IH.
  - destruct (decide (j = i)) as [->|Hne].
    + rewrite IH in Hj. injection Hj as <-.
      unfold WaitToInsert in Hwait. by rewrite Hpred1 in Hwait.
    + by rewrite list_lookup_insert_ne.
  - destruct (decide (j = i)) as [->|Hne].
    + rewrite IH in Hj. discriminate.
    + by rewrite list_lookup_insert_ne.
Qed.

(** C6 (the admitted sizes never exceed the budget).  From a budget [B], in
    every state reachable by any interleaving of paired
    [WaitToInsert]/[FinishInsert] calls, the sum of the admitted and not yet
    released request sizes is at most [B]; the remaining budget is [B] minus
    that sum, it is positive after every admission and at most [B] after
    every release. *)
Theorem in_flight_size_bounded B s :
  0 ≤ B < 2 ^ 63 → reachable B s →
  in_flight_size (calls s) ≤ B ∧
  max_concurrent_insert_request_size (the_gate s) = B - in_flight_size (calls s) ∧
  (∀ i s', step (Pass i) s s' →
           0 < max_concurrent_insert_request_size (the_gate s')) ∧
  (∀ i s', step (Finish i) s s' →
           max_concurrent_insert_request_size (the_gate s') ≤ B).
Proof.
  intros HB Hreach.
  destruct (reachable_invariant B s HB Hreach) as (Htot & Hsum & Hpos & Hall).
  split; [lia|]. split; [lia|]. split.
  - intros i s' Hstep. inversion Hstep as [| g g' cs j size Hj Hwait |]; subst.
    simpl in *. pose proof (Forall_size_lookup _ _ _ Hall Hj) as Hsz. simpl in Hsz.
    unfold WaitToInsert, wait_predicate in Hwait.
    case_bool_decide as Hgt; [|discriminate]. by injection Hwait as <-.
  - intros i s' Hstep.
    destruct (reachable_invariant B s' HB (reachable_step B _ s s' Hreach Hstep))
      as (_ & Hsum' & _ & Hall').
    pose proof (in_flight_size_nonneg _ Hall'). lia.
Qed.

Lemma two_calls_reachable : reachable 10 two_calls.
Proof.
  unfold reachable, init_system, init.
  eapply rtc_l; [exists (Arrive 4); by apply step_arrive|].
  eapply rtc_l; [exists (Arrive 10); by apply step_arrive|].
  eapply rtc_l; [exists (Pass 0); by eapply (step_pass _ _ _ 0%nat 4)|].
  apply rtc_refl.
Defined.

Lemma WaitToInsert_blocks_oversized_witness :
  wait_predicate (the_gate two_calls) 10 = false ∧
  WaitToInsert 10 (the_gate two_calls) = None ∧
  ∀ i s', calls two_calls !! i = Some (mkCall 10 Waiting) → rtc step_any two_calls s' →
          calls s' !! i = Some (mkCall 10 Waiting).
Proof.
  apply (WaitToInsert_blocks_oversized 10 two_calls 10).
  - lia.
  - exact two_calls_reachable.
  - lia.
Defined.

Lemma in_flight_size_bounded_witness :
  in_flight_size (calls two_calls) ≤ 10 ∧
  max_concurrent_insert_request_size (the_gate two_calls)
    = 10 - in_flight_size (calls two_calls) ∧
  (∀ i s', step (Pass i) two_calls s' →
           0 < max_concurrent_insert_request_size (the_gate s')) ∧
  (∀ i s', step (Finish i) two_calls s' →
           max_concurrent_insert_request_size (the_gate s') ≤ 10).
Proof.
  apply (in_flight_size_bounded 10 two_calls).
  - lia.
  - exact two_calls_reachable.
Defined.

(** A request of exactly the budget is refused on the fresh gate, one byte
    less is admitted. *)
Example WaitToInsert_exact_budget : WaitToInsert 10 (init 10) = None.
Proof. reflexivity. Qed.

Example WaitToInsert_below_budget : WaitToInsert 9 (init 10) = Some (mkGate 10 1).
Proof. reflexivity. Qed.
End AdmissionFacts.

(** ** Insert ingestion *)

Module CodecFacts.
Import Codec.

Lemma size_of_nonneg {A} (l : list A) : 0 ≤ size_of l.
Proof. unfold size_of. lia. Qed.

Lemma size_of_pos {A} (l : list A) : l ≠ [] → 0 < size_of l.
Proof. destruct l; [done|]. unfold size_of. simpl. lia. Qed.

Lemma element_count_nonneg field : 0 ≤ element_count field.
Proof. unfold element_count. repeat case_decide; apply size_of_nonneg. Qed.

(** *** Vector spans *)

Lemma RecordDataAddr_fields_data sizeof_T name num data p :
  fields_data_ (RecordDataAddr sizeof_T name num data p)
  = <[name := default [] (fields_data_ p !! name) ++ [(data, num * sizeof_T)]]>
      (fields_data_ p).
Proof. reflexivity. Qed.

Lemma record_float_spans_fields_data name rest : ∀ record p,
  fields_data_ (record_float_spans name (record :: rest) p)
  = <[name := default [] (fields_data_ p !! name) ++ (float_span <$> record :: rest)]>
      (fields_data_ p).
Proof.
  induction rest as [|record' rest IH]; intros record p.
  - reflexivity.
  - change (record_float_spans name (record :: record' :: rest) p)
      with (record_float_spans name (record' :: rest)
              (RecordDataAddr sizeof_float name (size_of (float_data record))
                 (addr_float (float_data record)) p)).
    rewrite IH, RecordDataAddr_fields_data, lookup_insert_eq, insert_insert_eq.
    simpl. by rewrite <-app_assoc.
Qed.

Lemma record_binary_spans_fields_data name rest : ∀ record p,
  fields_data_ (record_binary_spans name (record :: rest) p)
  = <[name := default [] (fields_data_ p !! name) ++ (binary_span <$> record :: rest)]>
      (fields_data_ p).
Proof.
  induction rest as [|record' rest IH]; intros record p.
  - reflexivity.
  - change (record_binary_spans name (record :: record' :: rest) p)
      with (record_binary_spans name (record' :: rest)
              (RecordDataAddr sizeof_char name (size_of (binary_data record))
                 (addr_char (binary_data record)) p)).
    rewrite IH, RecordDataAddr_fields_data, lookup_insert_eq, insert_insert_eq.
    simpl. by rewrite <-app_assoc.
Qed.

(** C8, as the code has it (float data takes priority).  For every vector
    field whose row records report both a non-zero total float-data size and
    a non-zero total binary-data size, ingestion records the float data
    spans of the rows for that field, one span per row, after the spans the
    field already had. *)
Theorem RecordVectorDataAddr_float_priority name records p :
  0 < float_data_size records → 0 < binary_data_size records →
  fields_data_ (RecordVectorDataAddr name records p)
  = <[name := default [] (fields_data_ p !! name) ++ (float_span <$> records)]>
      (fields_data_ p).
Proof.
  intros Hfloat _. unfold RecordVectorDataAddr. rewrite decide_True by done.
  destruct records as [|record rest]; [simpl in Hfloat; lia|].
  apply record_float_spans_fields_data.
Qed.

(** Binary spans are recorded only when no row carries float data. *)
Lemma RecordVectorDataAddr_binary name records p :
  float_data_size records = 0 → 0 < binary_data_size records →
  fields_data_ (RecordVectorDataAddr name records p)
  = <[name := default [] (fields_data_ p !! name) ++ (binary_span <$> records)]>
      (fields_data_ p).
Proof.
  intros Hfloat Hbinary. unfold RecordVectorDataAddr.
  rewrite decide_False by lia. rewrite decide_True by done.
  destruct records as [|record rest]; [simpl in Hbinary; lia|].
  apply record_binary_spans_fields_data.
Qed.

(** One row that carries the float 1.0 and one byte. *)
Lemma RecordVectorDataAddr_float_priority_witness :
  fields_data_ (RecordVectorDataAddr "vec" [mkVectorRowRecord [1065353216] [x01]]
                  empty_InsertParam)
  = <["vec" := default [] (fields_data_ empty_InsertParam !! "vec")
               ++ (float_span <$> [mkVectorRowRecord [1065353216] [x01]])]>
      (fields_data_ empty_InsertParam).
Proof.
  apply (RecordVectorDataAddr_float_priority "vec"
           [mkVectorRowRecord [1065353216] [x01]] empty_InsertParam).
  - reflexivity.
  - reflexivity.
Defined.

(** C8 as stated fails: with both totals non-zero, the spans recorded for
    the field are the float spans, not the binary ones. *)
Lemma RecordVectorDataAddr_binary_priority_counterexample :
  let record := mkVectorRowRecord [1065353216] [x01] in
  let recorded :=
    fields_data_ (RecordVectorDataAddr "vec" [record] empty_InsertParam) !! "vec" in
  0 < float_data_size [record] ∧ 0 < binary_data_size [record] ∧
  recorded = Some [(addr_float [1065353216], 4)] ∧
  recorded ≠ Some [binary_span record].
Proof. repeat split. discriminate. Qed.

(** *** Row counts *)

Lemma record_field_spec n field row_num p :
  ∃ p', record_field n field row_num p
        = match valid_row_count n row_num (element_count field) with
          | (_, Some st) => inl st
          | (row_num', None) => inr (row_num', p')
          end.
Proof.
  unfold record_field, element_count.
  repeat case_decide; destruct (valid_row_count _ _ _) as [r [st|]]; eauto.
Qed.

Lemma valid_row_count_first n test :
  valid_row_count n (-1) test
  = (test, if decide (0 < n ∧ test ≠ n)
           then Some (mkStatus SERVER_INVALID_ROWRECORD_ARRAY "ID size not matches entity size")
           else None).
Proof. unfold valid_row_count. rewrite decide_True by lia. by case_decide. Qed.

Lemma valid_row_count_next n base test :
  0 ≤ base →
  valid_row_count n base test
  = (base, if decide (base ≠ test)
           then Some (mkStatus SERVER_INVALID_ROWRECORD_ARRAY "Field row count inconsist")
           else None).
Proof. intros Hb. unfold valid_row_count. rewrite decide_False by lia. by case_decide. Qed.

(** Once the row count is set, a field with another element count ends the
    loop with a failure. *)
Lemma record_fields_mismatch n fs : ∀ row_num p,
  0 ≤ row_num →
  (∃ f, f ∈ fs ∧ element_count f ≠ row_num) →
  record_fields n fs row_num p
  = inl (mkStatus SERVER_INVALID_ROWRECORD_ARRAY "Field row count inconsist").
Proof.
  induction fs as [|field fs IH]; intros row_num p Hrow (f & Hin & Hne).
  - by apply elem_of_nil in Hin.
  - simpl. destruct (record_field_spec n field row_num p) as [p' ->].
    rewrite valid_row_count_next by done.
    case_decide as Hfield; [done|].
    apply IH; [done|]. exists f. split; [|done].
    apply elem_of_cons in Hin as [->|Hin]; [|done].
    destruct Hfield. done.
Qed.

(** When the loop succeeds from a set row count, every field has it. *)
Lemma record_fields_consistent n fs : ∀ row_num p row_num' p',
  0 ≤ row_num →
  record_fields n fs row_num p = inr (row_num', p') →
  row_num' = row_num ∧ ∀ f, f ∈ fs → element_count f = row_num.
Proof.
  induction fs as [|field fs IH]; intros row_num p row_num' p' Hrow Hrun.
  - injection Hrun as <- <-. split; [done|]. intros f Hin. by apply elem_of_nil in Hin.
  - simpl in Hrun. destruct (record_field_spec n field row_num p) as [p1 Hfield].
    rewrite Hfield, valid_row_count_next in Hrun by done.
    case_decide as Hne; [discriminate|].
    destruct (IH _ _ _ _ Hrow Hrun) as [-> Hall]. split; [done|].
    intros f [->|Hin]%elem_of_cons; [|by apply Hall].
    destruct (decide (row_num = element_count field)); [done|]. by destruct Hne.
Qed.

Section WithEngine.
Variable ConnectionContext : Type.
Variable FIELD_UID : string.
Variable req_handler_Insert :
  ConnectionContext → string → string → InsertParam → Status * InsertParam.

#[local] Abbreviation OnInsert := (OnInsert ConnectionContext FIELD_UID req_handler_Insert).

(** C7 (row counts).  The element count of the first field is the row count
    of the batch.  If a later field has another element count, or a
    non-empty id array has another length, [OnInsert] answers with a status
    of code [SERVER_INVALID_ROWRECORD_ARRAY] (class InvalidArgument), leaves
    the ids of the response alone and never invokes the engine's insert. *)
Theorem OnInsert_row_count_mismatch context request response first rest :
  fields request = first :: rest →
  (∃ f, f ∈ rest ∧ element_count f ≠ element_count first) ∨
  (entity_id_array request ≠ [] ∧
   size_of (entity_id_array request) ≠ element_count first) →
  ∃ msg,
    OnInsert context request response
    = (mkEntityIds (Some (mkStatus SERVER_INVALID_ROWRECORD_ARRAY msg))
         (response_entity_id_array response), []) ∧
    error_class SERVER_INVALID_ROWRECORD_ARRAY = InvalidArgument.
Proof.
  intros Hfields Hbad. unfold OnInsert, Codec.OnInsert.
  case_decide as Hneg; [by eexists|].
  rewrite Hfields. simpl.
  destruct (record_field_spec (size_of (entity_id_array request)) first (-1)
              empty_InsertParam) as [p' ->].
  rewrite valid_row_count_first.
  case_decide as Hids; [by eexists|].
  destruct Hbad as [Hfield | [Hnonempty Hlen]].
  - rewrite record_fields_mismatch; [by eexists | apply element_count_nonneg | done].
  - destruct Hids. split; [by apply size_of_pos | done].
Qed.

(** Conversely, when the engine's insert is invoked, it is invoked once,
    with the element count of the first field as row count, every field has
    that count, and so has the id array when there is one. *)
Lemma OnInsert_engine_invoked context request response first rest answer invoked :
  fields request = first :: rest →
  OnInsert context request response = (answer, invoked) →
  invoked ≠ [] →
  (∃ p, invoked = [p] ∧ row_count_ p = element_count first) ∧
  (∀ f, f ∈ rest → element_count f = element_count first) ∧
  (entity_id_array request = [] ∨
   size_of (entity_id_array request) = element_count first).
Proof.
  intros Hfields Hrun Hinvoked. unfold OnInsert, Codec.OnInsert in Hrun.
  case_decide as Hneg; [injection Hrun as <- <-; done|].
  rewrite Hfields in Hrun. simpl in Hrun.
  destruct (record_field_spec (size_of (entity_id_array request)) first (-1)
              empty_InsertParam) as [p' Hfirst].
  rewrite Hfirst, valid_row_count_first in Hrun.
  case_decide as Hids; [injection Hrun as <- <-; done|].
  destruct (record_fields _ rest _ _) as [st|[row_num p]] eqn:Hloop;
    [injection Hrun as <- <-; done|].
  destruct (record_fields_consistent _ _ _ _ _ _ (element_count_nonneg first) Hloop)
    as [-> Hall].
  split; [|split; [done|]].
  - destruct (req_handler_Insert _ _ _ _) as [status returned].
    destruct (ok status); injection Hrun as <- <-; eexists; split; try done;
      by case_decide.
  - destruct (entity_id_array request) as [|id ids] eqn:Hid; [by left|right].
    destruct (decide (size_of (id :: ids) = element_count first)) as [|Hne]; [done|].
    destruct Hids. split; [by apply size_of_pos | done].
Qed.
End WithEngine.

(** Three ages and two vector rows. *)
Lemma OnInsert_row_count_mismatch_witness :
  let age := mkFieldValue "age" (mkAttrRecord [1; 2; 3] [] [] []) [] in
  let vec := mkFieldValue "vec" (mkAttrRecord [] [] [] [])
               [mkVectorRowRecord [0; 0] []; mkVectorRowRecord [0; 0] []] in
  let request := mk_grpc_InsertParam "c" [age; vec] [] "" in
  ∃ msg,
    OnInsert unit "_id" accepting_Insert () request (mkEntityIds None [])
    = (mkEntityIds (Some (mkStatus SERVER_INVALID_ROWRECORD_ARRAY msg)) [], []) ∧
    error_class SERVER_INVALID_ROWRECORD_ARRAY = InvalidArgument.
Proof.
  intros age vec request.
  apply (OnInsert_row_count_mismatch unit "_id" accepting_Insert () request
           (mkEntityIds None []) age [vec]).
  - reflexivity.
  - left. exists vec. split; [apply list_elem_of_here | vm_compute; discriminate].
Defined.

(** A consistent batch reaches the engine, and the generated ids come
    back. *)
Example OnInsert_accepts :
  let age := mkFieldValue "age" (mkAttrRecord [1; 2] [] [] []) [] in
  let vec := mkFieldValue "vec" (mkAttrRecord [] [] [] [])
               [mkVectorRowRecord [0; 0] []; mkVectorRowRecord [0; 0] []] in
  let request := mk_grpc_InsertParam "c" [age; vec] [] "" in
  OnInsert unit "_id" accepting_Insert () request (mkEntityIds None [])
  = (mkEntityIds (Some Status_OK) [0; 1],
     [mkInsertParam
        (<["vec" := [(addr_float [0; 0], 8); (addr_float [0; 0], 8)]]>
           (<["age" := [(addr_int32 [1; 2], 8)]]> ∅)) 2 []]).
Proof. vm_compute. reflexivity. Qed.

(** An id array of another length than the row count is refused. *)
Example OnInsert_id_size_mismatch :
  let age := mkFieldValue "age" (mkAttrRecord [1; 2] [] [] []) [] in
  let request := mk_grpc_InsertParam "c" [age] [7] "" in
  OnInsert unit "_id" accepting_Insert () request (mkEntityIds None [])
  = (mkEntityIds
       (Some (mkStatus SERVER_INVALID_ROWRECORD_ARRAY "ID size not matches entity size"))
       [], []).
Proof. vm_compute. reflexivity. Qed.
End CodecFacts.

(** ** Query compiler *)

Module CompilerFacts.
Import Json Compiler EmptyBlock.

(** Unfold the statement combinators. *)
Ltac run :=
  unfold function_body, try_catch, STATUS_CHECK, with_local, check, when, modify,
    return_, eval, parse_flow, mbind, M_bind, bind, mret, M_ret, ret in *;
  simpl in *.

(** Case analysis on the next test or call the goal is stuck on. *)
Ltac step :=
  match goal with
  | |- context [match ?x with _ => _ end] =>
      lazymatch x with
      | context [match _ with _ => _ end] => fail
      | _ => destruct x eqn:?; simpl in *
      end
  end.

Section WithCollaborators.
Variable BinaryQuery : Type.
Variable json_parse : string → parsed.
Variable JSON_NULL_CHECK : json → option Status.
Variable JSON_OBJECT_CHECK : json → option Status.
Variable ValidateSearchTopk : Z → Status.

#[local] Abbreviation Query := (Query BinaryQuery).
#[local] Abbreviation process_vector_param :=
  (process_vector_param BinaryQuery json_parse ValidateSearchTopk).
#[local] Abbreviation process_vector_params :=
  (process_vector_params BinaryQuery json_parse ValidateSearchTopk).
#[local] Abbreviation DeserializeDslToBoolQuery_try :=
  (DeserializeDslToBoolQuery_try BinaryQuery json_parse JSON_NULL_CHECK
     JSON_OBJECT_CHECK ValidateSearchTopk).
#[local] Abbreviation DeserializeDslToBoolQuery :=
  (DeserializeDslToBoolQuery BinaryQuery json_parse JSON_NULL_CHECK
     JSON_OBJECT_CHECK ValidateSearchTopk).

(** What one vector-parameter block can do: it leaves the boolean query
    alone, and the only status it returns is a failed top-k validation. *)
Lemma process_vector_param_spec vector_param boolean_query (query_ptr : Query) :
  ∃ r query_ptr',
    process_vector_param vector_param (boolean_query, query_ptr)
    = (r, (boolean_query, query_ptr')) ∧
    match r with
    | Return st => ok st = false ∧ ∃ k, st = ValidateSearchTopk k
    | _ => True
    end.
Proof.
  unfold Compiler.process_vector_param. run.
  repeat step; eexists _, _; (split; [reflexivity|]); simpl; eauto.
Qed.

Lemma process_vector_params_spec vector_params : ∀ boolean_query (query_ptr : Query),
  ∃ r query_ptr',
    process_vector_params vector_params (boolean_query, query_ptr)
    = (r, (boolean_query, query_ptr')) ∧
    match r with
    | Return st => ok st = false ∧ ∃ k, st = ValidateSearchTopk k
    | _ => True
    end.
Proof.
  induction vector_params as [|vector_param rest IH]; intros boolean_query query_ptr.
  - by eexists _, _.
  - simpl. unfold mbind, M_bind, bind.
    destruct (process_vector_param_spec vector_param boolean_query query_ptr)
      as (r & q1 & -> & Hr).
    destruct r; [apply IH | by eexists _, _ ..].
Qed.

(** C2 (the number of vector-parameter blocks).  When the list of
    vector-parameter blocks does not have exactly one element (zero blocks
    in particular), [DeserializeDslToBoolQuery] returns a status that is not
    OK and of class InvalidArgument, whatever the filter expression is (and
    so whether or not it has a vector leaf), and it writes neither the
    boolean query nor the query: no tree is produced. *)
Theorem DeserializeDslToBoolQuery_vector_param_count vector_params dsl_string s :
  length vector_params ≠ 1%nat →
  ∃ st, DeserializeDslToBoolQuery vector_params dsl_string s = (Returned st, s) ∧
        ok st = false ∧ error_class (code st) = InvalidArgument.
Proof.
  intros Hcount.
  unfold Compiler.DeserializeDslToBoolQuery, Compiler.DeserializeDslToBoolQuery_try. run.
  destruct (json_parse dsl_string) as [dsl_json|what]; simpl; [|by eexists].
  destruct (empty dsl_json); simpl; [by eexists|].
  rewrite bool_decide_true by done. simpl. by eexists.
Qed.

(** Where the behaviour is defined, a filter expression that parses to a
    value without a ["bool"] member gets a status that is not OK and of
    class InvalidArgument, and the boolean query is as it was.  (The
    vector-parameter block is processed first; a top-k it refuses is
    reported with the status of [ValidateSearchTopk], assumed of class
    InvalidArgument.) *)
Lemma DeserializeDslToBoolQuery_missing_bool_defined
    vector_params dsl_string dsl_json boolean_query (query_ptr : Query) :
  (∀ k, ok (ValidateSearchTopk k) = false →
        error_class (code (ValidateSearchTopk k)) = InvalidArgument) →
  json_parse dsl_string = Parsed dsl_json →
  contains dsl_json "bool" = false →
  let r := DeserializeDslToBoolQuery vector_params dsl_string
             (boolean_query, query_ptr) in
  r.1 ≠ UndefinedBehaviour →
  ∃ st, r.1 = Returned st ∧ ok st = false ∧
        error_class (code st) = InvalidArgument ∧
        r.2.1 = boolean_query.
Proof.
  intros Htopk Hparse Hbool.
  unfold Compiler.DeserializeDslToBoolQuery, Compiler.DeserializeDslToBoolQuery_try.
  run. rewrite Hparse. simpl.
  destruct (empty dsl_json); simpl; [by eexists|].
  case_bool_decide; simpl; [by eexists|].
  destruct (process_vector_params_spec vector_params boolean_query query_ptr)
    as (r & q1 & -> & Hr).
  destruct r as [[]|st|what|]; simpl.
  - rewrite Hbool. simpl. by eexists.
  - destruct Hr as [Hfail [k ->]]. intros _. exists (ValidateSearchTopk k). auto.
  - by eexists.
  - done.
Qed.

(** C3 (no top-level boolean key).  The claim is that every filter
    expression that parses but has no ["bool"] member is refused with a
    status of class InvalidArgument.  The code does not do that on every
    such input: the loop over the vector-parameter blocks runs before the
    test for ["bool"], and it reads [it.key()] of the first member of the
    block without the test against [end()] that guards the descriptor one
    line below.  For a non-empty filter expression without ["bool"] and one
    block whose text is the empty JSON object, the call returns no status:
    its behaviour is undefined (what is known of the state is that nothing
    was written before).  The hypothesis on ["bool"] places the input in the
    claim; the code does not get as far as looking at it. *)
Theorem DeserializeDslToBoolQuery_missing_bool
    vector_param dsl_string dsl_json (s : BooleanQuery * Query) :
  json_parse dsl_string = Parsed dsl_json →
  empty dsl_json = false →
  contains dsl_json "bool" = false →
  json_parse (json_ vector_param) = Parsed (Jobject []) →
  DeserializeDslToBoolQuery [vector_param] dsl_string s = (UndefinedBehaviour, s).
Proof.
  intros Hparse Hempty Hbool Hblock. destruct s as [boolean_query query_ptr].
  unfold Compiler.DeserializeDslToBoolQuery, Compiler.DeserializeDslToBoolQuery_try,
    Compiler.process_vector_params, Compiler.process_vector_param.
  run. rewrite Hparse. simpl. rewrite Hempty. simpl. rewrite Hblock. reflexivity.
Qed.

(** The [try] block throws what the parser throws on the filter
    expression. *)
Lemma try_throws_dsl_parse_error vector_params dsl_string what s :
  json_parse dsl_string = ParseError what →
  DeserializeDslToBoolQuery_try vector_params dsl_string s = (Throw what, s).
Proof.
  intros Hparse. unfold Compiler.DeserializeDslToBoolQuery_try. run.
  by rewrite Hparse.
Qed.

(** ... and what it throws on the JSON text of the vector-parameter
    block. *)
Lemma try_throws_vector_parse_error vector_param dsl_string dsl_json what s :
  json_parse dsl_string = Parsed dsl_json → empty dsl_json = false →
  json_parse (json_ vector_param) = ParseError what →
  DeserializeDslToBoolQuery_try [vector_param] dsl_string s = (Throw what, s).
Proof.
  intros Hdsl Hempty Hparse.
  unfold Compiler.DeserializeDslToBoolQuery_try, Compiler.process_vector_params,
    Compiler.process_vector_param.
  run. rewrite Hdsl. simpl. rewrite Hempty. simpl. by rewrite Hparse.
Qed.

(** No exception leaves [DeserializeDslToBoolQuery]. *)
Lemma DeserializeDslToBoolQuery_never_throws vector_params dsl_string s what :
  (DeserializeDslToBoolQuery vector_params dsl_string s).1 ≠ Thrown what.
Proof.
  unfold Compiler.DeserializeDslToBoolQuery, function_body, try_catch, return_.
  destruct (DeserializeDslToBoolQuery_try vector_params dsl_string s) as [[a|st|w|] s'];
    done.
Qed.

(** C4 (exceptions are caught at the compiler boundary).  When anything in
    the [try] block of [DeserializeDslToBoolQuery] throws (the parser on the
    filter expression or on the vector-parameter JSON, a conversion, an
    iterator), the function returns the status
    [SERVER_INVALID_DSL_PARAMETER] (class InvalidArgument) whose message is
    the [what()] of the exception, with the objects as the block left them;
    and on no input does an exception leave the function. *)
Theorem DeserializeDslToBoolQuery_catches vector_params dsl_string s what s' :
  DeserializeDslToBoolQuery_try vector_params dsl_string s = (Throw what, s') →
  DeserializeDslToBoolQuery vector_params dsl_string s
  = (Returned (mkStatus SERVER_INVALID_DSL_PARAMETER what), s') ∧
  error_class SERVER_INVALID_DSL_PARAMETER = InvalidArgument ∧
  ∀ vector_params0 dsl_string0 s0 what0,
    (DeserializeDslToBoolQuery vector_params0 dsl_string0 s0).1 ≠ Thrown what0.
Proof.
  intros Htry. split; [|split; [done|]].
  - unfold Compiler.DeserializeDslToBoolQuery, function_body, try_catch, return_.
    by rewrite Htry.
  - intros. apply DeserializeDslToBoolQuery_never_throws.
Qed.
End WithCollaborators.

#[local] Abbreviation compile :=
  (DeserializeDslToBoolQuery unit example_json_parse example_JSON_NULL_CHECK
     example_JSON_OBJECT_CHECK example_ValidateSearchTopk).

(** The scenario of the specification: a term filter and no
    vector-parameter block. *)
Lemma DeserializeDslToBoolQuery_vector_param_count_witness :
  ∃ st, compile [] term_dsl (new_BooleanQuery, new_Query)
        = (Returned st, (new_BooleanQuery, new_Query)) ∧
        ok st = false ∧ error_class (code st) = InvalidArgument.
Proof.
  apply (DeserializeDslToBoolQuery_vector_param_count unit example_json_parse
           example_JSON_NULL_CHECK example_JSON_OBJECT_CHECK example_ValidateSearchTopk
           [] term_dsl (new_BooleanQuery, new_Query)).
  simpl. lia.
Defined.

Example no_vector_param_evaluated :
  compile [] term_dsl (new_BooleanQuery, new_Query)
  = (Returned (mkStatus SERVER_INVALID_DSL_PARAMETER
                 "There should only be one vector query"),
     (new_BooleanQuery, new_Query)).
Proof. vm_compute. reflexivity. Qed.

Example two_vector_params_evaluated :
  compile [example_vector_param; example_vector_param] search_dsl
    (new_BooleanQuery, new_Query)
  = (Returned (mkStatus SERVER_INVALID_DSL_PARAMETER
                 "There should only be one vector query"),
     (new_BooleanQuery, new_Query)).
Proof. vm_compute. reflexivity. Qed.

Lemma example_ValidateSearchTopk_class k :
  ok (example_ValidateSearchTopk k) = false →
  error_class (code (example_ValidateSearchTopk k)) = InvalidArgument.
Proof. unfold example_ValidateSearchTopk. by case_decide. Defined.

(** A filter whose top level is [must] instead of [bool], with a block that
    has a descriptor: the call is refused. *)
Example missing_bool_refused :
  let r := compile [example_vector_param] no_bool_dsl (new_BooleanQuery, new_Query) in
  ∃ st, r.1 = Returned st ∧ ok st = false ∧
        error_class (code st) = InvalidArgument ∧
        r.2.1 = new_BooleanQuery.
Proof.
  intros r.
  apply (DeserializeDslToBoolQuery_missing_bool_defined unit example_json_parse
           example_JSON_NULL_CHECK example_JSON_OBJECT_CHECK example_ValidateSearchTopk
           [example_vector_param] no_bool_dsl (Jobject [("must", Jarray [])])
           new_BooleanQuery new_Query).
  - exact example_ValidateSearchTopk_class.
  - reflexivity.
  - reflexivity.
  - vm_compute. discriminate.
Qed.

(** The same filter with a block whose text is the empty object. *)
Lemma DeserializeDslToBoolQuery_missing_bool_witness :
  DeserializeDslToBoolQuery unit block_json_parse example_JSON_NULL_CHECK
    example_JSON_OBJECT_CHECK example_ValidateSearchTopk
    [empty_block] no_bool_dsl (new_BooleanQuery, new_Query)
  = (UndefinedBehaviour, (new_BooleanQuery, new_Query)).
Proof.
  apply (DeserializeDslToBoolQuery_missing_bool unit block_json_parse
           example_JSON_NULL_CHECK example_JSON_OBJECT_CHECK example_ValidateSearchTopk
           empty_block no_bool_dsl (Jobject [("must", Jarray [])])
           (new_BooleanQuery, new_Query)).
  - reflexivity.
  - reflexivity.
  - reflexivity.
  - reflexivity.
Defined.

Example missing_bool_evaluated :
  (compile [example_vector_param] no_bool_dsl (new_BooleanQuery, new_Query)).1
  = Returned (mkStatus SERVER_INVALID_DSL_PARAMETER "DSL does not include bool query").
Proof. vm_compute. reflexivity. Qed.

(** A vector-parameter block that is the empty object: the key of its
    first member is read through an end iterator. *)
Example empty_vector_param_undefined :
  (DeserializeDslToBoolQuery unit
     (λ text, if decide (text = "{}") then Parsed (Jobject [])
              else example_json_parse text)
     example_JSON_NULL_CHECK example_JSON_OBJECT_CHECK example_ValidateSearchTopk
     [mkVectorParam "{}" []] no_bool_dsl (new_BooleanQuery, new_Query)).1
  = UndefinedBehaviour.
Proof. vm_compute. reflexivity. Qed.

(** A filter expression that does not parse. *)
Lemma DeserializeDslToBoolQuery_catches_witness :
  compile [example_vector_param] "{'bool'" (new_BooleanQuery, new_Query)
  = (Returned (mkStatus SERVER_INVALID_DSL_PARAMETER parse_error_101),
     (new_BooleanQuery, new_Query)) ∧
  error_class SERVER_INVALID_DSL_PARAMETER = InvalidArgument ∧
  ∀ vector_params0 dsl_string0 s0 what0,
    (compile vector_params0 dsl_string0 s0).1 ≠ Thrown what0.
Proof.
  apply (DeserializeDslToBoolQuery_catches unit example_json_parse
           example_JSON_NULL_CHECK example_JSON_OBJECT_CHECK example_ValidateSearchTopk
           [example_vector_param] "{'bool'" (new_BooleanQuery, new_Query)
           parse_error_101 (new_BooleanQuery, new_Query)).
  reflexivity.
Defined.

(** A vector leaf whose placeholder is a number: the conversion throws,
    and the message comes back in the status. *)
Example placeholder_type_error_evaluated :
  ProcessLeafQueryJson example_JSON_NULL_CHECK example_JSON_OBJECT_CHECK
    (Jobject [("vector", Jnumber_integer 1)]) (new_BooleanQuery, "")
  = (Thrown "[json.exception.type_error.302] type must be string, but is number",
     (new_BooleanQuery, "")).
Proof. vm_compute. reflexivity. Qed.

(** A search that compiles: a term and a vector leaf under [must]. *)
Example search_dsl_compiles :
  compile [example_vector_param] search_dsl (new_BooleanQuery, new_Query)
  = (Returned Status_OK,
     (mkBooleanQuery MUST []
        [mkLeafQuery (Some (Jobject [("age", Jobject [("values",
            Jarray [Jnumber_integer 1; Jnumber_integer 2; Jnumber_integer 3])])]))
           None "";
         mkLeafQuery None None "placeholder_1"],
      mkQuery unit "" ({["age"]} ∪ ({["vec"]} ∪ ∅))
        {["placeholder_1" :=
            mkVectorQuery "vec" 10 "L2" (Jobject [("nprobe", Jnumber_integer 8)])
              (mkVectorRecord 1 [0; 0] [])]}
        {["vec" := "L2"]} [] None)).
Proof. vm_compute. reflexivity. Qed.
End CompilerFacts.

(** ** The search handler *)

Module SearchFacts.
Import Json Compiler SearchHandler.

Section WithEngine.
Variable BinaryQuery DataChunk FieldElementMappings FieldValues : Type.
Variable ConnectionContext : Type.
Variable json_parse : string → parsed.
Variable JSON_NULL_CHECK : json → option Status.
Variable JSON_OBJECT_CHECK : json → option Status.
Variable ValidateSearchTopk : Z → Status.
Variable GetCollectionInfo : ConnectionContext → string → Status.
Variable ValidateBooleanQuery : BooleanQuery → Status.
Variable GenBinaryQuery : BooleanQuery → BinaryQuery.
Variable ValidateBinaryQuery : BinaryQuery → bool.
Variable req_handler_Search :
  ConnectionContext → Query BinaryQuery → json →
  Status * FieldElementMappings * engine_QueryResult DataChunk.
Variable CopyDataChunkToEntity :
  DataChunk → FieldElementMappings → Z → Entities FieldValues → Entities FieldValues.

#[local] Abbreviation Search :=
  (Search BinaryQuery DataChunk FieldElementMappings FieldValues ConnectionContext
     json_parse JSON_NULL_CHECK JSON_OBJECT_CHECK ValidateSearchTopk GetCollectionInfo
     ValidateBooleanQuery GenBinaryQuery ValidateBinaryQuery req_handler_Search
     CopyDataChunkToEntity).
#[local] Abbreviation compile :=
  (DeserializeDslToBoolQuery BinaryQuery json_parse JSON_NULL_CHECK JSON_OBJECT_CHECK
     ValidateSearchTopk).

(** A failed compilation is reported in the status of the response. *)
Lemma Search_compile_failure context request response st s :
  ok (GetCollectionInfo context (collection_name request)) = true →
  compile (vector_param request) (dsl request)
    (new_BooleanQuery, mkQuery BinaryQuery (collection_name request) ∅ ∅ ∅ [] None)
  = (Returned st, s) →
  ok st = false →
  Search context request response
  = (Next (mkQueryResult FieldValues (Some st) (entities _ response)
             (row_num _ response) (distances _ response)), []).
Proof.
  intros Hinfo Hcompile Hfail. unfold SearchHandler.Search.
  rewrite Hinfo. simpl. rewrite Hcompile. destruct s as [boolean_query query_ptr].
  by rewrite Hfail.
Qed.

(** A boolean query that fails its validation is reported in the status of
    the response, too. *)
Lemma Search_invalid_boolean_query context request response st boolean_query query_ptr :
  ok (GetCollectionInfo context (collection_name request)) = true →
  compile (vector_param request) (dsl request)
    (new_BooleanQuery, mkQuery BinaryQuery (collection_name request) ∅ ∅ ∅ [] None)
  = (Returned st, (boolean_query, query_ptr)) →
  ok st = true →
  ok (ValidateBooleanQuery boolean_query) = false →
  Search context request response
  = (Next (mkQueryResult FieldValues (Some (ValidateBooleanQuery boolean_query))
             (entities _ response) (row_num _ response) (distances _ response)), []).
Proof.
  intros Hinfo Hcompile Hok Hfail. unfold SearchHandler.Search.
  rewrite Hinfo. simpl. rewrite Hcompile, Hok. simpl. by rewrite Hfail.
Qed.

(** C9 (a binary tree that fails its validation).  When the boolean query
    compiles and passes [ValidateBooleanQuery] but its binary tree fails
    [ValidateBinaryQuery], [Search] does not invoke the engine's search and
    builds the status [SERVER_INVALID_BINARY_QUERY], which is of class
    Internal and not InvalidArgument.  It writes that status to the status
    slot of the entities of the response; the status slot of the response
    itself, which every other failure of [Search] writes, is left as it
    was. *)
Theorem Search_wrong_binary_query context request response st boolean_query query_ptr :
  ok (GetCollectionInfo context (collection_name request)) = true →
  compile (vector_param request) (dsl request)
    (new_BooleanQuery, mkQuery BinaryQuery (collection_name request) ∅ ∅ ∅ [] None)
  = (Returned st, (boolean_query, query_ptr)) →
  ok st = true →
  ok (ValidateBooleanQuery boolean_query) = true →
  ValidateBinaryQuery (GenBinaryQuery boolean_query) = false →
  ∃ answer,
    Search context request response = (Next answer, []) ∧
    status _ answer = status _ response ∧
    entities_status _ (entities _ answer) = Some wrong_binary_query ∧
    error_class (code wrong_binary_query) = Internal.
Proof.
  intros Hinfo Hcompile Hok Hvalid Hbin. unfold SearchHandler.Search.
  rewrite Hinfo. simpl. rewrite Hcompile, Hok. simpl. rewrite Hvalid. simpl.
  rewrite Hbin. simpl. by eexists.
Qed.
End WithEngine.

#[local] Abbreviation example_Search :=
  (Search BooleanQuery unit unit unit unit example_json_parse example_JSON_NULL_CHECK
     example_JSON_OBJECT_CHECK example_ValidateSearchTopk example_GetCollectionInfo
     example_ValidateBooleanQuery example_GenBinaryQuery example_ValidateBinaryQuery
     example_req_handler_Search example_CopyDataChunkToEntity).

(** The search of the compiler example, with a conversion whose result
    fails the check: the status of the response stays unset. *)
Lemma Search_wrong_binary_query_witness :
  ∃ answer,
    example_Search () example_request new_QueryResult = (Next answer, []) ∧
    status _ answer = status _ new_QueryResult ∧
    entities_status _ (entities _ answer) = Some wrong_binary_query ∧
    error_class (code wrong_binary_query) = Internal.
Proof.
  apply (Search_wrong_binary_query BooleanQuery unit unit unit unit example_json_parse
           example_JSON_NULL_CHECK example_JSON_OBJECT_CHECK example_ValidateSearchTopk
           example_GetCollectionInfo example_ValidateBooleanQuery example_GenBinaryQuery
           example_ValidateBinaryQuery example_req_handler_Search
           example_CopyDataChunkToEntity () example_request new_QueryResult Status_OK
           (DeserializeDslToBoolQuery BooleanQuery example_json_parse
              example_JSON_NULL_CHECK example_JSON_OBJECT_CHECK
              example_ValidateSearchTopk [example_vector_param] search_dsl
              (new_BooleanQuery, mkQuery BooleanQuery "collection" ∅ ∅ ∅ [] None)).2.1
           (DeserializeDslToBoolQuery BooleanQuery example_json_parse
              example_JSON_NULL_CHECK example_JSON_OBJECT_CHECK
              example_ValidateSearchTopk [example_vector_param] search_dsl
              (new_BooleanQuery, mkQuery BooleanQuery "collection" ∅ ∅ ∅ [] None)).2.2).
  - reflexivity.
  - vm_compute. reflexivity.
  - reflexivity.
  - reflexivity.
  - reflexivity.
Defined.

Example Search_wrong_binary_query_evaluated :
  example_Search () example_request new_QueryResult
  = (Next (mkQueryResult unit None
             (mkEntities unit (Some wrong_binary_query) [] [] ()) 0 []), []).
Proof. vm_compute. reflexivity. Qed.

(** The server codes of a compile failure and of the failed check of the
    binary tree differ, but [ErrorMap] has an entry for neither: both go out
    as [UNEXPECTED_ERROR]. *)
Remark ErrorMap_unlisted_codes :
  SERVER_INVALID_DSL_PARAMETER ≠ SERVER_INVALID_BINARY_QUERY ∧
  ErrorMap SERVER_INVALID_DSL_PARAMETER = grpc.UNEXPECTED_ERROR ∧
  ErrorMap SERVER_INVALID_BINARY_QUERY = grpc.UNEXPECTED_ERROR.
Proof. done. Qed.
End SearchFacts.

(** ** Result egress *)

Module EgressFacts.
Import Codec Egress.

(** *** Bytes and little-endian values *)

Lemma byte_to_Z_range b : 0 ≤ byte_to_Z b < 256.
Proof. unfold byte_to_Z. pose proof (Byte.to_N_bounded b). lia. Qed.

Lemma byte_of_to_Z b : byte_of_Z (byte_to_Z b) = b.
Proof. unfold byte_of_Z, byte_to_Z. by rewrite N2Z.id, Byte.of_to_N. Qed.

Lemma byte_to_of_Z z : 0 ≤ z < 256 → byte_to_Z (byte_of_Z z) = z.
Proof.
  intros Hz. unfold byte_of_Z, byte_to_Z.
  destruct (Byte.of_N (Z.to_N z)) as [b|] eqn:Hb; simpl.
  - apply Byte.to_of_N in Hb. rewrite Hb. lia.
  - apply Byte.of_N_None_iff in Hb. lia.
Qed.

Lemma length_le_encode n : ∀ z, length (le_encode n z) = n.
Proof. induction n as [|n IH]; intros z; simpl; [done|]. by rewrite IH. Qed.

Lemma pow_256_succ (n : nat) : 256 ^ Z.of_nat (S n) = 256 * 256 ^ Z.of_nat n.
Proof. rewrite Nat2Z.inj_succ, Z.pow_succ_r; lia. Qed.

Lemma pow_256_pos (n : nat) : 0 < 256 ^ Z.of_nat n.
Proof. apply Z.pow_pos_nonneg; lia. Qed.

Lemma pow_2_8 (n : nat) : 2 ^ (8 * Z.of_nat n) = 256 ^ Z.of_nat n.
Proof. rewrite Z.pow_mul_r by lia. done. Qed.

Lemma le_decode_range bs : 0 ≤ le_decode bs < 256 ^ Z.of_nat (length bs).
Proof.
  induction bs as [|b bs IH]; [simpl; lia|].
  change (length (b :: bs)) with (S (length bs)). rewrite pow_256_succ. simpl.
  pose proof (byte_to_Z_range b). lia.
Qed.

(** Encoding what was decoded gives the bytes back. *)
Lemma le_encode_decode bs : le_encode (length bs) (le_decode bs) = bs.
Proof.
  induction bs as [|b bs IH]; simpl; [done|].
  pose proof (byte_to_Z_range b) as Hb.
  replace (byte_to_Z b + 256 * le_decode bs) with (byte_to_Z b + le_decode bs * 256) by lia.
  rewrite Z_mod_plus_full, Z_div_plus_full by lia.
  rewrite Z.mod_small, Z.div_small by lia.
  by rewrite Z.add_0_l, byte_of_to_Z, IH.
Qed.

(** The [n] low bytes do not see a multiple of [256 ^ n]. *)
Lemma le_encode_shift n : ∀ z k, le_encode n (z + k * 256 ^ Z.of_nat n) = le_encode n z.
Proof.
  induction n as [|n IH]; intros z k; [done|].
  rewrite pow_256_succ. simpl.
  replace (z + k * (256 * 256 ^ Z.of_nat n)) with (z + (k * 256 ^ Z.of_nat n) * 256) by lia.
  rewrite Z_mod_plus_full, Z_div_plus_full by lia. by rewrite IH.
Qed.

Lemma le_encode_to_signed n u : le_encode n (to_signed n u) = le_encode n u.
Proof.
  unfold to_signed. case_decide; [done|]. rewrite pow_2_8.
  replace (u - 256 ^ Z.of_nat n) with (u + (-1) * 256 ^ Z.of_nat n) by lia.
  apply le_encode_shift.
Qed.

Lemma le_decode_encode n : ∀ z, 0 ≤ z < 256 ^ Z.of_nat n → le_decode (le_encode n z) = z.
Proof.
  induction n as [|n IH]; intros z Hz.
  - simpl in *. lia.
  - rewrite pow_256_succ in Hz. simpl.
    rewrite byte_to_of_Z by (apply Z.mod_pos_bound; lia).
    rewrite IH.
    + pose proof (Z.div_mod z 256). lia.
    + split; [apply Z.div_pos; lia | apply Z.div_lt_upper_bound; lia].
Qed.

Lemma le_decode_encode_mod n z : le_decode (le_encode n z) = z mod 256 ^ Z.of_nat n.
Proof.
  pose proof (pow_256_pos n) as Hpos.
  rewrite (Z.div_mod z (256 ^ Z.of_nat n)) at 1 by lia.
  replace (256 ^ Z.of_nat n * (z `div` 256 ^ Z.of_nat n) + z `mod` 256 ^ Z.of_nat n)
    with (z `mod` 256 ^ Z.of_nat n + (z `div` 256 ^ Z.of_nat n) * 256 ^ Z.of_nat n) by lia.
  rewrite le_encode_shift. apply le_decode_encode. apply Z.mod_pos_bound. lia.
Qed.

(** A signed value in range comes back from its bit pattern. *)
Lemma to_signed_mod (n : nat) v :
  (0 < n)%nat →
  - 2 ^ (8 * Z.of_nat n - 1) ≤ v < 2 ^ (8 * Z.of_nat n - 1) →
  to_signed n (v mod 256 ^ Z.of_nat n) = v.
Proof.
  intros Hn Hv. unfold to_signed. rewrite pow_2_8.
  assert (256 ^ Z.of_nat n = 2 * 2 ^ (8 * Z.of_nat n - 1)) as Hhalf.
  { rewrite <-pow_2_8, <-Z.pow_succ_r by lia. f_equal. lia. }
  assert (0 < 2 ^ (8 * Z.of_nat n - 1)) by (apply Z.pow_pos_nonneg; lia).
  destruct (decide (0 ≤ v)) as [Hpos|Hneg].
  - rewrite Z.mod_small by lia. rewrite decide_True by lia. done.
  - replace (v mod 256 ^ Z.of_nat n) with (v + 256 ^ Z.of_nat n).
    + rewrite decide_False by lia. lia.
    + apply Z.mod_unique with (-1); lia.
Qed.

(** *** Rows *)

Lemma length_bytes_at data offset len :
  (offset + len ≤ length data)%nat → length (bytes_at data offset len) = len.
Proof. intros H. unfold bytes_at. rewrite length_take, length_drop. lia. Qed.

(** Consecutive rows of width [w] make up the prefix they cover. *)
Lemma concat_rows data w n :
  concat ((λ i, bytes_at data (i * w) w) <$> seq 0 n) = take (n * w) data.
Proof.
  induction n as [|n IH]; [by rewrite take_0|].
  rewrite seq_S, fmap_app, concat_app, IH. simpl.
  rewrite app_nil_r. unfold bytes_at. rewrite take_take_drop. f_equal. lia.
Qed.

(** The rows of a concatenation of rows of width [w] are the rows. *)
Lemma rows_of_concat w (rows : list (list byte)) :
  Forall (λ row, length row = w) rows →
  (λ i, bytes_at (concat rows) (i * w) w) <$> seq 0 (length rows) = rows.
Proof.
  induction 1 as [|row rows Hrow Hrows IH]; [done|].
  simpl. f_equal.
  - unfold bytes_at. rewrite drop_0. by rewrite take_app_length'.
  - rewrite <-seq_shift, <-list_fmap_compose. rewrite <-IH at 2.
    apply list_fmap_ext. intros _ i _. simpl. unfold bytes_at.
    by rewrite drop_app_add'.
Qed.

Lemma reencode_rows (w : nat) (value : list byte → Z) data n :
  (n * w ≤ length data)%nat →
  (∀ bs, length bs = w → le_encode w (value bs) = bs) →
  concat (le_encode w <$> ((λ i, value (bytes_at data (i * w) w)) <$> seq 0 n))
  = take (n * w) data.
Proof.
  intros Hlen Hvalue. rewrite <-list_fmap_compose, <-concat_rows. f_equal.
  apply list_fmap_ext. intros k i Hi. simpl.
  apply list_elem_of_lookup_2, elem_of_seq in Hi.
  apply Hvalue, length_bytes_at. nia.
Qed.

Lemma single_size_div data id_size :
  0 < id_size < 2 ^ 63 → single_size_of data id_size = size_of data / id_size.
Proof.
  intros Hid. unfold single_size_of, uint64_wrap.
  rewrite decide_True by lia. by rewrite Z.mod_small by lia.
Qed.

Lemma single_size_exact data (w : nat) id_size :
  0 < id_size < 2 ^ 63 → size_of data = Z.of_nat w * id_size →
  single_size_of data id_size = Z.of_nat w.
Proof.
  intros Hid Hsize. unfold single_size_of, uint64_wrap.
  rewrite decide_True by lia. rewrite Z.mod_small by lia.
  rewrite Hsize. apply Z.div_mul. lia.
Qed.
(** *** Scalar columns *)

Lemma size_of_row_indices {A} (f : nat → A) id_size :
  0 ≤ id_size → size_of (f <$> row_indices id_size) = id_size.
Proof.
  intros Hid. unfold size_of, row_indices. rewrite length_fmap, length_seq. lia.
Qed.

(** A scalar column of [id_size] values of the width of its type is copied
    value by value, and encoding the values again gives the column back. *)
Theorem copy_field_scalar_reencodes name type (w : nat) data id_size :
  scalar_width type = Some w →
  0 < id_size ≤ INT_MAX →
  size_of data = Z.of_nat w * id_size →
  ∃ field,
    copy_field name type data id_size = Val field ∧
    ef_field_name field = name ∧ ef_type field = type ∧
    ef_vector_record field = [] ∧
    size_of (scalar_values type (ef_attr_record field)) = id_size ∧
    concat (le_encode w <$> scalar_values type (ef_attr_record field)) = data.
Proof.
  intros Hw Hid Hsize. unfold INT_MAX in Hid.
  assert (0 < id_size < 2 ^ 63) as Hid' by lia.
  pose proof (single_size_exact data w id_size Hid' Hsize) as Hsingle.
  assert (length data = (Z.to_nat id_size * w)%nat) as Hlen
    by (unfold size_of in Hsize; nia).
  assert (∀ value : list byte → Z,
            (∀ bs, length bs = w → le_encode w (value bs) = bs) →
            concat (le_encode w <$>
                      ((λ i, value (bytes_at data (i * w) w)) <$> row_indices id_size))
            = data) as Hbytes.
  { intros value Hvalue. unfold row_indices.
    rewrite reencode_rows by (done || lia). apply take_ge. lia. }
  destruct type; try discriminate Hw; injection Hw as <-;
    unfold copy_field, counted_by_int, copy_scalars, INT_MAX;
    rewrite decide_True by lia; rewrite decide_True by lia;
    rewrite decide_True by done;
    (eexists; split; [reflexivity|]);
    (split; [done|]); (split; [done|]); (split; [done|]);
    (split; [apply size_of_row_indices; lia|]);
    cbn [scalar_values ef_attr_record int32_value int64_value float_value double_value];
    [ apply (Hbytes (λ bs, to_signed 4 (le_decode bs)))
    | apply (Hbytes (λ bs, to_signed 8 (le_decode bs)))
    | apply (Hbytes le_decode)
    | apply (Hbytes le_decode) ];
    intros bs Hbs; rewrite ?le_encode_to_signed;
    rewrite <-Hbs at 1; apply le_encode_decode.
Qed.

(** Two [int32] values, 42 and -1. *)
Lemma copy_field_scalar_reencodes_witness :
  let data := [x2a; x00; x00; x00; xff; xff; xff; xff] in
  ∃ field,
    copy_field "age" INT32 data 2 = Val field ∧
    ef_field_name field = "age" ∧ ef_type field = INT32 ∧
    ef_vector_record field = [] ∧
    size_of (scalar_values INT32 (ef_attr_record field)) = 2 ∧
    concat (le_encode 4 <$> scalar_values INT32 (ef_attr_record field)) = data.
Proof.
  apply (copy_field_scalar_reencodes "age" INT32 4
           [x2a; x00; x00; x00; xff; xff; xff; xff] 2).
  - reflexivity.
  - vm_compute. split; [reflexivity | discriminate].
  - reflexivity.
Defined.

Lemma length_concat_le_encode (w : nat) vs :
  length (concat (le_encode w <$> vs)) = (length vs * w)%nat.
Proof.
  induction vs as [|v vs IH]; [done|].
  rewrite fmap_cons. cbn [concat]. rewrite length_app, length_le_encode, IH.
  simpl. lia.
Qed.

Lemma decode_le_encode type (w : nat) v :
  scalar_width type = Some w → scalar_in_range type v →
  (match type with
   | INT32 | INT64 => λ bs, to_signed w (le_decode bs)
   | _ => le_decode
   end) (le_encode w v) = v.
Proof.
  intros Hw Hv.
  destruct type; try discriminate Hw; injection Hw as <-; simpl in Hv;
    first [ rewrite le_decode_encode_mod; apply to_signed_mod; [lia | lia]
          | apply le_decode_encode; lia ].
Qed.

(** Conversely, a column that holds the encodings of [vs] is copied to
    exactly the values [vs], signs included. *)
Theorem copy_field_scalar_decodes name type (w : nat) vs :
  scalar_width type = Some w →
  vs ≠ [] → size_of vs ≤ INT_MAX →
  Forall (scalar_in_range type) vs →
  ∃ field,
    copy_field name type (concat (le_encode w <$> vs)) (size_of vs) = Val field ∧
    scalar_values type (ef_attr_record field) = vs.
Proof.
  intros Hw Hne Hmax Hrange. unfold INT_MAX in Hmax.
  assert (size_of vs < 2 ^ 63) as Hsize by lia.
  assert (0 < size_of vs) as Hpos by (destruct vs; [done | unfold size_of; simpl; lia]).
  assert (size_of (concat (le_encode w <$> vs)) = Z.of_nat w * size_of vs) as Hlen
    by (unfold size_of; rewrite length_concat_le_encode; lia).
  pose proof (single_size_exact _ w (size_of vs) (conj Hpos Hsize) Hlen) as Hsingle.
  assert (∀ value : list byte → Z,
            (∀ v, scalar_in_range type v → value (le_encode w v) = v) →
            (λ i, value (bytes_at (concat (le_encode w <$> vs)) (i * w) w))
              <$> row_indices (size_of vs) = vs) as Hvalues.
  { intros value Hvalue. unfold row_indices, size_of. rewrite Nat2Z.id.
    trans (value <$> ((λ i, bytes_at (concat (le_encode w <$> vs)) (i * w) w)
                        <$> seq 0 (length (le_encode w <$> vs)))).
    { rewrite <-list_fmap_compose, length_fmap. reflexivity. }
    rewrite rows_of_concat.
    - rewrite <-list_fmap_compose.
      rewrite <-(list_fmap_id vs) at 2. apply list_fmap_ext.
      intros k v Hv. simpl. apply Hvalue.
      exact (proj1 (Forall_lookup _ vs) Hrange k v Hv).
    - apply Forall_fmap, Forall_true. intros v. apply length_le_encode. }
  destruct type; try discriminate Hw; injection Hw as <-;
    unfold copy_field, counted_by_int, copy_scalars, INT_MAX;
    rewrite decide_True by lia; rewrite decide_True by lia;
    rewrite decide_True by done;
    (eexists; split; [reflexivity|]);
    cbn [scalar_values ef_attr_record int32_value int64_value float_value double_value];
    [ apply (Hvalues (λ bs, to_signed 4 (le_decode bs)))
    | apply (Hvalues (λ bs, to_signed 8 (le_decode bs)))
    | apply (Hvalues le_decode)
    | apply (Hvalues le_decode) ];
    intros v Hv.
  - by apply (decode_le_encode INT32 4).
  - by apply (decode_le_encode INT64 8).
  - by apply (decode_le_encode FLOAT 4).
  - by apply (decode_le_encode DOUBLE 8).
Qed.

(** The [int64] values 42 and -1. *)
Lemma copy_field_scalar_decodes_witness :
  ∃ field,
    copy_field "id" INT64 (concat (le_encode 8 <$> [42; -1])) (size_of [42; -1])
      = Val field ∧
    scalar_values INT64 (ef_attr_record field) = [42; -1].
Proof.
  apply (copy_field_scalar_decodes "id" INT64 8 [42; -1]).
  - reflexivity.
  - discriminate.
  - vm_compute. discriminate.
  - repeat constructor; vm_compute; discriminate.
Defined.

(** When the bytes per row are not the width of the scalar type, the copy
    into the variable of that type is undefined: nothing checks it. *)
Theorem copy_field_scalar_width_mismatch name type (w : nat) data id_size :
  scalar_width type = Some w →
  0 < id_size →
  size_of data / id_size ≠ Z.of_nat w →
  copy_field name type data id_size = Undef.
Proof.
  intros Hw Hid Hne.
  destruct (decide (id_size ≤ INT_MAX)) as [Hmax|Hmax]; cycle 1.
  { destruct type; try discriminate Hw;
      unfold copy_field, counted_by_int; by rewrite decide_False. }
  assert (single_size_of data id_size = size_of data / id_size) as Hsingle
    by (apply single_size_div; unfold INT_MAX in Hmax; lia).
  destruct type; try discriminate Hw; injection Hw as <-;
    unfold copy_field, counted_by_int, copy_scalars;
    rewrite decide_True by done; rewrite decide_True by lia;
    rewrite decide_False by (rewrite Hsingle; done); done.
Qed.

(** An [int32] field whose column holds eight bytes for one row. *)
Lemma copy_field_scalar_width_mismatch_witness :
  copy_field "age" INT32 [x2a; x00; x00; x00; x00; x00; x00; x00] 1 = Undef.
Proof.
  apply (copy_field_scalar_width_mismatch "age" INT32 4
           [x2a; x00; x00; x00; x00; x00; x00; x00] 1).
  - reflexivity.
  - lia.
  - vm_compute. discriminate.
Defined.

(** *** Vector columns *)

Lemma row_lengths (data : list byte) id_size i :
  0 < id_size →
  (i < Z.to_nat id_size)%nat →
  (i * Z.to_nat (size_of data / id_size) + Z.to_nat (size_of data / id_size)
   ≤ length data)%nat.
Proof.
  intros Hid Hi.
  pose proof (Z.mul_div_le (size_of data) id_size Hid) as Hle.
  assert (0 ≤ size_of data / id_size) as Hnn
    by (apply Z.div_pos; [unfold size_of|]; lia).
  unfold size_of in *.
  set (q := Z.of_nat (length data) / id_size) in *.
  assert (Z.of_nat i + 1 ≤ id_size) as Hi' by lia.
  assert ((Z.of_nat i + 1) * q ≤ id_size * q) as Hmul
    by (apply Z.mul_le_mono_nonneg_r; lia).
  nia.
Qed.

(** A binary-vector column is cut into [id_size] rows of
    [data.size() / id_size] bytes each, in order: together they are the
    prefix of the column that whole rows cover, the whole column when its
    size is a multiple of [id_size]. *)
Theorem copy_field_binary_rows name data id_size :
  0 < id_size ≤ INT_MAX →
  ∃ rows,
    copy_field name VECTOR_BINARY data id_size
      = Val (mkEntityField name VECTOR_BINARY empty_AttrRecord rows) ∧
    size_of rows = id_size ∧
    Forall (λ r, float_data r = [] ∧
                 size_of (binary_data r) = size_of data / id_size) rows ∧
    concat (binary_data <$> rows)
      = take (Z.to_nat (id_size * (size_of data / id_size))) data ∧
    (size_of data mod id_size = 0 → concat (binary_data <$> rows) = data).
Proof.
  intros Hid. pose proof Hid as [Hpos Hmax]. unfold INT_MAX in Hmax.
  assert (single_size_of data id_size = size_of data / id_size) as Hsingle
    by (apply single_size_div; lia).
  assert (0 ≤ size_of data / id_size) as Hnn
    by (apply Z.div_pos; [unfold size_of|]; lia).
  unfold copy_field, counted_by_int. rewrite decide_True by (unfold INT_MAX; lia).
  eexists. split; [reflexivity|].
  unfold copy_binary_rows. rewrite Hsingle.
  assert (concat (binary_data <$>
            ((λ i, mkVectorRowRecord []
                     (bytes_at data (i * Z.to_nat (size_of data / id_size))
                        (Z.to_nat (size_of data / id_size))))
               <$> row_indices id_size))
          = take (Z.to_nat (id_size * (size_of data / id_size))) data) as Hconcat.
  { rewrite <-list_fmap_compose. unfold row_indices.
    etrans; [apply (concat_rows data (Z.to_nat (size_of data / id_size)))|].
    f_equal. rewrite Z2Nat.inj_mul by lia. done. }
  split; [apply size_of_row_indices; lia|].
  split; [|split; [exact Hconcat|]].
  - apply Forall_fmap, Forall_forall. intros i Hi.
    apply elem_of_seq in Hi. simpl. split; [done|].
    unfold size_of at 1. rewrite length_bytes_at; [lia|].
    apply row_lengths; lia.
  - intros Hmod. rewrite Hconcat. apply take_ge.
    apply Z.div_exact in Hmod; [|lia]. unfold size_of in *. lia.
Qed.

(** Seven bytes for three rows: rows of two bytes, the seventh byte is in
    no row. *)
Lemma copy_field_binary_rows_witness :
  let data := [x01; x02; x03; x04; x05; x06; x07] in
  ∃ rows,
    copy_field "bits" VECTOR_BINARY data 3
      = Val (mkEntityField "bits" VECTOR_BINARY empty_AttrRecord rows) ∧
    size_of rows = 3 ∧
    Forall (λ r, float_data r = [] ∧ size_of (binary_data r) = size_of data / 3) rows ∧
    concat (binary_data <$> rows) = take (Z.to_nat (3 * (size_of data / 3))) data ∧
    (size_of data mod 3 = 0 → concat (binary_data <$> rows) = data).
Proof.
  apply (copy_field_binary_rows "bits" [x01; x02; x03; x04; x05; x06; x07] 3).
  vm_compute. split; [reflexivity | discriminate].
Defined.

Lemma float_row_reencodes row (n : nat) :
  length row = (n * 4)%nat →
  float_row_bytes (mkVectorRowRecord (row_floats row n) []) = row.
Proof.
  intros Hlen. unfold float_row_bytes, row_floats. simpl float_data.
  rewrite (reencode_rows 4 le_decode row n).
  - apply take_ge. lia.
  - lia.
  - intros bs Hbs. rewrite <-Hbs at 1. apply le_encode_decode.
Qed.

(** A float-vector column whose rows are whole floats is cut into [id_size]
    rows of [data.size() / id_size / 4] floats, and the bytes of the rows are
    again the prefix of the column that whole rows cover. *)
Theorem copy_field_float_rows name data id_size :
  0 < id_size ≤ INT_MAX →
  (size_of data / id_size) mod 4 = 0 →
  ∃ rows,
    copy_field name VECTOR_FLOAT data id_size
      = Val (mkEntityField name VECTOR_FLOAT empty_AttrRecord rows) ∧
    size_of rows = id_size ∧
    Forall (λ r, binary_data r = [] ∧
                 4 * size_of (float_data r) = size_of data / id_size) rows ∧
    concat (float_row_bytes <$> rows)
      = take (Z.to_nat (id_size * (size_of data / id_size))) data ∧
    (size_of data mod id_size = 0 → concat (float_row_bytes <$> rows) = data).
Proof.
  intros Hid Hfour. pose proof Hid as [Hpos Hmax]. unfold INT_MAX in Hmax.
  assert (single_size_of data id_size = size_of data / id_size) as Hsingle
    by (apply single_size_div; lia).
  assert (0 ≤ size_of data / id_size) as Hnn
    by (apply Z.div_pos; [unfold size_of|]; lia).
  unfold copy_field, counted_by_int, copy_float_rows.
  rewrite decide_True by (unfold INT_MAX; lia).
  rewrite decide_True by lia. rewrite decide_True by (by rewrite Hsingle).
  eexists. split; [reflexivity|]. rewrite Hsingle.
  set (ss := Z.to_nat (size_of data / id_size)).
  assert (ss = (ss / 4 * 4)%nat) as Hss.
  { apply Z.div_exact in Hfour; [|lia].
    assert (Z.of_nat ss = 4 * (Z.of_nat ss / Z.of_nat 4)) as Hz
      by (unfold ss; rewrite Z2Nat.id by lia; done).
    rewrite <-(Nat2Z.inj_div ss 4) in Hz. lia. }
  assert (∀ i, (i < Z.to_nat id_size)%nat →
               length (bytes_at data (i * ss) ss) = ss) as Hrow.
  { intros i Hi. apply length_bytes_at. apply row_lengths; lia. }
  assert (concat (float_row_bytes <$>
            ((λ i, mkVectorRowRecord
                     (row_floats (bytes_at data (i * ss) ss) (ss / 4)) [])
               <$> row_indices id_size))
          = take (Z.to_nat (id_size * (size_of data / id_size))) data) as Hconcat.
  { rewrite <-list_fmap_compose. unfold row_indices.
    trans (concat ((λ i, bytes_at data (i * ss) ss) <$> seq 0 (Z.to_nat id_size))).
    - f_equal. apply list_fmap_ext. intros k i Hi.
      apply list_elem_of_lookup_2, elem_of_seq in Hi. simpl.
      apply float_row_reencodes. rewrite Hrow by lia. exact Hss.
    - rewrite concat_rows. f_equal. unfold ss. rewrite Z2Nat.inj_mul by lia. done. }
  split; [apply size_of_row_indices; lia|].
  split; [|split; [exact Hconcat|]].
  - apply Forall_fmap, Forall_forall. intros i Hi.
    apply elem_of_seq in Hi. unfold compose. cbn [float_data binary_data].
    split; [done|].
    unfold size_of at 1, row_floats. rewrite length_fmap, length_seq.
    assert (Z.of_nat ss = size_of data / id_size) as Hz by (unfold ss; lia).
    rewrite <-Hz. set (q := (ss / 4)%nat) in *. lia.
  - intros Hmod. rewrite Hconcat. apply take_ge.
    apply Z.div_exact in Hmod; [|lia]. unfold size_of in *. lia.
Qed.

(** Two rows of one float each: 1.0 and 2.0. *)
Lemma copy_field_float_rows_witness :
  let data := [x00; x00; x80; x3f; x00; x00; x00; x40] in
  ∃ rows,
    copy_field "vec" VECTOR_FLOAT data 2
      = Val (mkEntityField "vec" VECTOR_FLOAT empty_AttrRecord rows) ∧
    size_of rows = 2 ∧
    Forall (λ r, binary_data r = [] ∧ 4 * size_of (float_data r) = size_of data / 2) rows ∧
    concat (float_row_bytes <$> rows) = take (Z.to_nat (2 * (size_of data / 2))) data ∧
    (size_of data mod 2 = 0 → concat (float_row_bytes <$> rows) = data).
Proof.
  apply (copy_field_float_rows "vec" [x00; x00; x80; x3f; x00; x00; x00; x40] 2).
  - vm_compute. split; [reflexivity | discriminate].
  - reflexivity.
Defined.

(** When the bytes per row are not a multiple of four, the copy of a row
    overruns the buffer of [single_size / 4] floats. *)
Theorem copy_field_float_rows_misaligned name data id_size :
  0 < id_size →
  (size_of data / id_size) mod 4 ≠ 0 →
  copy_field name VECTOR_FLOAT data id_size = Undef.
Proof.
  intros Hid Hne. unfold copy_field, counted_by_int, copy_float_rows.
  case_decide as Hmax; [|done]. unfold INT_MAX in Hmax.
  rewrite decide_True by lia.
  rewrite decide_False; [done|]. by rewrite single_size_div by lia.
Qed.

(** Six bytes for one row. *)
Lemma copy_field_float_rows_misaligned_witness :
  copy_field "vec" VECTOR_FLOAT [x00; x00; x80; x3f; x00; x00] 1 = Undef.
Proof.
  apply (copy_field_float_rows_misaligned "vec" [x00; x00; x80; x3f; x00; x00] 1).
  - lia.
  - vm_compute. discriminate.
Defined.

(** *** The loop over the fields *)

Lemma copy_field_name_type name type data id_size field :
  copy_field name type data id_size = Val field →
  ef_field_name field = name ∧ ef_type field = type.
Proof.
  unfold copy_field, counted_by_int. intros H.
  destruct type; repeat case_decide; try done;
    repeat match type of H with
           | match ?r with _ => _ end = _ => destruct r; try done
           end;
    by injection H as <-.
Qed.

Lemma copy_fields_spec chunk field_mappings id_size : ∀ fields out,
  copy_fields chunk field_mappings id_size fields = Val out →
  ∃ new,
    out = fields ++ new ∧
    (λ f, (ef_field_name f, ef_type f)) <$> new
      = List.filter (λ nt, has_data chunk nt.1) field_mappings.
Proof.
  induction field_mappings as [|[name type] rest IH]; intros fields out Hout.
  - simpl in Hout. injection Hout as <-. exists []. by rewrite app_nil_r.
  - simpl in Hout. unfold has_data at 1. simpl.
    destruct (chunk !! name) as [[[|b data]|]|] eqn:Hname;
      try (destruct (IH _ _ Hout) as (new & -> & Hnew); by exists new).
    destruct (copy_field name type (b :: data) id_size) as [field| |] eqn:Hfield;
      try done.
    destruct (IH _ _ Hout) as (new & -> & Hnew).
    exists (field :: new). split; [by rewrite <-app_assoc|].
    rewrite fmap_cons, Hnew.
    by destruct (copy_field_name_type _ _ _ _ _ Hfield) as [-> ->].
Qed.

(** Whatever the response held stays in front, and one field is added, in
    the order of the mappings, for exactly the mapped fields with a non-null,
    non-empty column, each under its own name and type. *)
Theorem CopyDataChunkToEntity_fields data_chunk field_mappings id_size fields out :
  CopyDataChunkToEntity data_chunk field_mappings id_size fields = Val out →
  ∃ new,
    out = fields ++ new ∧
    (λ f, (ef_field_name f, ef_type f)) <$> new
      = match data_chunk with
        | None => []
        | Some chunk => List.filter (λ nt, has_data chunk nt.1) field_mappings
        end.
Proof.
  destruct data_chunk as [chunk|]; simpl.
  - apply copy_fields_spec.
  - intros [= <-]. exists []. by rewrite app_nil_r.
Qed.

(** Three mapped fields: [age] has a column, [name] has a null one and
    [vec] has none. *)
Lemma CopyDataChunkToEntity_fields_witness :
  let chunk : gmap string (option (list byte)) :=
    {["age" := Some [x2a; x00; x00; x00]; "name" := None]} in
  let field_mappings := [("age", INT32); ("name", other_DataType 20); ("vec", VECTOR_FLOAT)] in
  let out := [mkEntityField "age" INT32 (mkAttrRecord [42] [] [] []) []] in
  ∃ new,
    out = [] ++ new ∧
    (λ f, (ef_field_name f, ef_type f)) <$> new
      = List.filter (λ nt, has_data chunk nt.1) field_mappings.
Proof.
  apply (CopyDataChunkToEntity_fields
           (Some {["age" := Some [x2a; x00; x00; x00]; "name" := None]})
           [("age", INT32); ("name", other_DataType 20); ("vec", VECTOR_FLOAT)] 1 []).
  vm_compute. reflexivity.
Defined.
End EgressFacts.

(** ** The life of a registration *)

Module LifecycleFacts.
Import Registry.

Lemma metadata_find_fresh key value md :
  metadata_find key md = None → metadata_find key (md ++ [(key, value)]) = Some value.
Proof.
  induction md as [|[k v] md IH]; simpl.
  - intros _. by rewrite decide_True.
  - case_decide; [done | exact IH].
Qed.

Lemma int64_wrap_succ_ne z : - 2 ^ 63 ≤ z < 2 ^ 63 → int64_wrap (z + 1) ≠ z.
Proof.
  intros Hz. unfold int64_wrap.
  destruct (decide (z = 2 ^ 63 - 1)) as [->|Hne]; [done|].
  rewrite Z.mod_small by lia. lia.
Qed.

Section WithTracer.
Context {T : Tracer}.
Implicit Types (h : handler) (sc : ServerContext).

(** [set_request_id] then [get_request_id] on a call that has no request id
    in its server metadata yet. *)
Lemma get_set_request_id sc request_id :
  metadata_find REQ_ID (server_metadata sc) = None →
  get_request_id (set_request_id sc request_id) = request_id.
Proof.
  intros Hfresh. unfold get_request_id, set_request_id, AddInitialMetadata. simpl.
  by rewrite metadata_find_fresh.
Qed.

(** The registration of a call without a client-chosen id. *)
Lemma generated_request_id_registered method sc recv h span_context :
  Extract (trace_carrier recv) = inr span_context →
  metadata_find "request_id" (client_metadata sc) = None →
  metadata_find REQ_ID (server_metadata sc) = None →
  ∃ h' sc',
    OnPostRecvInitialMetaData method sc recv h = Some (h', sc') ∧
    sc' = set_request_id sc (pretty (_sequential_id h)) ∧
    get_request_id sc' = pretty (_sequential_id h) ∧
    context_map_ h'
    = <[pretty (_sequential_id h) :=
          Some (mkContext (pretty (_sequential_id h))
                  (Some (mkSpan method span_context)) None)]> (context_map_ h) ∧
    _sequential_id h' = int64_wrap (_sequential_id h + 1).
Proof.
  intros HExtract Hclient Hserver.
  pose proof (get_set_request_id sc (pretty (_sequential_id h)) Hserver) as Hkey.
  unfold OnPostRecvInitialMetaData. rewrite HExtract, Hclient.
  unfold get_sequential_id. cbv beta iota zeta.
  eexists _, _. split; [reflexivity|]. split; [reflexivity|]. split; [done|].
  unfold SetContext. rewrite Hkey. by cbn [context_map_ _sequential_id].
Qed.

(** A call without a client-chosen id gets the decimal of the sequential
    counter: the id is written to the server metadata, the counter moves on
    by one, the context is stored under the id and [GetContext] finds it
    there; [OnPreSendMessage] erases the entry again, so that the map is
    what it was when the id was not a key of it. *)
Theorem generated_request_id_lifecycle method sc recv h span_context :
  Extract (trace_carrier recv) = inr span_context →
  metadata_find "request_id" (client_metadata sc) = None →
  metadata_find REQ_ID (server_metadata sc) = None →
  let id := pretty (_sequential_id h) in
  let context := mkContext id (Some (mkSpan method span_context)) None in
  ∃ h' sc',
    OnPostRecvInitialMetaData method sc recv h = Some (h', sc') ∧
    get_request_id sc' = id ∧
    client_metadata sc' = client_metadata sc ∧
    context_map_ h' = <[id := Some context]> (context_map_ h) ∧
    _sequential_id h' = int64_wrap (_sequential_id h + 1) ∧
    (GetContext sc' h').1 = Some (SetConnectionContext sc' context) ∧
    OnPreSendMessage sc' h'
      = Some (mkHandler (delete id (context_map_ h)) (_sequential_id h')) ∧
    (context_map_ h !! id = None →
     OnPreSendMessage sc' h' = Some (mkHandler (context_map_ h) (_sequential_id h'))).
Proof.
  intros HExtract Hclient Hserver. cbv zeta.
  destruct (generated_request_id_registered method sc recv h span_context
              HExtract Hclient Hserver)
    as (h' & sc' & Hrun & -> & Hkey & Hmap & Hseq).
  exists h', (set_request_id sc (pretty (_sequential_id h))).
  split; [done|]. split; [done|]. split; [done|]. split; [done|]. split; [done|].
  unfold GetContext, OnPreSendMessage. rewrite Hkey, Hmap, lookup_insert_eq.
  cbn [fst]. rewrite delete_insert_eq. split; [done|]. split; [done|].
  intros Hnew. by rewrite delete_id.
Qed.

(** A fresh client-chosen id is marked with a null context under the id
    itself, while the context goes under the key that [get_request_id] reads
    (["INVALID_ID"], the id not being written to the server metadata).  When
    the call ends [OnPreSendMessage] erases that key only: the mark of the
    id stays in the map. *)
Theorem client_request_id_mark_stays method sc recv h request_id span_context :
  Extract (trace_carrier recv) = inr span_context →
  metadata_find "request_id" (client_metadata sc) = Some request_id →
  context_map_ h !! request_id = None →
  metadata_find REQ_ID (server_metadata sc) = None →
  request_id ≠ "INVALID_ID" →
  ∃ h1 h2,
    OnPostRecvInitialMetaData method sc recv h = Some (h1, sc) ∧
    OnPreSendMessage sc h1 = Some h2 ∧
    context_map_ h2 = <[request_id := None]> (delete "INVALID_ID" (context_map_ h)) ∧
    context_map_ h2 !! request_id = Some None ∧
    context_map_ h2 ≠ context_map_ h.
Proof.
  intros HExtract Hclient Hfresh Hserver Hne.
  assert (get_request_id sc = "INVALID_ID") as Hkey
    by (unfold get_request_id; by rewrite Hserver).
  unfold OnPostRecvInitialMetaData. rewrite HExtract, Hclient, Hfresh. simpl.
  eexists _, _. split; [reflexivity|].
  unfold SetContext, OnPreSendMessage. rewrite Hkey. simpl.
  rewrite lookup_insert_eq. simpl. split; [reflexivity|]. simpl.
  rewrite delete_insert_eq, delete_insert_ne by done.
  split; [done|]. split; [by rewrite lookup_insert_eq|].
  intros Heq. apply (f_equal (λ m, m !! request_id)) in Heq.
  rewrite lookup_insert_eq, Hfresh in Heq. discriminate.
Qed.

(** Two calls in a row without client-chosen ids get different ids, and the
    registration of the first is still found after the second. *)
Theorem generated_request_ids_distinct
    method1 method2 sc1 sc2 recv1 recv2 h span_context1 span_context2 :
  - 2 ^ 63 ≤ _sequential_id h < 2 ^ 63 →
  Extract (trace_carrier recv1) = inr span_context1 →
  Extract (trace_carrier recv2) = inr span_context2 →
  metadata_find "request_id" (client_metadata sc1) = None →
  metadata_find "request_id" (client_metadata sc2) = None →
  metadata_find REQ_ID (server_metadata sc1) = None →
  metadata_find REQ_ID (server_metadata sc2) = None →
  ∃ h1 sc1' h2 sc2',
    OnPostRecvInitialMetaData method1 sc1 recv1 h = Some (h1, sc1') ∧
    OnPostRecvInitialMetaData method2 sc2 recv2 h1 = Some (h2, sc2') ∧
    get_request_id sc1' ≠ get_request_id sc2' ∧
    (GetContext sc1' h2).1 = (GetContext sc1' h1).1 ∧
    (GetContext sc1' h2).1
      = Some (SetConnectionContext sc1'
                (mkContext (pretty (_sequential_id h))
                   (Some (mkSpan method1 span_context1)) None)).
Proof.
  intros Hrange HExtract1 HExtract2 Hclient1 Hclient2 Hserver1 Hserver2.
  destruct (generated_request_id_registered method1 sc1 recv1 h span_context1
              HExtract1 Hclient1 Hserver1)
    as (h1 & sc1' & Hrun1 & _ & Hkey1 & Hmap1 & Hseq1).
  destruct (generated_request_id_registered method2 sc2 recv2 h1 span_context2
              HExtract2 Hclient2 Hserver2)
    as (h2 & sc2' & Hrun2 & _ & Hkey2 & Hmap2 & _).
  exists h1, sc1', h2, sc2'.
  assert (get_request_id sc1' ≠ get_request_id sc2') as Hne.
  { rewrite Hkey1, Hkey2, Hseq1. intros Heq. apply (inj pretty) in Heq.
    symmetry in Heq. by apply int64_wrap_succ_ne in Heq. }
  split; [done|]. split; [done|]. split; [done|].
  assert ((GetContext sc1' h2).1 = (GetContext sc1' h1).1) as Hsame.
  { unfold GetContext. rewrite Hmap2, lookup_insert_ne by (by rewrite <-Hkey2).
    by destruct (context_map_ h1 !! get_request_id sc1') as [[c|]|]. }
  split; [done|]. rewrite Hsame. unfold GetContext.
  by rewrite Hkey1, Hmap1, lookup_insert_eq.
Qed.

(** Whatever branch it takes, [OnPostRecvInitialMetaData] removes no key
    from the map. *)
Theorem OnPostRecvInitialMetaData_keeps_keys method sc recv h h' sc' key :
  OnPostRecvInitialMetaData method sc recv h = Some (h', sc') →
  is_Some (context_map_ h !! key) → is_Some (context_map_ h' !! key).
Proof.
  unfold OnPostRecvInitialMetaData, SetContext. intros Hrun Hkey.
  destruct (Extract _) as [|span_context]; [by injection Hrun as <- <-|].
  destruct (metadata_find "request_id" _) as [request_id|].
  - destruct (context_map_ h !! request_id) as [c|] eqn:Hc.
    + destruct (find_unused_suffix _ _ _ _) as [t|]; [|done].
      injection Hrun as <- <-. simpl. rewrite !lookup_insert_is_Some'. auto.
    + injection Hrun as <- <-. simpl. rewrite !lookup_insert_is_Some'. auto.
  - injection Hrun as <- <-. simpl. rewrite lookup_insert_is_Some'. auto.
Qed.
End WithTracer.

(** The counter at 7, an empty map. *)
Lemma generated_request_id_lifecycle_witness :
  let method := "/milvus.grpc.MilvusService/Search" in
  let sc := mkServerContext [] [] in
  let h := mkHandler (T := NoopTracer) ∅ 7 in
  let id := pretty (_sequential_id h) in
  let context := mkContext id (Some (mkSpan (T := NoopTracer) method ())) None in
  ∃ h' sc',
    OnPostRecvInitialMetaData method sc [] h = Some (h', sc') ∧
    get_request_id sc' = id ∧
    client_metadata sc' = client_metadata sc ∧
    context_map_ h' = <[id := Some context]> (context_map_ h) ∧
    _sequential_id h' = int64_wrap (_sequential_id h + 1) ∧
    (GetContext sc' h').1 = Some (SetConnectionContext sc' context) ∧
    OnPreSendMessage sc' h'
      = Some (mkHandler (delete id (context_map_ h)) (_sequential_id h')) ∧
    (context_map_ h !! id = None →
     OnPreSendMessage sc' h' = Some (mkHandler (context_map_ h) (_sequential_id h'))).
Proof.
  apply (generated_request_id_lifecycle (T := NoopTracer)
           "/milvus.grpc.MilvusService/Search" (mkServerContext [] []) []
           (mkHandler ∅ 7) ()); reflexivity.
Defined.

(** The id ["abc"] on an empty map. *)
Lemma client_request_id_mark_stays_witness :
  let method := "/milvus.grpc.MilvusService/Search" in
  let sc := mkServerContext [("request_id", "abc")] [] in
  let h := mkHandler (T := NoopTracer) ∅ 7 in
  ∃ h1 h2,
    OnPostRecvInitialMetaData method sc [] h = Some (h1, sc) ∧
    OnPreSendMessage sc h1 = Some h2 ∧
    context_map_ h2 = <["abc" := None]> (delete "INVALID_ID" (context_map_ h)) ∧
    context_map_ h2 !! "abc" = Some None ∧
    context_map_ h2 ≠ context_map_ h.
Proof.
  apply (client_request_id_mark_stays (T := NoopTracer)
           "/milvus.grpc.MilvusService/Search"
           (mkServerContext [("request_id", "abc")] []) [] (mkHandler ∅ 7) "abc" ());
    try reflexivity.
  discriminate.
Defined.

(** A search and an insert, the counter at 7. *)
Lemma generated_request_ids_distinct_witness :
  let sc := mkServerContext [] [] in
  let h := mkHandler (T := NoopTracer) ∅ 7 in
  ∃ h1 sc1' h2 sc2',
    OnPostRecvInitialMetaData "Search" sc [] h = Some (h1, sc1') ∧
    OnPostRecvInitialMetaData "Insert" sc [] h1 = Some (h2, sc2') ∧
    get_request_id sc1' ≠ get_request_id sc2' ∧
    (GetContext sc1' h2).1 = (GetContext sc1' h1).1 ∧
    (GetContext sc1' h2).1
      = Some (SetConnectionContext sc1'
                (mkContext (pretty (_sequential_id h))
                   (Some (mkSpan (T := NoopTracer) "Search" ())) None)).
Proof.
  apply (generated_request_ids_distinct (T := NoopTracer) "Search" "Insert"
           (mkServerContext [] []) (mkServerContext [] []) [] [] (mkHandler ∅ 7) () ());
    try reflexivity.
  simpl. lia.
Defined.

(** The key ["abc"] survives the registration of a call that brings the
    same id. *)
Lemma OnPostRecvInitialMetaData_keeps_keys_witness :
  let sc := mkServerContext [("request_id", "abc")] [] in
  let h := mkHandler (T := NoopTracer) {["abc" := None]} 7 in
  is_Some
    (context_map_
       (mkHandler (T := NoopTracer)
          (<["INVALID_ID" := Some (mkContext "abc" (Some (mkSpan (T := NoopTracer) "Search" ())) None)]>
             (<["abc_1" := None]> {["abc" := None]})) 7) !! "abc").
Proof.
  apply (OnPostRecvInitialMetaData_keeps_keys (T := NoopTracer) "Search"
           (mkServerContext [("request_id", "abc")] []) []
           (mkHandler {["abc" := None]} 7) _
           (mkServerContext [("request_id", "abc")] []) "abc").
  - vm_compute. reflexivity.
  - exists None. reflexivity.
Defined.
End LifecycleFacts.

(** ** Release of the insert budget *)

Module DrainFacts.
Import Admission Drain.

(** [Insert] runs [WaitToInsert] and [FinishInsert] with the same size: the
    second undoes the first.  The budget that is left after the admission is
    positive. *)
Theorem WaitToInsert_FinishInsert_restores g size g' :
  0 ≤ max_concurrent_insert_request_size g < 2 ^ 63 →
  0 ≤ size < 2 ^ 63 →
  WaitToInsert size g = Some g' →
  max_concurrent_insert_request_size g' = max_concurrent_insert_request_size g - size ∧
  0 < max_concurrent_insert_request_size g' ∧
  FinishInsert size g' = g.
Proof.
  intros Hbudget Hsize Hwait. unfold WaitToInsert, wait_predicate in Hwait.
  case_bool_decide as Hgt; [|discriminate]. injection Hwait as <-.
  rewrite AdmissionFacts.int64_wrap_id in Hgt by lia.
  unfold FinishInsert. simpl. rewrite AdmissionFacts.int64_wrap_id by lia.
  split; [done|]. split; [done|].
  rewrite AdmissionFacts.int64_wrap_id by lia. destruct g as [total budget]. simpl.
  f_equal. lia.
Qed.

Lemma WaitToInsert_FinishInsert_restores_witness :
  max_concurrent_insert_request_size (mkGate 10 6) = 10 - 4 ∧
  0 < max_concurrent_insert_request_size (mkGate 10 6) ∧
  FinishInsert 4 (mkGate 10 6) = init 10.
Proof.
  apply (WaitToInsert_FinishInsert_restores (init 10) 4 (mkGate 10 6)).
  - simpl. lia.
  - lia.
  - reflexivity.
Defined.

Lemma in_flight_count_lookup cs :
  in_flight_count cs ≠ 0%nat → ∃ j size, cs !! j = Some (mkCall size InFlight).
Proof.
  induction cs as [|[size p] cs IH]; simpl; [done|].
  case_decide as Hp; simpl in Hp.
  - intros _. exists 0%nat, size. by rewrite Hp.
  - intros Hn. destruct (IH Hn) as (j & sz & Hj). by exists (S j), sz.
Qed.

Lemma in_flight_count_finish cs : ∀ j size,
  cs !! j = Some (mkCall size InFlight) →
  S (in_flight_count (<[j := mkCall size Finished]> cs)) = in_flight_count cs.
Proof.
  induction cs as [|c cs IH]; intros [|j] size Hj; simpl in *; try discriminate.
  - by injection Hj as ->.
  - rewrite <-(IH j size Hj). lia.
Qed.

Lemma in_flight_count_size cs : in_flight_count cs = 0%nat → in_flight_size cs = 0.
Proof.
  induction cs as [|c cs IH]; simpl; [done|].
  unfold held. case_decide; [done|]. intros Hn. rewrite IH by done. lia.
Qed.

(** The admitted calls can all finish, one after the other; the other calls
    are where they were. *)
Lemma in_flight_calls_finish B n : ∀ s,
  reachable B s → in_flight_count (calls s) = n →
  ∃ s', rtc step_any s s' ∧ in_flight_count (calls s') = 0%nat ∧
        ∀ i c, calls s !! i = Some c → call_phase c ≠ InFlight → calls s' !! i = Some c.
Proof.
  induction n as [|n IH]; intros [g cs] Hreach Hcount; simpl in *.
  - exists (mkSystem g cs). by split; [apply rtc_refl|].
  - destruct (in_flight_count_lookup cs) as (j & size & Hj); [lia|].
    pose proof (step_finish g cs j size Hj) as Hstep.
    destruct (IH _ (AdmissionFacts.reachable_step B _ _ _ Hreach Hstep))
      as (s' & Hsteps & Hzero & Hsame).
    { simpl. pose proof (in_flight_count_finish cs j size Hj). lia. }
    exists s'. split; [|split; [done|]].
    + eapply rtc_l; [by exists (Finish j) | done].
    + intros i c Hi Hphase. apply Hsame; [|done]. simpl.
      rewrite list_lookup_insert_ne; [done|].
      intros ->. rewrite Hj in Hi. injection Hi as <-. by destruct Hphase.
Qed.

(** A waiting call that asks for less than the whole budget is not locked
    out: from every reachable state there is a continuation, made of the
    [FinishInsert] of the admitted calls and of its own admission, in which
    it leaves [WaitToInsert]. *)
Theorem waiting_call_can_pass B s i size :
  0 ≤ B < 2 ^ 63 → reachable B s →
  calls s !! i = Some (mkCall size Waiting) → size < B →
  ∃ s', rtc step_any s s' ∧ calls s' !! i = Some (mkCall size InFlight).
Proof.
  intros HB Hreach Hi Hsize.
  destruct (in_flight_calls_finish B _ s Hreach eq_refl) as ([g cs] & Hsteps & Hzero & Hsame).
  specialize (Hsame i _ Hi). simpl in *.
  assert (cs !! i = Some (mkCall size Waiting)) as Hi' by (by apply Hsame).
  destruct (AdmissionFacts.reachable_invariant B (mkSystem g cs) HB
              (AdmissionFacts.reachable_trans B _ _ Hreach Hsteps))
    as (_ & Hsum & Hpos & Hall).
  simpl in *. rewrite (in_flight_count_size cs Hzero) in Hsum.
  pose proof (AdmissionFacts.Forall_size_lookup _ _ _ Hall Hi') as Hsz. simpl in Hsz.
  assert (WaitToInsert size g
          = Some (mkGate (max_concurrent_insert_request_size_ g)
                    (int64_wrap (max_concurrent_insert_request_size g - size)))) as Hwait.
  { unfold WaitToInsert, wait_predicate.
    rewrite bool_decide_eq_true_2; [reflexivity|].
    rewrite AdmissionFacts.int64_wrap_id by lia. lia. }
  eexists. split.
  - eapply rtc_r; [exact Hsteps|]. exists (Pass i).
    exact (step_pass g _ cs i size Hi' Hwait).
  - simpl. apply list_lookup_insert_eq. by eapply lookup_lt_Some.
Qed.

Lemma one_waiting_reachable : reachable 10 one_waiting.
Proof.
  unfold reachable, init_system, init.
  eapply rtc_l; [exists (Arrive 4); by apply step_arrive|].
  eapply rtc_l; [exists (Arrive 7); by apply step_arrive|].
  eapply rtc_l; [exists (Pass 0); by eapply (step_pass _ _ _ 0%nat 4)|].
  apply rtc_refl.
Defined.

Lemma waiting_call_can_pass_witness :
  ∃ s', rtc step_any one_waiting s' ∧ calls s' !! 1%nat = Some (mkCall 7 InFlight).
Proof.
  apply (waiting_call_can_pass 10 one_waiting 1 7).
  - lia.
  - exact one_waiting_reachable.
  - reflexivity.
  - lia.
Defined.
End DrainFacts.

(** ** What the engine's insert is handed *)

Module IngestFacts.
Import Codec.

Section WithEngine.
Variable ConnectionContext : Type.
Variable FIELD_UID : string.
Variable req_handler_Insert :
  ConnectionContext → string → string → InsertParam → Status * InsertParam.

#[local] Abbreviation OnInsert := (OnInsert ConnectionContext FIELD_UID req_handler_Insert).

(** When the engine's insert is invoked, no id of the request is negative,
    the ids are the last span recorded under [FIELD_UID], the response
    carries the status of the engine, and the ids of the response are
    replaced only by a non-empty list of ids of a successful insert. *)
Theorem OnInsert_engine_reply context request response answer p :
  OnInsert context request response = (answer, [p]) →
  let reply :=
    req_handler_Insert context (collection_name request) (partition_tag request) p in
  Forall (λ id, 0 ≤ id) (entity_id_array request) ∧
  response_status answer = Some reply.1 ∧
  response_entity_id_array answer
    = (if ok reply.1 then
         match id_returned_ reply.2 with
         | [] => response_entity_id_array response
         | _ => id_returned_ reply.2
         end
       else response_entity_id_array response) ∧
  (entity_id_array request ≠ [] →
   ∃ spans,
     fields_data_ p !! FIELD_UID
     = Some (spans ++ [(addr_int64 (entity_id_array request),
                        size_of (entity_id_array request) * 8)])).
Proof.
  intros Hrun reply. unfold Codec.OnInsert in Hrun.
  case_decide as Hneg; [discriminate Hrun|].
  destruct (record_fields _ _ _ _) as [st|[row_num insert_param]]; [discriminate Hrun|].
  assert (Forall (λ id, 0 ≤ id) (entity_id_array request)) as Hids.
  { apply Forall_forall. intros id Hid.
    destruct (decide (0 ≤ id)) as [|Hlt]; [done|].
    destruct Hneg. apply Exists_exists. exists id. split; [done | lia]. }
  split; [done|].
  set (q := if decide (0 < size_of (entity_id_array request)) then _ else _) in *.
  assert (p = q) as ->.
  { destruct (req_handler_Insert context _ _ q) as [status returned].
    destruct (ok status); by injection Hrun as _ <-. }
  subst reply. destruct (req_handler_Insert context _ _ q) as [status returned]. simpl.
  split; [|split].
  - destruct (ok status); by injection Hrun as <-.
  - destruct (ok status); by injection Hrun as <-.
  - intros Hne. unfold q. rewrite decide_True by (by apply CodecFacts.size_of_pos).
    unfold RecordDataAddr, sizeof_int64_t. simpl. rewrite lookup_insert_eq. eauto.
Qed.

(** A request without fields is not refused: the engine's insert is invoked
    with the row count -1 and with nothing but the ids, whose number is
    compared with no row count. *)
Theorem OnInsert_without_fields context request response :
  fields request = [] →
  Forall (λ id, 0 ≤ id) (entity_id_array request) →
  ∃ answer p,
    OnInsert context request response = (answer, [p]) ∧
    row_count_ p = -1 ∧
    fields_data_ p
    = (if decide (entity_id_array request = []) then ∅
       else {[FIELD_UID := [(addr_int64 (entity_id_array request),
                             size_of (entity_id_array request) * 8)]]}).
Proof.
  intros Hfields Hids. unfold Codec.OnInsert.
  rewrite decide_False; cycle 1.
  { intros (id & Hid & Hlt)%Exists_exists.
    pose proof (proj1 (Forall_forall _ _) Hids id Hid) as Hpos. simpl in Hpos. lia. }
  rewrite Hfields. simpl.
  set (q := if decide (0 < size_of (entity_id_array request)) then _ else _).
  assert (row_count_ q = -1 ∧
          fields_data_ q
          = (if decide (entity_id_array request = []) then ∅
             else {[FIELD_UID := [(addr_int64 (entity_id_array request),
                                   size_of (entity_id_array request) * 8)]]})) as [Hrow Hdata].
  { unfold q. destruct (entity_id_array request) as [|id ids].
    - by rewrite decide_False by (unfold size_of; simpl; lia).
    - rewrite decide_True by (unfold size_of; simpl; lia).
      rewrite decide_False by done. done. }
  destruct (req_handler_Insert context _ _ q) as [status returned].
  destruct (ok status); eexists _, q; done.
Qed.
End WithEngine.

(** Two vectors and the ids 5 and 6. *)
Lemma OnInsert_engine_reply_witness :
  let vec := mkFieldValue "vec" (mkAttrRecord [] [] [] [])
               [mkVectorRowRecord [0; 0] []; mkVectorRowRecord [0; 0] []] in
  let request := mk_grpc_InsertParam "c" [vec] [5; 6] "" in
  let p := mkInsertParam
             (<["_id" := [(addr_int64 [5; 6], 16)]]>
                (<["vec" := [(addr_float [0; 0], 8); (addr_float [0; 0], 8)]]> ∅)) 2 [] in
  let reply := accepting_Insert () "c" "" p in
  Forall (λ id, 0 ≤ id) [5; 6] ∧
  Some Status_OK = Some reply.1 ∧
  [0; 1] = (if ok reply.1 then
              match id_returned_ reply.2 with
              | [] => []
              | _ => id_returned_ reply.2
              end
            else []) ∧
  ([5; 6] ≠ [] →
   ∃ spans, fields_data_ p !! "_id" = Some (spans ++ [(addr_int64 [5; 6], size_of [5; 6] * 8)])).
Proof.
  apply (OnInsert_engine_reply unit "_id" accepting_Insert ()
           (mk_grpc_InsertParam "c"
              [mkFieldValue "vec" (mkAttrRecord [] [] [] [])
                 [mkVectorRowRecord [0; 0] []; mkVectorRowRecord [0; 0] []]] [5; 6] "")
           (mkEntityIds None []) (mkEntityIds (Some Status_OK) [0; 1])).
  vm_compute. reflexivity.
Defined.

(** No fields, three ids. *)
Lemma OnInsert_without_fields_witness :
  let request := mk_grpc_InsertParam "c" [] [1; 2; 3] "" in
  ∃ answer p,
    OnInsert unit "_id" accepting_Insert () request (mkEntityIds None []) = (answer, [p]) ∧
    row_count_ p = -1 ∧
    fields_data_ p
    = (if decide ([1; 2; 3] = []) then ∅
       else {["_id" := [(addr_int64 [1; 2; 3], size_of [1; 2; 3] * 8)]]}).
Proof.
  apply (OnInsert_without_fields unit "_id" accepting_Insert ()
           (mk_grpc_InsertParam "c" [] [1; 2; 3] "") (mkEntityIds None [])).
  - reflexivity.
  - repeat constructor; lia.
Defined.
End IngestFacts.

(** ** Query vectors and the boolean tree *)

Module QueryFacts.
Import Json Compiler QueryFrame.



Section WithChecks.
Variable BinaryQuery : Type.
Variable JSON_NULL_CHECK : json → option Status.
Variable JSON_OBJECT_CHECK : json → option Status.

#[local] Abbreviation Query := (Query BinaryQuery).
#[local] Abbreviation ProcessLeafQueryJson :=
  (ProcessLeafQueryJson JSON_NULL_CHECK JSON_OBJECT_CHECK).
#[local] Abbreviation ProcessBooleanQueryJson :=
  (ProcessBooleanQueryJson BinaryQuery JSON_NULL_CHECK JSON_OBJECT_CHECK).

(** [ProcessLeafQueryJson] writes its two outputs together or not at all:
    either the boolean query and the field name are as they were, or the
    call has returned OK after it has added exactly one leaf, which is a
    term leaf when the JSON has the key ["term"], else a range leaf when it
    has ["range"], else a vector leaf; the field name is the first key of
    the term or range object, and is left alone by a vector leaf. *)
Theorem ProcessLeafQueryJson_adds_one_leaf query_json query field_name o query' field_name' :
  ProcessLeafQueryJson query_json (query, field_name) = (o, (query', field_name')) →
  (query' = query ∧ field_name' = field_name) ∨
  (o = Returned Status_OK ∧
   ∃ leaf, query' = AddLeafQuery leaf query ∧
     ((∃ j, leaf = mkLeafQuery (Some j) None "" ∧
            at_const query_json "term" = Val j ∧ begin_key j = Val field_name') ∨
      (∃ j, contains query_json "term" = false ∧
            leaf = mkLeafQuery None (Some j) "" ∧
            at_const query_json "range" = Val j ∧ begin_key j = Val field_name') ∨
      (∃ vector_json placeholder,
            contains query_json "term" = false ∧ contains query_json "range" = false ∧
            leaf = mkLeafQuery None None placeholder ∧
            at_const query_json "vector" = Val vector_json ∧
            get_string vector_json = Val placeholder ∧
            field_name' = field_name))).
Proof.
  unfold Compiler.ProcessLeafQueryJson. CompilerFacts.run.
  repeat CompilerFacts.step; intros Hrun; simplify_eq; eauto 12.
  right. split; [done|]. eexists. split; [done|]. right. right.
  by eexists _, _.
Qed.
(** *** The boolean tree leaves the vectors of the query alone *)

Lemma json_nested_ind (P : json → Prop) :
  P Jnull → (∀ b, P (Jboolean b)) → (∀ n, P (Jnumber_integer n)) →
  (∀ q, P (Jnumber_float q)) → (∀ s, P (Jstring s)) →
  (∀ elements, Forall P elements → P (Jarray elements)) →
  (∀ members, Forall (λ member, P member.2) members → P (Jobject members)) →
  ∀ j, P j.
Proof.
  intros Hnull Hboolean Hinteger Hfloat Hstring Harray Hobject.
  fix IH 1. intros [|b|n|q|s|elements|members].
  - exact Hnull.
  - apply Hboolean.
  - apply Hinteger.
  - apply Hfloat.
  - apply Hstring.
  - apply Harray. induction elements as [|j elements IHelements]; constructor.
    + apply IH.
    + apply IHelements.
  - apply Hobject. induction members as [|[k j] members IHmembers]; constructor.
    + apply IH.
    + apply IHmembers.
Qed.

Lemma index_fields_added_refl (q : Query) : index_fields_added q q.
Proof. unfold index_fields_added. by repeat split. Qed.

Lemma index_fields_added_trans (q1 q2 q3 : Query) :
  index_fields_added q1 q2 → index_fields_added q2 q3 → index_fields_added q1 q3.
Proof.
  unfold index_fields_added.
  intros (-> & -> & -> & -> & -> & H12) (-> & -> & -> & -> & -> & H23).
  repeat split; try done. set_solver.
Qed.

Lemma index_fields_added_insert name (q : Query) :
  index_fields_added q (insert_index_field BinaryQuery name q).
Proof. unfold index_fields_added, insert_index_field. simpl. repeat split; try done. set_solver. Qed.

Section Clauses.
Variable recursive_call : json → BooleanQuery * Query → outcome * (BooleanQuery * Query).

#[local] Abbreviation preserved json :=
  (∀ s o s', recursive_call json s = (o, s') → index_fields_added s.2 s'.2).

Lemma process_clause_frame json :
  preserved json →
  ∀ s r s', process_clause BinaryQuery JSON_NULL_CHECK JSON_OBJECT_CHECK recursive_call json s
            = (r, s') →
            index_fields_added s.2 s'.2.
Proof.
  intros Hrec [boolean_query query_ptr] r s'. unfold process_clause.
  destruct (contains json "must" || contains json "should" || contains json "must_not").
  - CompilerFacts.run.
    destruct (recursive_call json (new_BooleanQuery, query_ptr)) as [o [must_query q1]] eqn:Hcall.
    apply Hrec in Hcall. simpl in Hcall.
    destruct o as [st| |]; [destruct (ok st)|..]; intros [= <- <-]; done.
  - CompilerFacts.run.
    destruct (Compiler.ProcessLeafQueryJson _ _ _ _) as [o [q1 field_name]].
    destruct o as [st| |]; [destruct (ok st)|..]; intros [= <- <-]; simpl;
      try apply index_fields_added_refl.
    case_decide; [apply index_fields_added_refl | apply index_fields_added_insert].
Qed.

Lemma process_clauses_frame clauses :
  Forall (λ json, preserved json) clauses →
  ∀ s r s', process_clauses BinaryQuery JSON_NULL_CHECK JSON_OBJECT_CHECK recursive_call
              clauses s = (r, s') →
            index_fields_added s.2 s'.2.
Proof.
  induction 1 as [|json clauses Hjson Hclauses IH]; intros s r s' Hrun.
  - injection Hrun as <- <-. apply index_fields_added_refl.
  - simpl in Hrun. unfold mbind, M_bind, bind in Hrun.
    destruct (process_clause _ _ _ _ json s) as [r1 s1] eqn:Hclause.
    apply (process_clause_frame json Hjson) in Hclause.
    destruct r1; try (injection Hrun as <- <-; done).
    eapply index_fields_added_trans; [done | by eapply IH].
Qed.

Lemma process_item_frame key value :
  match value with
  | Jarray clauses => Forall (λ json, preserved json) clauses
  | _ => True
  end →
  ∀ s r s', process_item BinaryQuery JSON_NULL_CHECK JSON_OBJECT_CHECK recursive_call
              (key, value) s = (r, s') →
            index_fields_added s.2 s'.2.
Proof.
  intros Hvalue [boolean_query query_ptr] r s' Hitem.
  unfold process_item, process_occur in Hitem.
  repeat case_decide;
    try (injection Hitem as <- <-; apply index_fields_added_refl);
    unfold mbind, M_bind, bind, modify, return_ in Hitem; simpl in Hitem;
    (destruct value as [| | | | |clauses|];
     try (injection Hitem as <- <-; apply index_fields_added_refl));
    apply (process_clauses_frame clauses Hvalue) in Hitem; exact Hitem.
Qed.

Lemma process_items_frame members :
  Forall (λ member, match member.2 with
                    | Jarray clauses => Forall (λ json, preserved json) clauses
                    | _ => True
                    end) members →
  ∀ s r s', process_items BinaryQuery JSON_NULL_CHECK JSON_OBJECT_CHECK recursive_call
              members s = (r, s') →
            index_fields_added s.2 s'.2.
Proof.
  induction 1 as [|[key value] members Hvalue Hmembers IH]; intros s r s' Hrun.
  - injection Hrun as <- <-. apply index_fields_added_refl.
  - cbn [Compiler.process_items] in Hrun. unfold mbind, M_bind, bind in Hrun.
    destruct (process_item _ _ _ _ (key, value) s) as [r1 s1] eqn:Hitem.
    apply (process_item_frame key value Hvalue) in Hitem.
    destruct r1; try (injection Hrun as <- <-; done).
    eapply index_fields_added_trans; [done | by eapply IH].
Qed.
End Clauses.

(** The induction over the filter body: the property for a JSON value,
    and for the elements of an array, which are the clauses. *)
Lemma ProcessBooleanQueryJson_frame_clauses j :
  (∀ s o s', ProcessBooleanQueryJson j s = (o, s') → index_fields_added s.2 s'.2) ∧
  match j with
  | Jarray clauses =>
      Forall (λ json, ∀ s o s', ProcessBooleanQueryJson json s = (o, s') →
                                index_fields_added s.2 s'.2) clauses
  | _ => True
  end.
Proof.
  revert j. apply json_nested_ind;
    try (intros; split; [|done]; intros s1 o1 s1' [= <- <-];
         apply index_fields_added_refl).
  - intros elements Helements. split.
    + intros s1 o1 s1' Hrun. destruct elements; injection Hrun as <- <-;
        apply index_fields_added_refl.
    + eapply Forall_impl; [exact Helements|]. by intros j [Hj _].
  - intros members Hmembers. split; [|done].
    intros s1 o1 s1' Hrun. destruct members as [|member members];
      [injection Hrun as <- <-; apply index_fields_added_refl|].
    change (function_body
              (process_items BinaryQuery JSON_NULL_CHECK JSON_OBJECT_CHECK
                 ProcessBooleanQueryJson (member :: members);; ret Status_OK) s1
            = (o1, s1')) in Hrun.
    unfold function_body, mbind, M_bind, bind, ret in Hrun.
    destruct (process_items _ _ _ _ (member :: members) s1) as [r2 s2] eqn:Hitems.
    apply process_items_frame in Hitems; cycle 1.
    { eapply Forall_impl; [exact Hmembers|]. intros [k v] [_ Hv]. exact Hv. }
    destruct r2; by injection Hrun as <- <-.
Qed.

(** Whatever [ProcessBooleanQueryJson] does with a filter body, however it
    ends, it leaves the collection id, the vectors, the metric types, the
    partitions and the root of the query as they are, and takes no index
    field away. *)
Theorem ProcessBooleanQueryJson_frame query_json boolean_query (query_ptr : Query)
    o boolean_query' query_ptr' :
  ProcessBooleanQueryJson query_json (boolean_query, query_ptr)
    = (o, (boolean_query', query_ptr')) →
  index_fields_added query_ptr query_ptr'.
Proof.
  intros Hrun.
  destruct (ProcessBooleanQueryJson_frame_clauses query_json) as [Hframe _].
  exact (Hframe _ _ _ Hrun).
Qed.
End WithChecks.

(** *** The vector query of a compiled search *)

Section WithCollaborators.
Variable BinaryQuery : Type.
Variable json_parse : string → parsed.
Variable JSON_NULL_CHECK : json → option Status.
Variable JSON_OBJECT_CHECK : json → option Status.
Variable ValidateSearchTopk : Z → Status.

#[local] Abbreviation Query := (Query BinaryQuery).
#[local] Abbreviation DeserializeDslToBoolQuery :=
  (DeserializeDslToBoolQuery BinaryQuery json_parse JSON_NULL_CHECK
     JSON_OBJECT_CHECK ValidateSearchTopk).

(** What a vector-parameter block has done when control goes on after it. *)
Lemma process_vector_param_next vector_param boolean_query (query_ptr : Query) s' :
  process_vector_param BinaryQuery json_parse ValidateSearchTopk vector_param
    (boolean_query, query_ptr) = (Next (), s') →
  ∃ vector_json placeholder it_value vector_query query_ptr1,
    json_parse (json_ vector_param) = Parsed vector_json ∧
    begin_key vector_json = Val placeholder ∧
    begin_value vector_json = Val it_value ∧
    s' = (boolean_query, query_ptr1) ∧
    vectors _ query_ptr1 = map_insert_new placeholder vector_query (vectors _ query_ptr) ∧
    vq_query_vector vector_query = CopyRowRecords (row_record vector_param) ∧
    (if begin_not_end it_value then
       ok (ValidateSearchTopk (vq_topk vector_query)) = true ∧
       begin_key it_value = Val (vq_field_name vector_query) ∧
       vq_field_name vector_query ∈ index_fields _ query_ptr1
     else
       vector_query = mkVectorQuery "" 0 "" Jnull (CopyRowRecords (row_record vector_param))).
Proof.
  unfold Compiler.process_vector_param. CompilerFacts.run.
  repeat CompilerFacts.step; intros Hrun; simplify_eq;
    eexists _, _, _, _, _;
    (split; [reflexivity|]); (split; [eassumption|]); (split; [eassumption|]);
    (split; [reflexivity|]); (split; [reflexivity|]); (split; [reflexivity|]);
    match goal with H : begin_not_end _ = _ |- _ => rewrite H end;
    first [ done | split; [done|]; split; [done|]; simpl; set_solver ].
Qed.

(** A search request that compiles has its one vector-parameter block in
    the query: the block's text parses, its first key is the placeholder,
    and the vector query made of it is inserted under the placeholder (an
    entry that is already there stays).  The vector query carries the row
    records as [CopyRowRecords] lays them out.  A descriptor that is not
    empty has given the field name, now among the index fields, and a top-k
    that [ValidateSearchTopk] accepts; from an empty descriptor nothing is
    read and nothing validated: the top-k stays 0 and the field name empty. *)
Theorem DeserializeDslToBoolQuery_stores_vector
    vector_param dsl_string boolean_query (query_ptr : Query) st boolean_query' query_ptr' :
  DeserializeDslToBoolQuery [vector_param] dsl_string (boolean_query, query_ptr)
    = (Returned st, (boolean_query', query_ptr')) →
  ok st = true →
  ∃ vector_json placeholder it_value vector_query,
    json_parse (json_ vector_param) = Parsed vector_json ∧
    begin_key vector_json = Val placeholder ∧
    begin_value vector_json = Val it_value ∧
    vectors _ query_ptr'
      = map_insert_new placeholder vector_query (vectors _ query_ptr) ∧
    vq_query_vector vector_query = CopyRowRecords (row_record vector_param) ∧
    (if begin_not_end it_value then
       ok (ValidateSearchTopk (vq_topk vector_query)) = true ∧
       begin_key it_value = Val (vq_field_name vector_query) ∧
       vq_field_name vector_query ∈ index_fields _ query_ptr'
     else
       vector_query = mkVectorQuery "" 0 "" Jnull (CopyRowRecords (row_record vector_param))).
Proof.
  intros Hrun Hok.
  unfold Compiler.DeserializeDslToBoolQuery, Compiler.DeserializeDslToBoolQuery_try,
    function_body, try_catch in Hrun.
  unfold mbind, M_bind, bind, eval, when, return_, ret, mret, M_ret in Hrun.
  destruct (parse_flow (json_parse dsl_string)) as [dsl_json|what|];
    [|injection Hrun as <- <- <-; discriminate Hok|discriminate Hrun].
  destruct (empty dsl_json); [injection Hrun as <- <- <-; discriminate Hok|].
  cbn [length bool_decide decide_rel] in Hrun.
  rewrite bool_decide_eq_false_2 in Hrun by (intros H; by apply H).
  cbn [Compiler.process_vector_params] in Hrun.
  unfold mbind, M_bind, bind, ret, mret, M_ret in Hrun.
  destruct (process_vector_param _ _ _ vector_param (boolean_query, query_ptr))
    as [r1 s1] eqn:Hparam.
  destruct (CompilerFacts.process_vector_param_spec BinaryQuery json_parse
              ValidateSearchTopk vector_param boolean_query query_ptr)
    as (r1' & q1' & Hspec & Hr1).
  rewrite Hparam in Hspec. injection Hspec as <- ->.
  destruct r1 as [[]|st1|what|];
    [|destruct Hr1 as [Hfail _]; injection Hrun as <- <- <-; congruence
     |injection Hrun as <- <- <-; discriminate Hok|discriminate Hrun].
  destruct (process_vector_param_next _ _ _ _ Hparam)
    as (vector_json & placeholder & it_value & vector_query & q1 &
        Hparse & Hkey & Hvalue & Hstate & Hvectors & Hrows & Hdescriptor).
  injection Hstate as ->.
  assert (index_fields_added q1 query_ptr') as (_ & Hsame & _ & _ & _ & Hfields).
  { destruct (contains dsl_json "bool");
      [|injection Hrun as <- <- <-; discriminate Hok].
    destruct (at_ dsl_json "bool") as [boolean_query_json|what|];
      [|injection Hrun as <- <- <-; discriminate Hok|discriminate Hrun].
    unfold check in Hrun.
    destruct (JSON_NULL_CHECK boolean_query_json) as [st2|];
      [injection Hrun as <- <- <-; apply index_fields_added_refl|].
    unfold STATUS_CHECK, ret in Hrun. cbv beta iota in Hrun.
    destruct (Compiler.ProcessBooleanQueryJson _ _ _ boolean_query_json (boolean_query, q1))
      as [o2 [bq2 q2]] eqn:Htree.
    apply (proj1 (ProcessBooleanQueryJson_frame_clauses BinaryQuery JSON_NULL_CHECK
                    JSON_OBJECT_CHECK boolean_query_json)) in Htree.
    destruct o2 as [st2|what|]; [destruct (ok st2)| |];
      try (injection Hrun as <- <- <-; done); discriminate Hrun. }
  exists vector_json, placeholder, it_value, vector_query.
  rewrite Hsame, Hvectors. repeat split; try done.
  destruct (begin_not_end it_value); [|done].
  destruct Hdescriptor as (Htopk & Hname & Hin). repeat split; try done. set_solver.
Qed.
End WithCollaborators.

(** The term leaf on the field [age]. *)
Lemma ProcessLeafQueryJson_adds_one_leaf_witness :
  let r := ProcessLeafQueryJson example_JSON_NULL_CHECK example_JSON_OBJECT_CHECK
             age_term (new_BooleanQuery, "") in
  (r.2.1 = new_BooleanQuery ∧ r.2.2 = "") ∨
  (r.1 = Returned Status_OK ∧
   ∃ leaf, r.2.1 = AddLeafQuery leaf new_BooleanQuery ∧
     ((∃ j, leaf = mkLeafQuery (Some j) None "" ∧
            at_const age_term "term" = Val j ∧ begin_key j = Val r.2.2) ∨
      (∃ j, contains age_term "term" = false ∧
            leaf = mkLeafQuery None (Some j) "" ∧
            at_const age_term "range" = Val j ∧ begin_key j = Val r.2.2) ∨
      (∃ vector_json placeholder,
            contains age_term "term" = false ∧ contains age_term "range" = false ∧
            leaf = mkLeafQuery None None placeholder ∧
            at_const age_term "vector" = Val vector_json ∧
            get_string vector_json = Val placeholder ∧
            r.2.2 = ""))).
Proof.
  intros r.
  apply (ProcessLeafQueryJson_adds_one_leaf example_JSON_NULL_CHECK
           example_JSON_OBJECT_CHECK age_term new_BooleanQuery "" r.1 r.2.1 r.2.2).
  vm_compute. reflexivity.
Defined.

(** A filter body with one term clause. *)
Lemma ProcessBooleanQueryJson_frame_witness :
  let r := ProcessBooleanQueryJson unit example_JSON_NULL_CHECK example_JSON_OBJECT_CHECK
             (Jobject [("must", Jarray [age_term])]) (new_BooleanQuery, new_Query) in
  index_fields_added new_Query r.2.2.
Proof.
  intros r.
  apply (ProcessBooleanQueryJson_frame unit example_JSON_NULL_CHECK
           example_JSON_OBJECT_CHECK (Jobject [("must", Jarray [age_term])])
           new_BooleanQuery new_Query r.1 r.2.1 r.2.2).
  vm_compute. reflexivity.
Defined.

(** The search for the ten nearest vectors among the entities of three
    ages. *)
Lemma DeserializeDslToBoolQuery_stores_vector_witness :
  let r := DeserializeDslToBoolQuery unit example_json_parse example_JSON_NULL_CHECK
             example_JSON_OBJECT_CHECK example_ValidateSearchTopk
             [example_vector_param] search_dsl (new_BooleanQuery, new_Query) in
  ∃ vector_json placeholder it_value vector_query,
    example_json_parse (json_ example_vector_param) = Parsed vector_json ∧
    begin_key vector_json = Val placeholder ∧
    begin_value vector_json = Val it_value ∧
    vectors unit r.2.2 = map_insert_new placeholder vector_query (vectors unit new_Query) ∧
    vq_query_vector vector_query = CopyRowRecords (row_record example_vector_param) ∧
    (if begin_not_end it_value then
       ok (example_ValidateSearchTopk (vq_topk vector_query)) = true ∧
       begin_key it_value = Val (vq_field_name vector_query) ∧
       vq_field_name vector_query ∈ index_fields unit r.2.2
     else
       vector_query
       = mkVectorQuery "" 0 "" Jnull (CopyRowRecords (row_record example_vector_param))).
Proof.
  intros r.
  apply (DeserializeDslToBoolQuery_stores_vector unit example_json_parse
           example_JSON_NULL_CHECK example_JSON_OBJECT_CHECK example_ValidateSearchTopk
           example_vector_param search_dsl new_BooleanQuery new_Query
           Status_OK r.2.1 r.2.2).
  - vm_compute. reflexivity.
  - reflexivity.
Defined.
End QueryFacts.

(** ** The engine's search and its results *)

Module SearchEngineFacts.
Import Json Compiler SearchHandler SearchExamples.

(** The loop over the result ids, in closed form. *)
Lemma count_valid_spec result_ids :
  count_valid result_ids
  = (Codec.size_of (List.filter (λ id, bool_decide (id ≠ -1)) result_ids),
     (λ id, bool_decide (id ≠ -1)) <$> result_ids).
Proof.
  induction result_ids as [|id rest IH]; [done|].
  cbn [count_valid]. rewrite IH. cbn [List.filter fmap list_fmap].
  case_decide as Hid.
  - rewrite bool_decide_eq_false_2 by (intros H; by apply H). done.
  - rewrite bool_decide_eq_true_2 by done. unfold Codec.size_of. simpl length.
    f_equal. lia.
Qed.

Section WithEngine.
Variable BinaryQuery DataChunk FieldElementMappings FieldValues : Type.
Variable ConnectionContext : Type.
Variable json_parse : string → parsed.
Variable JSON_NULL_CHECK : json → option Status.
Variable JSON_OBJECT_CHECK : json → option Status.
Variable ValidateSearchTopk : Z → Status.
Variable GetCollectionInfo : ConnectionContext → string → Status.
Variable ValidateBooleanQuery : BooleanQuery → Status.
Variable GenBinaryQuery : BooleanQuery → BinaryQuery.
Variable ValidateBinaryQuery : BinaryQuery → bool.
Variable req_handler_Search :
  ConnectionContext → Query BinaryQuery → json →
  Status * FieldElementMappings * engine_QueryResult DataChunk.
Variable CopyDataChunkToEntity :
  DataChunk → FieldElementMappings → Z → Entities FieldValues → Entities FieldValues.

#[local] Abbreviation Search :=
  (Search BinaryQuery DataChunk FieldElementMappings FieldValues ConnectionContext
     json_parse JSON_NULL_CHECK JSON_OBJECT_CHECK ValidateSearchTopk GetCollectionInfo
     ValidateBooleanQuery GenBinaryQuery ValidateBinaryQuery req_handler_Search
     CopyDataChunkToEntity).
#[local] Abbreviation compile :=
  (DeserializeDslToBoolQuery BinaryQuery json_parse JSON_NULL_CHECK JSON_OBJECT_CHECK
     ValidateSearchTopk).
#[local] Abbreviation parse_extra_params := (parse_extra_params json_parse).

(** The engine's search is invoked at most once, and only when the
    collection is known, the request compiles, the boolean query and its
    binary tree pass their checks and the extra parameters parse; it gets
    the compiled query with the partitions of the request and the binary
    tree as root. *)
Theorem Search_engine_invoked context request response r invoked :
  Search context request response = (r, invoked) →
  invoked ≠ [] →
  ∃ st boolean_query query_ptr json_params,
    ok (GetCollectionInfo context (collection_name request)) = true ∧
    compile (vector_param request) (dsl request)
      (new_BooleanQuery, mkQuery BinaryQuery (collection_name request) ∅ ∅ ∅ [] None)
    = (Returned st, (boolean_query, query_ptr)) ∧
    ok st = true ∧
    ok (ValidateBooleanQuery boolean_query) = true ∧
    ValidateBinaryQuery (GenBinaryQuery boolean_query) = true ∧
    parse_extra_params (extra_params request) Jnull = Val json_params ∧
    invoked = [(mkQuery BinaryQuery (collection_id _ query_ptr) (index_fields _ query_ptr)
                  (vectors _ query_ptr) (metric_types _ query_ptr)
                  (partition_tag_array request) (Some (GenBinaryQuery boolean_query)),
                json_params)].
Proof.
  unfold SearchHandler.Search. intros Hrun Hinvoked.
  destruct (ok (GetCollectionInfo context (collection_name request))) eqn:Hinfo;
    simpl in Hrun; [|by injection Hrun as <- <-].
  destruct (compile _ _ _) as [[st|what|] [boolean_query query_ptr]] eqn:Hcompile;
    [|by injection Hrun as <- <-..].
  destruct (ok st) eqn:Hok; simpl in Hrun; [|by injection Hrun as <- <-].
  destruct (ok (ValidateBooleanQuery boolean_query)) eqn:Hvalid; simpl in Hrun;
    [|by injection Hrun as <- <-].
  destruct (ValidateBinaryQuery (GenBinaryQuery boolean_query)) eqn:Hbin; simpl in Hrun;
    [|by injection Hrun as <- <-].
  destruct (parse_extra_params (extra_params request) Jnull) as [json_params|what|] eqn:Hparams;
    [|by injection Hrun as <- <-..].
  exists st, boolean_query, query_ptr, json_params. repeat split; try done.
  destruct (req_handler_Search _ _ _) as [[status mappings] result].
  destruct (ok status); simpl in Hrun.
  - destruct (count_valid _) as [id_size flags]. by injection Hrun as <- <-.
  - by injection Hrun as <- <-.
Qed.

Lemma parse_extra_params_throws extra : ∀ json_params what,
  parse_extra_params extra json_params = Exc what →
  ∃ value, (EXTRA_PARAM_KEY, value) ∈ extra ∧ json_parse value = ParseError what.
Proof.
  induction extra as [|[key value] rest IH]; intros json_params what Hrun; [done|].
  simpl in Hrun. case_decide as Hkey.
  - destruct (json_parse value) as [j|w] eqn:Hparse.
    + destruct (IH _ _ Hrun) as (v & Hin & Hv). exists v. split; [by right | done].
    + injection Hrun as ->. exists value. split; [subst key; by left | done].
  - destruct (IH _ _ Hrun) as (v & Hin & Hv). exists v. split; [by right | done].
Qed.

(** [Search] has no [try] block of its own.  The only exception that leaves
    it is the parse error of an extra parameter with the key ["params"]
    (the compiler catches its own), and then the engine's search has not
    been invoked. *)
Theorem Search_throws_parse_error context request response what invoked :
  Search context request response = (Throw what, invoked) →
  invoked = [] ∧
  ∃ value, (EXTRA_PARAM_KEY, value) ∈ extra_params request ∧
           json_parse value = ParseError what.
Proof.
  unfold SearchHandler.Search. intros Hrun.
  destruct (ok (GetCollectionInfo context (collection_name request)));
    simpl in Hrun; [|discriminate Hrun].
  pose proof (CompilerFacts.DeserializeDslToBoolQuery_never_throws BinaryQuery json_parse
                JSON_NULL_CHECK JSON_OBJECT_CHECK ValidateSearchTopk
                (vector_param request) (dsl request)
                (new_BooleanQuery, mkQuery BinaryQuery (collection_name request) ∅ ∅ ∅ [] None))
    as Hcaught.
  destruct (compile _ _ _) as [[st|w|] [boolean_query query_ptr]];
    [|by destruct (Hcaught w)|discriminate Hrun].
  destruct (ok st); simpl in Hrun; [|discriminate Hrun].
  destruct (ok (ValidateBooleanQuery boolean_query)); simpl in Hrun; [|discriminate Hrun].
  destruct (ValidateBinaryQuery (GenBinaryQuery boolean_query)); simpl in Hrun;
    [|discriminate Hrun].
  destruct (parse_extra_params (extra_params request) Jnull) as [json_params|w|] eqn:Hparams;
    [|injection Hrun as <- <-; split; [done | by eapply parse_extra_params_throws]
     |discriminate Hrun].
  destruct (req_handler_Search _ _ _) as [[status mappings] result].
  destruct (ok status); simpl in Hrun; [|discriminate Hrun].
  destruct (count_valid _) as [id_size flags]. discriminate Hrun.
Qed.

(** After a successful search of the engine the response carries the
    engine's status, row number, ids and distances, which replace what the
    response held; it gets one valid-row flag per result id, in order, false
    exactly for the id -1, and [CopyDataChunkToEntity] is handed the number
    of the other ids.  After a failed one only the status is written. *)
Theorem Search_engine_reply context request response answer query_ptr json_params :
  Search context request response = (Next answer, [(query_ptr, json_params)]) →
  let reply := req_handler_Search context query_ptr json_params in
  let result := reply.2 in
  if ok reply.1.1 then
    status _ answer = Some reply.1.1 ∧
    row_num _ answer = row_num_ _ result ∧
    distances _ answer = result_distances_ _ result ∧
    ids _ (entities _ answer) = result_ids_ _ result ∧
    let copied :=
      CopyDataChunkToEntity (data_chunk_ _ result) reply.1.2
        (Codec.size_of (List.filter (λ id, bool_decide (id ≠ -1)) (result_ids_ _ result)))
        (mkEntities _ (entities_status _ (entities _ response)) (ids _ (entities _ response))
           (valid_row _ (entities _ response)
              ++ ((λ id, bool_decide (id ≠ -1)) <$> result_ids_ _ result))
           (entities_fields _ (entities _ response))) in
    entities_status _ (entities _ answer) = entities_status _ copied ∧
    valid_row _ (entities _ answer) = valid_row _ copied ∧
    entities_fields _ (entities _ answer) = entities_fields _ copied
  else
    answer = set_status _ reply.1.1 response.
Proof.
  unfold SearchHandler.Search. intros Hrun.
  destruct (ok (GetCollectionInfo context (collection_name request)));
    simpl in Hrun; [|discriminate Hrun].
  destruct (compile _ _ _) as [[st|what|] [boolean_query q]]; [|discriminate Hrun..].
  destruct (ok st); simpl in Hrun; [|discriminate Hrun].
  destruct (ok (ValidateBooleanQuery boolean_query)); simpl in Hrun; [|discriminate Hrun].
  destruct (ValidateBinaryQuery (GenBinaryQuery boolean_query)); simpl in Hrun;
    [|discriminate Hrun].
  destruct (parse_extra_params (extra_params request) Jnull) as [params|what|];
    [|discriminate Hrun..].
  cbv zeta.
  destruct (req_handler_Search context _ params) as [[status mappings] result] eqn:Hreply.
  assert (req_handler_Search context query_ptr json_params = (status, mappings, result))
    as -> by (destruct (ok status); [destruct (count_valid _)|];
              injection Hrun as _ <- <-; exact Hreply).
  simpl. destruct (ok status); simpl in Hrun.
  - rewrite count_valid_spec in Hrun. by injection Hrun as <-.
  - by injection Hrun as <-.
Qed.
End WithEngine.

#[local] Abbreviation finding_Search :=
  (Search BooleanQuery unit unit unit unit example_json_parse example_JSON_NULL_CHECK
     example_JSON_OBJECT_CHECK example_ValidateSearchTopk example_GetCollectionInfo
     example_ValidateBooleanQuery example_GenBinaryQuery accepting_ValidateBinaryQuery
     finding_req_handler_Search example_CopyDataChunkToEntity).
#[local] Abbreviation example_compile :=
  (DeserializeDslToBoolQuery BooleanQuery example_json_parse example_JSON_NULL_CHECK
     example_JSON_OBJECT_CHECK example_ValidateSearchTopk).

(** The search of the compiler example reaches the engine. *)
Lemma Search_engine_invoked_witness :
  let run := finding_Search () example_request new_QueryResult in
  ∃ st boolean_query query_ptr json_params,
    ok (example_GetCollectionInfo () (collection_name example_request)) = true ∧
    example_compile (vector_param example_request) (dsl example_request)
      (new_BooleanQuery,
       mkQuery BooleanQuery (collection_name example_request) ∅ ∅ ∅ [] None)
    = (Returned st, (boolean_query, query_ptr)) ∧
    ok st = true ∧
    ok (example_ValidateBooleanQuery boolean_query) = true ∧
    accepting_ValidateBinaryQuery (example_GenBinaryQuery boolean_query) = true ∧
    parse_extra_params example_json_parse (extra_params example_request) Jnull
    = Val json_params ∧
    run.2 = [(mkQuery BooleanQuery (collection_id _ query_ptr) (index_fields _ query_ptr)
                (vectors _ query_ptr) (metric_types _ query_ptr)
                (partition_tag_array example_request)
                (Some (example_GenBinaryQuery boolean_query)),
              json_params)].
Proof.
  intros run.
  apply (Search_engine_invoked BooleanQuery unit unit unit unit example_json_parse
           example_JSON_NULL_CHECK example_JSON_OBJECT_CHECK example_ValidateSearchTopk
           example_GetCollectionInfo example_ValidateBooleanQuery example_GenBinaryQuery
           accepting_ValidateBinaryQuery finding_req_handler_Search
           example_CopyDataChunkToEntity () example_request new_QueryResult run.1 run.2).
  - vm_compute. reflexivity.
  - vm_compute. discriminate.
Defined.

(** A request with the extra parameter ["params"] set to an unparseable
    text. *)
Lemma Search_throws_parse_error_witness :
  (finding_Search () bad_params_request new_QueryResult).2 = [] ∧
  ∃ value, (EXTRA_PARAM_KEY, value) ∈ extra_params bad_params_request ∧
           example_json_parse value = ParseError parse_error_101.
Proof.
  apply (Search_throws_parse_error BooleanQuery unit unit unit unit example_json_parse
           example_JSON_NULL_CHECK example_JSON_OBJECT_CHECK example_ValidateSearchTopk
           example_GetCollectionInfo example_ValidateBooleanQuery example_GenBinaryQuery
           accepting_ValidateBinaryQuery finding_req_handler_Search
           example_CopyDataChunkToEntity () bad_params_request new_QueryResult
           parse_error_101).
  vm_compute. reflexivity.
Defined.

(** The engine finds the entities 3 and 5. *)
Lemma Search_engine_reply_witness :
  let run := finding_Search () example_request new_QueryResult in
  let answer := match run.1 with Next answer => answer | _ => new_QueryResult end in
  status _ answer = Some Status_OK ∧
  row_num _ answer = 1 ∧
  distances _ answer = [1; 0; 2] ∧
  ids _ (entities _ answer) = [3; -1; 5] ∧
  entities_status _ (entities _ answer) = None ∧
  valid_row _ (entities _ answer) = [true; false; true] ∧
  entities_fields _ (entities _ answer) = ().
Proof.
  intros run answer.
  apply (Search_engine_reply BooleanQuery unit unit unit unit example_json_parse
           example_JSON_NULL_CHECK example_JSON_OBJECT_CHECK example_ValidateSearchTopk
           example_GetCollectionInfo example_ValidateBooleanQuery example_GenBinaryQuery
           accepting_ValidateBinaryQuery finding_req_handler_Search
           example_CopyDataChunkToEntity () example_request new_QueryResult answer
           (match run.2 with [(q, _)] => q | _ => new_Query end) Jnull).
  vm_compute. reflexivity.
Defined.
End SearchEngineFacts.

(** ** Collection mappings *)

Module CollectionFacts.
Import Json Compiler Collection.

Section WithEngine.
Variable ConnectionContext : Type.
Variable json_parse : string → parsed.
Variable req_handler_CreateCollection :
  ConnectionContext → string → gmap string FieldSchema → json → Status.

#[local] Abbreviation add_fields := (add_fields json_parse).
#[local] Abbreviation CreateCollection :=
  (CreateCollection ConnectionContext json_parse req_handler_CreateCollection).

(** When the loop over the fields ends without a status, the names of the
    request are pairwise distinct and new to the map, and the map has gained
    one schema per field, of the type of the field. *)
Lemma add_fields_spec request_fields : ∀ fields out,
  add_fields request_fields fields = Val (inr out) →
  NoDup (name <$> request_fields) ∧
  (∀ field, field ∈ request_fields → fields !! name field = None) ∧
  size out = (size fields + length request_fields)%nat ∧
  (∀ key schema, fields !! key = Some schema → out !! key = Some schema) ∧
  (∀ field, field ∈ request_fields →
            ∃ schema, out !! name field = Some schema ∧ field_type_ schema = type field).
Proof.
  induction request_fields as [|field rest IH]; intros fields out Hrun.
  - injection Hrun as <-.
    split; [constructor|]. split; [intros field Hin; by apply elem_of_nil in Hin|].
    split; [simpl; lia|]. split; [done|].
    intros field Hin. by apply elem_of_nil in Hin.
  - cbn [Collection.add_fields] in Hrun.
    case_decide as Hdup; [discriminate Hrun|].
    destruct (parse_field_params json_parse field) as [field_params|what|];
      [|discriminate Hrun..].
    apply eq_None_not_Some in Hdup.
    destruct (IH _ _ Hrun) as (Hnodup & Hnew & Hsize & Hkeep & Htypes).
    assert (name field ∉ name <$> rest) as Hnotin.
    { intros (f & Hname & Hin)%list_elem_of_fmap. specialize (Hnew f Hin).
      rewrite <-Hname, lookup_insert_eq in Hnew. discriminate. }
    split; [|split; [|split; [|split]]].
    + rewrite fmap_cons. by constructor.
    + intros f [->|Hin]%elem_of_cons; [done|].
      specialize (Hnew f Hin). by apply lookup_insert_None in Hnew as [? _].
    + rewrite Hsize, map_size_insert_None by done. simpl. lia.
    + intros key schema Hkey. apply Hkeep.
      rewrite lookup_insert_ne; [done|]. intros <-. congruence.
    + intros f [->|Hin]%elem_of_cons; [|by apply Htypes].
      eexists. split; [apply Hkeep, lookup_insert_eq | done].
Qed.

(** The only status of the loop is that of a repeated name, and a name
    that is repeated does not get through it. *)
Lemma add_fields_status request_fields : ∀ fields st,
  add_fields request_fields fields = Val (inl st) → st = duplicate_field_name.
Proof.
  induction request_fields as [|field rest IH]; intros fields st Hrun; [done|].
  cbn [Collection.add_fields] in Hrun.
  case_decide; [by injection Hrun as <-|].
  destruct (parse_field_params json_parse field); [by eapply IH | done..].
Qed.

Lemma add_fields_defined request_fields : ∀ fields,
  add_fields request_fields fields ≠ Undef.
Proof.
  induction request_fields as [|field rest IH]; intros fields; [done|].
  cbn [Collection.add_fields]. case_decide; [done|].
  unfold parse_field_params.
  destruct (field_extra_params field) as [|[key value] extra]; [apply IH|].
  case_decide; [apply IH|].
  destruct (json_parse value); [apply IH | done].
Qed.

(** The engine's [CreateCollection] is invoked at most once, and only for
    a mapping of at most 64 fields with pairwise distinct names; it gets one
    schema per field, under the name and of the type of the field, and its
    status is the one the response carries. *)
Theorem CreateCollection_engine_invoked context request r invoked :
  CreateCollection context request = (r, invoked) →
  invoked ≠ [] →
  Codec.size_of (fields request) ≤ MAXIMUM_FIELD_NUM ∧
  NoDup (name <$> fields request) ∧
  ∃ schemas json_params,
    invoked = [(collection_name request, schemas, json_params)] ∧
    r = Next (Some (req_handler_CreateCollection context (collection_name request)
                      schemas json_params)) ∧
    Z.of_nat (size schemas) = Codec.size_of (fields request) ∧
    (∀ field, field ∈ fields request →
              ∃ schema, schemas !! name field = Some schema ∧
                        field_type_ schema = type field).
Proof.
  unfold Collection.CreateCollection. intros Hrun Hinvoked.
  case_decide as Hnum; [by injection Hrun as <- <-|].
  destruct (add_fields (fields request) ∅) as [[st|schemas]|what|] eqn:Hfields;
    [by injection Hrun as <- <-| |by injection Hrun as <- <-..].
  destruct (SearchHandler.parse_extra_params json_parse _ _) as [json_params|what|];
    [|by injection Hrun as <- <-..].
  injection Hrun as <- <-.
  destruct (add_fields_spec _ _ _ Hfields) as (Hnodup & _ & Hsize & _ & Htypes).
  split; [lia|]. split; [done|]. exists schemas, json_params.
  split; [done|]. split; [done|]. split; [|done].
  rewrite Hsize, map_size_empty. unfold Codec.size_of. lia.
Qed.

(** With a repeated field name the engine is not invoked: the response is
    the status of the repeated name, unless the parameters of an earlier
    field or of the mapping fail to parse, which leaves the call as an
    exception. *)
Theorem CreateCollection_duplicate_field_name context request :
  Codec.size_of (fields request) ≤ MAXIMUM_FIELD_NUM →
  ¬ NoDup (name <$> fields request) →
  ∃ r,
    CreateCollection context request = (r, []) ∧
    (r = Next (Some duplicate_field_name) ∨ ∃ what, r = Throw what).
Proof.
  intros Hnum Hdup. unfold Collection.CreateCollection.
  rewrite decide_False by lia.
  destruct (add_fields (fields request) ∅) as [[st|schemas]|what|] eqn:Hfields.
  - apply add_fields_status in Hfields as ->. eexists. split; [reflexivity | by left].
  - by destruct (add_fields_spec _ _ _ Hfields) as (Hnodup & _).
  - eexists. split; [reflexivity | right; by eexists].
  - by apply add_fields_defined in Hfields.
Qed.
End WithEngine.

(** The mapping of an id field and a vector field. *)
Lemma CreateCollection_engine_invoked_witness :
  let run := CreateCollection unit example_json_parse creating_CreateCollection ()
               example_mapping in
  Codec.size_of (fields example_mapping) ≤ MAXIMUM_FIELD_NUM ∧
  NoDup (name <$> fields example_mapping) ∧
  ∃ schemas json_params,
    run.2 = [(collection_name example_mapping, schemas, json_params)] ∧
    run.1 = Next (Some (creating_CreateCollection () (collection_name example_mapping)
                          schemas json_params)) ∧
    Z.of_nat (size schemas) = Codec.size_of (fields example_mapping) ∧
    (∀ field, field ∈ fields example_mapping →
              ∃ schema, schemas !! name field = Some schema ∧
                        field_type_ schema = type field).
Proof.
  intros run.
  apply (CreateCollection_engine_invoked unit example_json_parse creating_CreateCollection
           () example_mapping run.1 run.2).
  - vm_compute. reflexivity.
  - vm_compute. discriminate.
Defined.

(** Two fields of the name [age]. *)
Lemma CreateCollection_duplicate_field_name_witness :
  ∃ r,
    CreateCollection unit example_json_parse creating_CreateCollection ()
      duplicate_mapping = (r, []) ∧
    (r = Next (Some duplicate_field_name) ∨ ∃ what, r = Throw what).
Proof.
  apply (CreateCollection_duplicate_field_name unit example_json_parse
           creating_CreateCollection () duplicate_mapping).
  - vm_compute. discriminate.
  - intros Hnodup. apply NoDup_cons in Hnodup as [Hnotin _].
    apply Hnotin. apply list_elem_of_here.
Defined.
End CollectionFacts.

(** ** Entities by id *)

Module EntityFacts.
Import Codec Egress EntityHandler.

(** Without a valid row (or with a negative count) every column with data
    still gives a field of its name and type, with nothing in it. *)
Theorem copy_field_no_rows name type data id_size :
  id_size ≤ 0 →
  copy_field name type data id_size = Val (mkEntityField name type empty_AttrRecord []).
Proof.
  intros Hid. unfold copy_field, counted_by_int, copy_scalars, copy_float_rows,
    copy_binary_rows, row_indices, INT_MAX.
  replace (Z.to_nat id_size) with 0%nat by lia.
  destruct type; repeat case_decide; try done; lia.
Qed.

Lemma copy_field_no_rows_witness :
  copy_field "age" INT32 [x14; x00; x00; x00] 0
  = Val (mkEntityField "age" INT32 empty_AttrRecord []).
Proof. apply (copy_field_no_rows "age" INT32 [x14; x00; x00; x00] 0). lia. Defined.

Section WithEngine.
Variable ConnectionContext : Type.
Variable req_handler_GetEntityByID :
  ConnectionContext → string → list Z → list string → engine_reply.

#[local] Abbreviation GetEntityByID :=
  (GetEntityByID ConnectionContext req_handler_GetEntityByID).

(** [GetEntityByID] has no early return: whatever status the engine gives,
    success or not, the response gets that status, the ids and the valid-row
    flags the engine has left are appended to those of the response, and one
    field is added for each mapped field with a non-null, non-empty column,
    in the order of the mappings. *)
Theorem GetEntityByID_reply context request response answer :
  GetEntityByID context request response = Val answer →
  let reply :=
    req_handler_GetEntityByID context (collection_name request) (id_array request)
      (field_names request) in
  status answer = Some (reply_status reply) ∧
  ids answer = ids response ++ vector_ids reply ∧
  valid_row answer = valid_row response ++ reply_valid_row reply ∧
  ∃ new,
    fields answer = fields response ++ new ∧
    (λ f, (ef_field_name f, ef_type f)) <$> new
      = match data_chunk reply with
        | None => []
        | Some chunk => List.filter (λ nt, has_data chunk nt.1) (field_mappings reply)
        end.
Proof.
  intros Hrun reply. unfold EntityHandler.GetEntityByID in Hrun. fold reply in Hrun.
  destruct (CopyDataChunkToEntity _ _ _ _) as [copied| |] eqn:Hcopy; try discriminate Hrun.
  injection Hrun as <-. simpl. repeat split; try done.
  unfold CopyDataChunkToEntity in Hcopy.
  destruct (data_chunk reply) as [chunk|].
  - by apply EgressFacts.copy_fields_spec in Hcopy.
  - injection Hcopy as <-. exists []. by rewrite app_nil_r.
Qed.
End WithEngine.

(** The entities 1, 2 and 3 are asked for; the second is not found. *)
Lemma GetEntityByID_reply_witness :
  let request := mkEntityIdentity "collection" [1; 2; 3] ["age"] in
  let response := mkEntities None [] [] [] in
  let answer :=
    mkEntities (Some Status_OK) [1; 2; 3] [true; false; true]
      [mkEntityField "age" INT32 (mkAttrRecord [20; 40] [] [] []) []] in
  let reply := example_GetEntityByID () "collection" [1; 2; 3] ["age"] in
  status answer = Some (reply_status reply) ∧
  ids answer = ids response ++ vector_ids reply ∧
  valid_row answer = valid_row response ++ reply_valid_row reply ∧
  ∃ new,
    fields answer = fields response ++ new ∧
    (λ f, (ef_field_name f, ef_type f)) <$> new
      = match data_chunk reply with
        | None => []
        | Some chunk => List.filter (λ nt, has_data chunk nt.1) (field_mappings reply)
        end.
Proof.
  apply (GetEntityByID_reply unit example_GetEntityByID ()
           (mkEntityIdentity "collection" [1; 2; 3] ["age"]) (mkEntities None [] [] [])).
  vm_compute. reflexivity.
Defined.
End EntityFacts.

(** ** Error codes on the wire *)

Module ErrorMapFacts.

(** No server code is mapped to [SUCCESS], not even [SERVER_SUCCESS], which
    the table does not list: a status that is OK must not go through
    [ErrorMap]. *)
Theorem ErrorMap_never_SUCCESS c : ErrorMap c ≠ grpc.SUCCESS.
Proof. by destruct c. Qed.
End ErrorMapFacts.

(** ** The description of a collection *)

Module DescribeFacts.
Import Json Compiler Describe.

Lemma update_field_last f response before field :
  fields response = before ++ [field] →
  fields (update_field f response) = before ++ [f field].
Proof.
  intros Hfields. unfold update_field. cbn [fields].
  by rewrite Hfields, reverse_snoc, reverse_involutive.
Qed.

Section WithEngine.
Variable ConnectionContext : Type.
Variable FIELD_UID : string.
Variable GetCollectionInfo : ConnectionContext → string → Status * CollectionSchema.
Variable dump : json → result string.

#[local] Abbreviation describe_index_param := (describe_index_param dump).
#[local] Abbreviation describe_index_params := (describe_index_params dump).
#[local] Abbreviation describe_field := (describe_field FIELD_UID dump).
#[local] Abbreviation describe_fields := (describe_fields FIELD_UID dump).
#[local] Abbreviation DescribeCollection_try :=
  (DescribeCollection_try ConnectionContext GetCollectionInfo FIELD_UID dump).
#[local] Abbreviation DescribeCollection :=
  (DescribeCollection ConnectionContext FIELD_UID GetCollectionInfo dump).

(** What a part of the loop keeps: everything but the fields, of which the
    last, the one under description, keeps its name and type. *)
#[local] Abbreviation describes_last response response' before field :=
  (status response' = status response ∧
   collection_name response' = collection_name response ∧
   extra_params response' = extra_params response ∧
   ∃ field', fields response' = before ++ [field'] ∧
             name field' = name field ∧ type field' = type field).

Lemma describe_index_param_spec item response before field r response' :
  fields response = before ++ [field] →
  describe_index_param item response = (r, response') →
  describes_last response response' before field ∧ ∀ st, r ≠ Return st.
Proof.
  intros Hfields. unfold Describe.describe_index_param.
  unfold mbind, M_bind, bind, modify, eval.
  pose proof (update_field_last
                (λ field, mkFieldParam (name field) (type field)
                            (index_params field ++ [(item.1, "")])
                            (field_extra_params field)) response before field Hfields)
    as Hfirst.
  destruct (if is_object item.2 then dump item.2 else get_string item.2) as [value|what|];
    intros [= <- <-]; (split; [|done]); repeat split; try done; try (by eexists).
  eexists. split; [by eapply update_field_last | done].
Qed.

Lemma describe_index_params_spec items : ∀ response before field r response',
  fields response = before ++ [field] →
  describe_index_params items response = (r, response') →
  describes_last response response' before field ∧ ∀ st, r ≠ Return st.
Proof.
  induction items as [|item rest IH]; intros response before field r response' Hfields Hrun.
  - injection Hrun as <- <-. split; [|done]. repeat split; try done. by eexists.
  - cbn [Describe.describe_index_params] in Hrun. unfold mbind, M_bind, bind in Hrun.
    destruct (describe_index_param item response) as [r1 response1] eqn:Hitem.
    destruct (describe_index_param_spec _ _ _ _ _ _ Hfields Hitem)
      as [(Hstatus & Hname & Hextra & field1 & Hfields1 & Hname1 & Htype1) Hreturn].
    destruct r1 as [[]|st|what|]; try (injection Hrun as <- <-; split; [|done];
      repeat split; try done; by eexists).
    destruct (IH _ _ _ _ _ Hfields1 Hrun)
      as [(Hstatus' & Hname' & Hextra' & field2 & Hfields2 & Hname2 & Htype2) Hreturn'].
    split; [|done]. repeat split; try congruence.
    exists field2. repeat split; congruence.
Qed.

(** The names and types the loop over the fields is to give: those of the
    schema but for [FIELD_UID]. *)
#[local] Abbreviation described fields_ :=
  ((λ kv : string * FieldSchema, (kv.1, field_type_ kv.2))
     <$> filter (λ kv, kv.1 ≠ FIELD_UID) fields_).

Lemma describe_field_spec field_kv response r response' :
  describe_field field_kv response = (r, response') →
  status response' = status response ∧
  collection_name response' = collection_name response ∧
  extra_params response' = extra_params response ∧
  (∀ st, r ≠ Return st) ∧
  ∃ new, fields response' = fields response ++ new ∧
         (λ f, (name f, type f)) <$> new = described [field_kv].
Proof.
  unfold Describe.describe_field. intros Hrun.
  rewrite filter_cons, filter_nil.
  destruct (decide (field_kv.1 = FIELD_UID)) as [Huid|Huid]; cycle 1.
  - rewrite decide_True by done.
    unfold mbind, M_bind, bind, modify, eval in Hrun.
    set (field := mkFieldParam field_kv.1 (field_type_ field_kv.2) []
                    [(SearchHandler.EXTRA_PARAM_KEY, "")]) in *.
    destruct (dump (field_params_ field_kv.2)) as [value|what|];
      try (injection Hrun as <- <-; repeat split; try done; by exists [field]).
    match type of Hrun with
    | Describe.describe_index_params _ _ ?response1 = _ =>
        assert (fields response1 = fields response ++ [_]) as Hfields1
          by (by apply update_field_last)
    end.
    destruct (describe_index_params_spec _ _ _ _ _ _ Hfields1 Hrun)
      as [(Hstatus & Hname & Hextra & field2 & Hfields2 & Hname2 & Htype2) Hreturn].
    repeat split; try done. exists [field2]. split; [done|].
    simpl. by rewrite Hname2, Htype2.
  - rewrite decide_False by (intros Hne; by apply Hne).
    injection Hrun as <- <-. repeat split; try done. exists []. by rewrite app_nil_r.
Qed.

Lemma describe_fields_spec fields_ : ∀ response r response',
  describe_fields fields_ response = (r, response') →
  status response' = status response ∧
  collection_name response' = collection_name response ∧
  extra_params response' = extra_params response ∧
  (∀ st, r ≠ Return st) ∧
  ∃ new, fields response' = fields response ++ new ∧
         ((λ f, (name f, type f)) <$> new) `prefix_of` described fields_ ∧
         (r = Next () → (λ f, (name f, type f)) <$> new = described fields_).
Proof.
  induction fields_ as [|field_kv rest IH]; intros response r response' Hrun.
  - injection Hrun as <- <-. repeat split; try done. exists []. by rewrite app_nil_r.
  - cbn [Describe.describe_fields] in Hrun. unfold mbind, M_bind, bind in Hrun.
    destruct (describe_field field_kv response) as [r1 response1] eqn:Hfield.
    destruct (describe_field_spec _ _ _ _ Hfield)
      as (Hstatus & Hname & Hextra & Hreturn & new1 & Hfields1 & Hnew1).
    assert (described (field_kv :: rest) = described [field_kv] ++ described rest) as Hsplit.
    { rewrite <-fmap_app. f_equal. by rewrite (filter_app _ [field_kv] rest). }
    destruct r1 as [[]|st|what|].
    + destruct (IH _ _ _ Hrun)
        as (Hstatus' & Hname' & Hextra' & Hreturn' & new2 & Hfields2 & Hprefix & Hnext).
      repeat split; try congruence.
      exists (new1 ++ new2). rewrite Hfields2, Hfields1, <-app_assoc. split; [done|].
      rewrite fmap_app, Hsplit, Hnew1. split.
      * by apply prefix_app.
      * intros Hr. by rewrite Hnext.
    + by destruct (Hreturn st).
    + injection Hrun as <- <-. repeat split; try done. exists new1.
      split; [done|]. split; [|done]. rewrite Hsplit, Hnew1. by apply prefix_app_r.
    + injection Hrun as <- <-. repeat split; try done. exists new1.
      split; [done|]. split; [|done]. rewrite Hsplit, Hnew1. by apply prefix_app_r.
Qed.

(** No exception leaves [DescribeCollection], and it always writes the
    status of the response: that of the engine's [GetCollectionInfo], or
    [SERVER_UNEXPECTED_ERROR] for whatever was thrown in between. *)
Theorem DescribeCollection_status context request response :
  (∀ what, DescribeCollection context request response ≠ Exc what) ∧
  (∀ answer, DescribeCollection context request response = Val answer →
             status answer = Some (GetCollectionInfo context request).1 ∨
             status answer = Some parsing_json_string_wrong).
Proof.
  unfold Describe.DescribeCollection, try_catch, Describe.DescribeCollection_try.
  destruct (GetCollectionInfo context request) as [st schema]. cbn [fst].
  unfold mbind, M_bind, bind, when, modify, return_, ret, eval.
  destruct (ok st); cbn [negb]; [|split; [done|]; intros answer [= <-]; by left].
  destruct (describe_fields (fields_ schema) (set_collection_name request response))
    as [r1 response1] eqn:Hfields.
  destruct (describe_fields_spec _ _ _ _ Hfields) as (_ & _ & _ & Hreturn & _).
  destruct r1 as [[]|st1|what|]; [|by destruct (Hreturn st1)| |].
  - destruct (dump (extra_params_ schema)); (split; [done|]);
      intros answer [= <-]; auto.
  - split; [done|]. intros answer [= <-]. by right.
  - split; [done|]. intros answer Hval. discriminate Hval.
Qed.

(** The fields of the response grow at the end, by fields whose names and
    types are, in order, those of a prefix of the schema's fields without
    [FIELD_UID]; when the status of the answer is OK they are all of them,
    the collection name is that of the request, and the text of the schema's
    extra parameters is appended under the key ["params"]. *)
Theorem DescribeCollection_fields context request response answer :
  DescribeCollection context request response = Val answer →
  let schema := (GetCollectionInfo context request).2 in
  ∃ new,
    fields answer = fields response ++ new ∧
    ((λ f, (name f, type f)) <$> new) `prefix_of` described (fields_ schema) ∧
    (∀ st, status answer = Some st → ok st = true →
           (λ f, (name f, type f)) <$> new = described (fields_ schema) ∧
           collection_name answer = request ∧
           ∃ text, dump (extra_params_ schema) = Val text ∧
                   extra_params answer
                   = extra_params response ++ [(SearchHandler.EXTRA_PARAM_KEY, text)]).
Proof.
  unfold Describe.DescribeCollection, try_catch, Describe.DescribeCollection_try.
  destruct (GetCollectionInfo context request) as [st schema] eqn:Hinfo. cbn [snd].
  unfold mbind, M_bind, bind, when, modify, return_, ret, eval.
  destruct (ok st) eqn:Hok; cbn [negb].
  - destruct (describe_fields (fields_ schema) (set_collection_name request response))
      as [r1 response1] eqn:Hfields.
    destruct (describe_fields_spec _ _ _ _ Hfields)
      as (Hstatus & Hname & Hextra & Hreturn & new & Hnew & Hprefix & Hnext).
    simpl in Hstatus, Hname, Hextra, Hnew.
    destruct r1 as [[]|st1|what|]; [|by destruct (Hreturn st1)| |].
    + destruct (dump (extra_params_ schema)) as [text|what|] eqn:Hdump;
        intros [= <-]; exists new; cbn [fields status]; (split; [done|]);
        (split; [done|]); intros st0 [= <-] Hok0; try discriminate Hok0.
      split; [by apply Hnext|]. cbn [collection_name extra_params add_extra_params].
      split; [done|]. exists text. split; [done|].
      unfold set_value. by rewrite reverse_snoc, reverse_involutive, Hextra.
    + intros [= <-]. exists new. cbn [fields status set_status]. split; [done|].
      split; [done|]. intros st0 [= <-] Hok0. discriminate Hok0.
    + intros Hval. discriminate Hval.
  - intros [= <-]. exists []. cbn [fields status set_status]. rewrite app_nil_r.
    split; [done|]. split; [apply prefix_nil|].
    intros st0 [= <-] Hok0. congruence.
Qed.

(** *** Index parameters from [CreateCollection] to [DescribeCollection] *)

Lemma set_member_find key value members k :
  find_member k (Collection.set_member key value members)
  = if decide (k = key) then Some value else find_member k members.
Proof.
  induction members as [|[k0 v0] rest IH]; simpl.
  - destruct (decide (key = k)), (decide (k = key)); congruence.
  - destruct (decide (k0 = key)) as [->|Hne]; simpl.
    + destruct (decide (key = k)), (decide (k = key)); congruence.
    + destruct (String.ltb key k0); simpl.
      * destruct (decide (key = k)), (decide (k = key)); congruence.
      * rewrite IH. destruct (decide (k0 = k)), (decide (k = key)); congruence.
Qed.

Lemma set_member_strings key value stored :
  ∃ stored', Collection.set_member key (Jstring value) (string_members stored)
             = string_members stored'.
Proof.
  induction stored as [|[k0 v0] rest [stored' IH]]; simpl.
  - by exists [(key, value)].
  - destruct (decide (k0 = key)); [by exists ((key, value) :: rest)|].
    destruct (String.ltb key k0); [by exists ((key, value) :: (k0, v0) :: rest)|].
    exists ((k0, v0) :: stored'). simpl. by rewrite IH.
Qed.

Lemma set_index_params_object params : ∀ stored,
  ∃ stored',
    Collection.set_index_params params (Jobject (string_members stored))
    = Jobject (string_members stored') ∧
    ∀ key, find_member key (string_members stored')
           = match last_assigned key params with
             | Some value => Some (Jstring value)
             | None => find_member key (string_members stored)
             end.
Proof.
  induction params as [|[k v] rest IH]; intros stored.
  - by exists stored.
  - cbn [Collection.set_index_params last_assigned].
    destruct (set_member_strings k v stored) as [stored1 Hstored1].
    destruct (IH stored1) as (stored' & Hrun & Hfind).
    exists stored'. rewrite Hstored1. split; [done|].
    intros key. rewrite Hfind. destruct (last_assigned key rest); [done|].
    rewrite <-Hstored1, set_member_find.
    destruct (decide (key = k)), (decide (k = key)); congruence.
Qed.

Lemma describe_string_members stored : ∀ response before field,
  fields response = before ++ [field] →
  ∃ response' field',
    describe_index_params (string_members stored) response = (Next (), response') ∧
    fields response' = before ++ [field'] ∧
    index_params field' = index_params field ++ stored.
Proof.
  induction stored as [|[k v] rest IH]; intros response before field Hfields.
  - exists response, field. by rewrite app_nil_r.
  - cbn [string_members fmap list_fmap Describe.describe_index_params].
    unfold mbind, M_bind, bind, Describe.describe_index_param, modify, eval.
    cbn [is_object get_string fst snd].
    unfold mbind, M_bind, bind.
    pose proof (update_field_last
                  (λ field, mkFieldParam (name field) (type field)
                              (index_params field ++ [(k, "")])
                              (field_extra_params field)) response before field Hfields)
      as Hfirst.
    pose proof (update_field_last
                  (λ field, mkFieldParam (name field) (type field)
                              (set_value v (index_params field))
                              (field_extra_params field)) _ before _ Hfirst)
      as Hsecond.
    destruct (IH _ _ _ Hsecond) as (response' & field' & Hrun & Hfields' & Hparams).
    exists response', field'. split; [exact Hrun|]. split; [done|].
    rewrite Hparams. cbn [index_params]. unfold set_value.
    by rewrite reverse_snoc, reverse_involutive, <-app_assoc.
Qed.

(** The index parameters that [CreateCollection] has put into a field
    schema come back from the loop of [DescribeCollection] without an
    exception and without a call of [dump]: the field under description
    gets pairs of strings in which each key that was assigned is found with
    the value that was assigned to it last. *)
Theorem index_params_described params response before field :
  fields response = before ++ [field] →
  ∃ stored response' field',
    describe_index_params (items (Collection.set_index_params params Jnull)) response
    = (Next (), response') ∧
    fields response' = before ++ [field'] ∧
    index_params field' = index_params field ++ stored ∧
    ∀ key value,
      find_member key (string_members stored) = Some (Jstring value)
      ↔ last_assigned key params = Some value.
Proof.
  intros Hfields. destruct params as [|[k v] rest].
  - exists [], response, field. rewrite app_nil_r. repeat split; try done.
  - cbn [Collection.set_index_params].
    destruct (set_index_params_object rest [(k, v)]) as (stored & Hrun & Hfind).
    change (string_members [(k, v)]) with [(k, Jstring v)] in Hrun, Hfind.
    rewrite Hrun. cbn [items].
    destruct (describe_string_members stored _ _ _ Hfields)
      as (response' & field' & Hdescribe & Hfields' & Hparams).
    exists stored, response', field'. repeat split; try done.
    + rewrite Hfind. cbn [last_assigned find_member].
      destruct (last_assigned key rest); [congruence|].
      destruct (decide (k = key)); congruence.
    + rewrite Hfind. cbn [last_assigned find_member].
      destruct (last_assigned key rest); [congruence|].
      destruct (decide (k = key)); congruence.
Qed.
End WithEngine.

(** The index type is given twice. *)
Lemma index_params_described_witness :
  let params := [("index_type", "FLAT"); ("nlist", "1024"); ("index_type", "IVF_FLAT")] in
  let field := mkFieldParam "vec" 101 [] [] in
  let response := mkMapping None "" [field] [] in
  ∃ stored response' field',
    describe_index_params example_dump (items (Collection.set_index_params params Jnull))
      response = (Next (), response') ∧
    fields response' = [] ++ [field'] ∧
    index_params field' = index_params field ++ stored ∧
    ∀ key value,
      find_member key (string_members stored) = Some (Jstring value)
      ↔ last_assigned key params = Some value.
Proof.
  apply (index_params_described example_dump
           [("index_type", "FLAT"); ("nlist", "1024"); ("index_type", "IVF_FLAT")]
           (mkMapping None "" [mkFieldParam "vec" 101 [] []] []) []
           (mkFieldParam "vec" 101 [] [])).
  reflexivity.
Defined.

(** The example schema: the number among the index parameters of [vec]
    cannot be handed over as a string. *)
Lemma DescribeCollection_fields_witness :
  let run := DescribeCollection unit "_id" example_described example_dump ()
               "collection" new_Mapping in
  let answer := match run with Val answer => answer | _ => new_Mapping end in
  ∃ new,
    fields answer = fields new_Mapping ++ new ∧
    ((λ f, (name f, type f)) <$> new)
      `prefix_of` ((λ kv : string * FieldSchema, (kv.1, field_type_ kv.2))
                     <$> filter (λ kv, kv.1 ≠ "_id") (fields_ example_schema)) ∧
    (∀ st, status answer = Some st → ok st = true →
           (λ f, (name f, type f)) <$> new
           = ((λ kv : string * FieldSchema, (kv.1, field_type_ kv.2))
                <$> filter (λ kv, kv.1 ≠ "_id") (fields_ example_schema)) ∧
           collection_name answer = "collection" ∧
           ∃ text, example_dump (extra_params_ example_schema) = Val text ∧
                   extra_params answer
                   = extra_params new_Mapping ++ [(SearchHandler.EXTRA_PARAM_KEY, text)]).
Proof.
  intros run answer.
  apply (DescribeCollection_fields unit "_id" example_described example_dump ()
           "collection" new_Mapping answer).
  vm_compute. reflexivity.
Defined.

Example DescribeCollection_evaluated :
  DescribeCollection unit "_id" example_described example_dump () "collection" new_Mapping
  = Val (mkMapping (Some parsing_json_string_wrong) "collection"
           [mkFieldParam "age" 4 [] [("params", "null")];
            mkFieldParam "vec" 101 [("index_type", "IVF_FLAT"); ("nlist", "")]
              [("params", "null")]] []).
Proof. vm_compute. reflexivity. Qed.
End DescribeFacts.
